(** * QuizWiz: the room session state machine of [app.py]

    A shallow embedding of the Flask-SocketIO handlers of [app.py]
    ([create_room], [join], [start_game], [next_round], [choose],
    [pick_diff], [receive_answer], [end_game]) and the properties of the
    round rotation, answer barrier, scoring and final ranking.

    Conventions of the embedding.
    - The process-wide dict [rooms] is a [gmap string game]; a handler takes
      it and returns the updated registry.  Python mutates [g = rooms[room]]
      in place; here every mutation is written back under the same key.
    - [players] is iterated by the code ([list(g["players"].keys())],
      [g["players"].values()]), so it is an insertion-ordered association
      list with Python's dict assignment ([Dict.set]).  The dicts that are
      only indexed ([picker_counts], [questions], [answers], [difficulties])
      are [gmap]s.
    - [emit(...)] appends a notification to the outcome, with its
      destination: [room=room] is [ToRoom], [to=sid] is [ToSid]; an [emit]
      with neither goes back to the calling client, [ToSid request.sid].
    - A [KeyError], [IndexError] or [TypeError] aborts the handler; the
      mutations made before it stay, as they do in Python.
    - The handlers take the fields of the payload as typed arguments
      ([action]); the lines that read them out of [data], and what they
      raise on a payload that is incomplete or of another shape, are
      [dispatch].
    - The [random] module draws from a tape of naturals supplied with the
      event, so every statement quantified over tapes covers every outcome
      of the draws.
    - [socketio.sleep(1)] only delays; a handler runs as one step. *)

From Stdlib Require Import ZArith List Lia Ascii String.
From stdpp Require Import gmap strings list fin_maps.

Local Open Scope string_scope.
Local Open Scope list_scope.
Local Open Scope Z_scope.

(** ** Python dicts whose iteration order is observed *)

Module Dict.

Definition t (V : Type) := list (string * V).

(** [d.get(k)] / [d[k]] ([None]: the key is absent). *)
Fixpoint get {V} (k : string) (d : t V) : option V :=
  match d with
  | [] => None
  | (k', v) :: d' => if decide (k = k') then Some v else get k d'
  end.

(** [d[k] = v]: an existing key keeps its position, a new key goes last. *)
Fixpoint set {V} (k : string) (v : V) (d : t V) : t V :=
  match d with
  | [] => [(k, v)]
  | (k', v') :: d' =>
      if decide (k = k') then (k', v) :: d' else (k', v') :: set k v d'
  end.

Definition keys {V} (d : t V) : list string := map fst d.
Definition values {V} (d : t V) : list V := map snd d.

End Dict.

(** ** The [random] module, on a tape of draws *)

Module Random.

Definition tape := list nat.

(** [randbelow(n)]: the next draw, reduced into [0, n). *)
Definition randbelow (n : nat) (rnd : tape) : nat * tape :=
  match rnd with
  | [] => (0%nat, [])
  | r :: rnd' => ((r mod n)%nat, rnd')
  end.

(** [x[i], x[j] = x[j], x[i]] *)
Definition swap {A} (x : list A) (i j : nat) : list A :=
  match x !! i, x !! j with
  | Some xi, Some xj => <[j := xi]> (<[i := xj]> x)
  | _, _ => x
  end.

(** The loop of [random.shuffle]:
    [for i in reversed(range(1, len(x))): j = randbelow(i + 1); swap]. *)
Fixpoint shuffle_down {A} (i : nat) (x : list A) (rnd : tape) : list A * tape :=
  match i with
  | O => (x, rnd)
  | S i' =>
      let (j, rnd') := randbelow (S i) rnd in
      shuffle_down i' (swap x i j) rnd'
  end.

Definition shuffle {A} (x : list A) (rnd : tape) : list A * tape :=
  shuffle_down (length x - 1) x rnd.

(** [random.sample(population, k)], the pool algorithm: draw a position
    of the remaining pool, move the last remaining item into the vacancy. *)
Fixpoint sample {A} (pool : list A) (k : nat) (rnd : tape) : list A :=
  match k with
  | O => []
  | S k' =>
      let (j, rnd') := randbelow (length pool) rnd in
      match pool !! j, last pool with
      | Some x, Some y =>
          x :: sample (take (length pool - 1) (<[j := y]> pool)) k' rnd'
      | _, _ => []
      end
  end.

(** [random.choice(seq)] = [seq[randbelow(len(seq))]]; [None]: [IndexError]
    on an empty sequence. *)
Definition choice {A} (seq : list A) (rnd : tape) : option A :=
  seq !! fst (randbelow (length seq) rnd).

End Random.

(** ** Data model *)

(** A question of the bank, in the internal format [{"q", "a", "correct"}]. *)
Record question := Question {
  q : string;
  a : list string;
  correct : Z
}.

(** [{"name": name, "score": 0}] *)
Record player := Player {
  name : string;
  score : Z
}.

(** The dict returned by [init_game].  [current_picker] and [category] are
    [None] or a string; a slot of [answers] is [None] (not yet answered) or
    the submitted index. *)
Record game := Game {
  players : Dict.t player;
  order : list string;
  round : Z;
  current_picker : option string;
  picker_counts : gmap string Z;
  category : option string;
  category_options : list string;
  questions : gmap string question;
  answers : gmap string (option Z);
  difficulties : gmap string string;
  phase : string
}.

Definition POINTS : Dict.t Z := [("easy", 10); ("medium", 25); ("hard", 50)].

(** The question bank: category -> difficulty -> questions ([QUESTIONS] is
    read from [static/questions.json] when the module is loaded). *)
Definition bank := Dict.t (Dict.t (list question)).

Definition init_game : game := {|
  players := [];
  order := [];
  round := 0;
  current_picker := None;
  picker_counts := ∅;
  category := None;
  category_options := [];
  questions := ∅;
  answers := ∅;
  difficulties := ∅;
  phase := "lobby"
|}.

(** ** Notifications *)

Inductive dest :=
| ToRoom (room : string)
| ToSid (sid : string).

Inductive payload :=
| room_created (room : string)
| joined_error (error : string)
| joined (room sid : string)
| player_list (names : list string)
| round_start (roundId : Z) (picker pickerSid : string) (categories : list string)
| category_chosen (cat : string) (roundId : Z)
| question_sent (text : string) (choices : list string) (roundId : Z)
| answer_feedback (is_correct : bool) (correctIndex : Z)
| round_end
| game_over (results : list (string * Z)) (winner : string).

Record emission := Emit {
  event : payload;
  to : dest
}.

(** ** Outcome of a handler *)

Inductive exn := KeyError | IndexError | TypeError.

Record outcome := Outcome {
  o_rooms : gmap string game;
  o_emits : list emission;
  o_raised : option exn
}.

Definition returned (rooms : gmap string game) (out : list emission) : outcome :=
  Outcome rooms out None.

Definition raised (rooms : gmap string game) (out : list emission) (e : exn) : outcome :=
  Outcome rooms out (Some e).

(** ** [sorted(results, key=...)]: the stable sort *)

Section Sorted.
Context {A : Type} (key : A → Z).

(** [x] stood before every item of [l] in the input: it goes before the
    first item whose key is not smaller. *)
Fixpoint sorted_insert (x : A) (l : list A) : list A :=
  match l with
  | [] => [x]
  | y :: l' =>
      if key x <=? key y then x :: y :: l' else y :: sorted_insert x l'
  end.

Definition sorted (l : list A) : list A := foldr sorted_insert [] l.
End Sorted.

(** ** [str.upper] on the characters of a uuid *)

Definition upper_ascii (c : ascii) : ascii :=
  let n := nat_of_ascii c in
  if ((97 <=? n) && (n <=? 122))%nat then ascii_of_nat (n - 32) else c.

Fixpoint upper (s : string) : string :=
  match s with
  | EmptyString => EmptyString
  | String c s' => String (upper_ascii c) (upper s')
  end.

(** ** The handlers *)

Section Handlers.

Variable QUESTIONS : bank.

Definition CATEGORIES : list string := Dict.keys QUESTIONS.

(** [create_room]; [uuid] is [str(uuid.uuid4())]. *)
Definition create_room (rooms : gmap string game) (sid uuid : string) : outcome :=
  let room := upper (substring 0 6 uuid) in
  returned (<[room := init_game]> rooms) [Emit (room_created room) (ToSid sid)].

Definition join (rooms : gmap string game) (sid room name_ : string) : outcome :=
  match rooms !! room with
  | None => returned rooms [Emit (joined_error "Room not found") (ToSid sid)]
  | Some g =>
      let g := {|
        players := Dict.set sid (Player name_ 0) (players g);
        order := order g;
        round := round g;
        current_picker := current_picker g;
        picker_counts := <[sid := 0]> (picker_counts g);
        category := category g;
        category_options := category_options g;
        questions := questions g;
        answers := answers g;
        difficulties := difficulties g;
        phase := phase g
      |} in
      returned (<[room := g]> rooms)
        [Emit (joined room sid) (ToSid sid);
         Emit (player_list (map name (Dict.values (players g)))) (ToRoom room)]
  end.

Definition end_game (rooms : gmap string game) (room : string) : outcome :=
  match rooms !! room with
  | None => raised rooms [] KeyError
  | Some g =>
      let results := map (λ p, (name p, score p)) (Dict.values (players g)) in
      let sorted_res := sorted (λ r : string * Z, - r.2) results in
      let winner :=
        match sorted_res with
        | r :: _ => r.1
        | [] => "Ingen"
        end in
      returned rooms [Emit (game_over results winner) (ToRoom room)]
  end.

(** The body of the [for sid in g["order"]] loop of [next_round], from the
    remaining part [l] of the order on. *)
Fixpoint next_round_from (rooms : gmap string game) (room : string) (g : game)
    (rnd : Random.tape) (l : list string) : outcome :=
  match l with
  | [] => end_game rooms room
  | sid :: l' =>
      match picker_counts g !! sid with
      | None => raised rooms [] KeyError
      | Some c =>
          if c <? 2 then
            let g := {|
              players := players g;
              order := order g;
              round := round g + 1;
              current_picker := Some sid;
              picker_counts := <[sid := c + 1]> (picker_counts g);
              category := None;
              category_options :=
                if (3 <=? length CATEGORIES)%nat
                then Random.sample CATEGORIES 3 rnd
                else CATEGORIES;
              questions := ∅;
              answers := ∅;
              difficulties := ∅;
              phase := phase g
            |} in
            match Dict.get sid (players g) with
            | None => raised (<[room := g]> rooms) [] KeyError
            | Some p =>
                returned (<[room := g]> rooms)
                  [Emit (round_start (round g) (name p) sid (category_options g))
                     (ToRoom room)]
            end
          else next_round_from rooms room g rnd l'
      end
  end.

Definition next_round (rooms : gmap string game) (room : string)
    (rnd : Random.tape) : outcome :=
  match rooms !! room with
  | None => raised rooms [] KeyError
  | Some g => next_round_from rooms room g rnd (order g)
  end.

Definition start_game (rooms : gmap string game) (room : string)
    (rnd : Random.tape) : outcome :=
  match rooms !! room with
  | None => returned rooms []
  | Some g =>
      let (shuffled, rnd) := Random.shuffle (Dict.keys (players g)) rnd in
      let g := {|
        players := players g;
        order := shuffled;
        round := round g;
        current_picker := current_picker g;
        picker_counts := picker_counts g;
        category := category g;
        category_options := category_options g;
        questions := questions g;
        answers := answers g;
        difficulties := difficulties g;
        phase := phase g
      |} in
      next_round (<[room := g]> rooms) room rnd
  end.

Definition choose (rooms : gmap string game) (sid room cat : string) : outcome :=
  match rooms !! room with
  | None => returned rooms []
  | Some g =>
      if decide (Some sid ≠ current_picker g) then returned rooms []
      else if decide (cat ∉ category_options g) then returned rooms []
      else match Dict.get cat QUESTIONS with
      | None => returned rooms []
      | Some _ =>
          let g := {|
            players := players g;
            order := order g;
            round := round g;
            current_picker := current_picker g;
            picker_counts := picker_counts g;
            category := Some cat;
            category_options := category_options g;
            questions := questions g;
            answers := answers g;
            difficulties := difficulties g;
            phase := phase g
          |} in
          returned (<[room := g]> rooms)
            [Emit (category_chosen cat (round g)) (ToRoom room)]
      end
  end.

Definition pick_diff (rooms : gmap string game) (sid room difficulty : string)
    (rnd : Random.tape) : outcome :=
  match rooms !! room with
  | None => returned rooms []
  | Some g =>
      match category g with
      | None => returned rooms []
      | Some cat =>
          if decide (difficulty ∉ ["easy"; "medium"; "hard"]) then returned rooms []
          else
            let g := {|
              players := players g;
              order := order g;
              round := round g;
              current_picker := current_picker g;
              picker_counts := picker_counts g;
              category := category g;
              category_options := category_options g;
              questions := questions g;
              answers := answers g;
              difficulties := <[sid := difficulty]> (difficulties g);
              phase := phase g
            |} in
            match Dict.get cat QUESTIONS with
            | None => raised (<[room := g]> rooms) [] KeyError
            | Some levels =>
                let pool := default [] (Dict.get difficulty levels) in
                match pool with
                | [] =>
                    returned (<[room := g]> rooms)
                      [Emit (question_sent
                               "No questions available for this category/difficulty."
                               ["OK"; "OK"; "OK"; "OK"] (round g))
                         (ToSid sid)]
                | _ :: _ =>
                    match Random.choice pool rnd with
                    | None => raised (<[room := g]> rooms) [] IndexError
                    | Some qu =>
                        let g := {|
                          players := players g;
                          order := order g;
                          round := round g;
                          current_picker := current_picker g;
                          picker_counts := picker_counts g;
                          category := category g;
                          category_options := category_options g;
                          questions := <[sid := qu]> (questions g);
                          answers := <[sid := None]> (answers g);
                          difficulties := difficulties g;
                          phase := phase g
                        |} in
                        returned (<[room := g]> rooms)
                          [Emit (question_sent (q qu) (a qu) (round g)) (ToSid sid)]
                    end
                end
            end
      end
  end.

(** [psid in g["answers"] and g["answers"][psid] is not None] *)
Definition has_answered (g : game) (psid : string) : bool :=
  match answers g !! psid with
  | Some (Some _) => true
  | _ => false
  end.

(** The tail of [receive_answer], from the [answer_feedback] emit on. *)
Definition feedback_and_barrier (rooms : gmap string game) (sid room : string)
    (g : game) (is_correct : bool) (correct_index : Z) (rnd : Random.tape) : outcome :=
  let feedback := Emit (answer_feedback is_correct correct_index) (ToSid sid) in
  if forallb (has_answered g) (Dict.keys (players g)) then
    let o := next_round (<[room := g]> rooms) room rnd in
    Outcome (o_rooms o) (feedback :: Emit round_end (ToRoom room) :: o_emits o)
      (o_raised o)
  else returned (<[room := g]> rooms) [feedback].

(** [answer] is the payload's [data["answer"]]: an index or JSON null. *)
Definition receive_answer (rooms : gmap string game) (sid room : string)
    (answer : option Z) (rnd : Random.tape) : outcome :=
  match rooms !! room with
  | None => returned rooms []
  | Some g =>
      match questions g !! sid with
      | None => returned rooms []
      | Some qu =>
          let correct_index := correct qu in
          let is_correct := bool_decide (answer = Some correct_index) in
          let g := {|
            players := players g;
            order := order g;
            round := round g;
            current_picker := current_picker g;
            picker_counts := picker_counts g;
            category := category g;
            category_options := category_options g;
            questions := questions g;
            answers := <[sid := answer]> (answers g);
            difficulties := difficulties g;
            phase := phase g
          |} in
          let difficulty := difficulties g !! sid in
          match (if is_correct then difficulty ≫= (λ d, Dict.get d POINTS) else None) with
          | Some points =>
              match Dict.get sid (players g) with
              | None => raised (<[room := g]> rooms) [] KeyError
              | Some p =>
                  let g := {|
                    players := Dict.set sid (Player (name p) (score p + points)) (players g);
                    order := order g;
                    round := round g;
                    current_picker := current_picker g;
                    picker_counts := picker_counts g;
                    category := category g;
                    category_options := category_options g;
                    questions := questions g;
                    answers := answers g;
                    difficulties := difficulties g;
                    phase := phase g
                  |} in
                  feedback_and_barrier rooms sid room g is_correct correct_index rnd
              end
          | None => feedback_and_barrier rooms sid room g is_correct correct_index rnd
          end
      end
  end.

End Handlers.

(** ** The socket events and the server loop *)

(** An inbound socket event, named as in [@socketio.on(...)], with the draws
    the handler makes, once the handler has read the fields of its payload
    ([data["room"]], [data["name"]] and so on): each field is there and has
    the type the pages of the game send, a string, and for the answer an
    integer or null.  What a handler does with any other payload (a missing
    key, a value that is no object, a room that is no string) is [dispatch],
    at the end of the definitions. *)
Inductive action :=
| On_create_room (uuid : string)
| On_join_room (room name_ : string)
| On_start_game (room : string) (rnd : Random.tape)
| On_choose_category (room cat : string)
| On_choose_difficulty (room difficulty : string) (rnd : Random.tape)
| On_submit_answer (room : string) (answer : option Z) (rnd : Random.tape).

(** A request: [request.sid] and the event. *)
Definition request := (string * action)%type.

Section Server.

Variable QUESTIONS : bank.

Definition handle (rooms : gmap string game) (r : request) : outcome :=
  let sid := r.1 in
  match r.2 with
  | On_create_room uuid => create_room rooms sid uuid
  | On_join_room room name_ => join rooms sid room name_
  | On_start_game room rnd => start_game QUESTIONS rooms room rnd
  | On_choose_category room cat => choose QUESTIONS rooms sid room cat
  | On_choose_difficulty room difficulty rnd =>
      pick_diff QUESTIONS rooms sid room difficulty rnd
  | On_submit_answer room answer rnd =>
      receive_answer QUESTIONS rooms sid room answer rnd
  end.

(** The server handles the requests one after the other; a handler that
    raised leaves the registry as it was when it raised. *)
Fixpoint serve (rooms : gmap string game) (rs : list request)
    : gmap string game * list emission :=
  match rs with
  | [] => (rooms, [])
  | r :: rs' =>
      let o := handle rooms r in
      let (rooms', out) := serve (o_rooms o) rs' in
      (rooms', o_emits o ++ out)
  end.

(** Round transitions one after the other, one tape each. *)
Fixpoint transitions (rooms : gmap string game) (room : string)
    (rnds : list Random.tape) : gmap string game * list emission :=
  match rnds with
  | [] => (rooms, [])
  | rnd :: rnds' =>
      let o := next_round QUESTIONS rooms room rnd in
      let (rooms', out) := transitions (o_rooms o) room rnds' in
      (rooms', o_emits o ++ out)
  end.

End Server.


Definition is_round_start (e : emission) : bool :=
  match event e with round_start _ _ _ _ => true | _ => false end.

Definition is_round_end (e : emission) : bool :=
  match event e with round_end => true | _ => false end.

Definition is_game_over (e : emission) : bool :=
  match event e with game_over _ _ => true | _ => false end.

Definition is_question (e : emission) : bool :=
  match event e with question_sent _ _ _ => true | _ => false end.

(** ** A small bank and a room, for the concrete runs *)

Definition nba_easy : question :=
  Question "Who won the 2016 finals?" ["Cavaliers"; "Warriors"; "Spurs"; "Heat"] 0.

Definition nba_hard : question :=
  Question "Who scored 81 points in 2006?" ["Jordan"; "Bryant"; "James"; "Iverson"] 1.

(** Three categories; [Film] has no hard questions. *)
Definition demo_bank : bank :=
  [("NBA", [("easy", [nba_easy]); ("medium", []); ("hard", [nba_hard])]);
   ("Film", [("easy", [nba_easy]); ("medium", []); ("hard", [])]);
   ("Geo", [("easy", [nba_easy]); ("medium", []); ("hard", [nba_hard])])].

(** Room [R] with players [A], [B], [C] joined in that order. *)
Definition lobby_ABC : gmap string game :=
  (serve demo_bank ∅
     [("A", On_create_room "abc123de-0000");
      ("A", On_join_room "ABC123" "Ann");
      ("B", On_join_room "ABC123" "Bob");
      ("C", On_join_room "ABC123" "Cyd")]).1.

(** ** The milestones of a log: round starts and game over *)

Inductive milestone :=
| Round (pickerSid : string)
| GameOver.

Fixpoint milestones (out : list emission) : list milestone :=
  match out with
  | [] => []
  | Emit (round_start _ _ pickerSid _) _ :: out' => Round pickerSid :: milestones out'
  | Emit (game_over _ _) _ :: out' => GameOver :: milestones out'
  | _ :: out' => milestones out'
  end.

(** The picks still owed to the players of [l], in the order [next_round]
    hands them out: a player with [c] picks is owed [2 - c]. *)
Definition schedule (counts : gmap string Z) (l : list string) : list string :=
  flat_map (λ sid, replicate (Z.to_nat (2 - default 2 (counts !! sid))) sid) l.


Definition score_of (rooms : gmap string game) (room sid : string) : option Z :=
  g ← rooms !! room; p ← Dict.get sid (players g); Some (score p).


(** What the rotation needs of a session: an order without repetition whose
    members have a pick count and a player record ([join] creates both). *)
Definition rotation_ready (g : game) : Prop :=
  NoDup (order g) ∧
  ∀ sid, sid ∈ order g →
    is_Some (picker_counts g !! sid) ∧ is_Some (Dict.get sid (players g)).

(** A roster as [join] leaves it before any round: one record per identity,
    every pick count 0. *)
Definition fresh_roster (g : game) : Prop :=
  NoDup (Dict.keys (players g)) ∧
  ∀ sid, sid ∈ Dict.keys (players g) → picker_counts g !! sid = Some 0.

(** The session of a room that only [A] has joined. *)
Definition game_A : game := {|
  players := [("A", Player "Ann" 0)];
  order := [];
  round := 0;
  current_picker := None;
  picker_counts := {["A" := 0]};
  category := None;
  category_options := [];
  questions := ∅;
  answers := ∅;
  difficulties := ∅;
  phase := "lobby"
|}.

(** Every session of the registry has [phase] "lobby". *)
Definition all_lobby (rooms : gmap string game) : Prop :=
  map_Forall (λ _ g, phase g = "lobby") rooms.

(** A notification that [next_round] can emit: [round_start] or [game_over],
    to the whole room. *)
Definition is_transition_emit (room : string) (e : emission) : Prop :=
  to e = ToRoom room ∧ is_question e = false ∧ is_round_end e = false.

(** The barrier of [receive_answer]: every joined player has a recorded,
    non-empty answer. *)
Definition all_answered (g : game) : Prop :=
  ∀ psid, psid ∈ Dict.keys (players g) → ∃ v, answers g !! psid = Some (Some v).

(** The points [receive_answer] adds for [answer] to question [qu]: those of
    the declared difficulty when the answer is the correct index and the
    difficulty is a key of [POINTS]. *)
Definition awarded (g : game) (sid : string) (qu : question) (answer : option Z) : Z :=
  if bool_decide (answer = Some (correct qu))
  then default 0 (difficulties g !! sid ≫= (λ d, Dict.get d POINTS))
  else 0.


(** A ranking by descending score. *)
Fixpoint descending (l : list (string * Z)) : bool :=
  match l with
  | x :: l' =>
      match l' with
      | y :: _ => (y.2 <=? x.2) && descending l'
      | [] => true
      end
  | [] => true
  end.

(** ** Games played on the small bank *)

(** A registry with the one room [R], just created. *)
Definition room_R : gmap string game := {["R" := init_game]}.

(** One round of a game that [A] plays alone: NBA, hard, the right answer. *)
Definition solo_round : list request :=
  [("A", On_choose_category "R" "NBA");
   ("A", On_choose_difficulty "R" "hard" []);
   ("A", On_submit_answer "R" (Some 1) [])].

(** [A] joins, starts and plays both rounds. *)
Definition solo_game : list request :=
  [("A", On_join_room "R" "Ann"); ("A", On_start_game "R" [])]
  ++ solo_round ++ solo_round.

(** Ann and Bob join and Ann starts; the empty tape shuffles [A, B] into
    [B, A]. *)
Definition duo_start : list request :=
  [("A", On_join_room "R" "Ann");
   ("B", On_join_room "R" "Bob");
   ("A", On_start_game "R" [])].

(** One round of their game: the picker chooses NBA, both take an easy
    question (its correct index is 0) and answer. *)
Definition duo_round (picker : string) (answer_A answer_B : option Z) : list request :=
  [(picker, On_choose_category "R" "NBA");
   ("A", On_choose_difficulty "R" "easy" []);
   ("B", On_choose_difficulty "R" "easy" []);
   ("A", On_submit_answer "R" answer_A []);
   ("B", On_submit_answer "R" answer_B [])].

(** The whole game: Bob is right once, Ann never. *)
Definition duo_game : list request :=
  duo_start
  ++ duo_round "B" (Some 3) (Some 0)
  ++ duo_round "B" (Some 3) (Some 3)
  ++ duo_round "A" (Some 3) (Some 3)
  ++ duo_round "A" (Some 3) (Some 3).

(** The session of [room] in a registry that has it. *)
Definition session_of (rooms : gmap string game) (room : string) : game :=
  default init_game (rooms !! room).

(** The solo game finished: both rounds played, [game_over] broadcast. *)
Definition solo_finished : gmap string game := (serve demo_bank room_R solo_game).1.

(** The solo game in its first round, with the category Film chosen. *)
Definition solo_film : gmap string game :=
  (serve demo_bank room_R
     [("A", On_join_room "R" "Ann");
      ("A", On_start_game "R" []);
      ("A", On_choose_category "R" "Film")]).1.

(** The solo game just started. *)
Definition solo_started : gmap string game :=
  (serve demo_bank room_R
     [("A", On_join_room "R" "Ann"); ("A", On_start_game "R" [])]).1.

(** Round 1 of Ann and Bob: Bob chose NBA and Ann holds a hard question
    (its correct index is 1); nobody has answered. *)
Definition duo_hard : gmap string game :=
  (serve demo_bank room_R
     (duo_start ++
      [("B", On_choose_category "R" "NBA");
       ("A", On_choose_difficulty "R" "hard" [])])).1.

(** Round 1 of Ann and Bob: both hold an easy question, Ann has answered. *)
Definition duo_one_left : gmap string game :=
  (serve demo_bank room_R
     (duo_start ++
      [("B", On_choose_category "R" "NBA");
       ("A", On_choose_difficulty "R" "easy" []);
       ("B", On_choose_difficulty "R" "easy" []);
       ("A", On_submit_answer "R" (Some 3) [])])).1.

(** Their game finished. *)
Definition duo_finished : gmap string game := (serve demo_bank room_R duo_game).1.

(** A whole game on a registry grown from the empty one: [A] creates room
    [ABC123], joins, starts and plays both rounds. *)
Definition created_game : list request :=
  [("A", On_create_room "abc123de-0000");
   ("A", On_join_room "ABC123" "Ann");
   ("A", On_start_game "ABC123" []);
   ("A", On_choose_category "ABC123" "NBA");
   ("A", On_choose_difficulty "ABC123" "hard" []);
   ("A", On_submit_answer "ABC123" (Some 1) []);
   ("A", On_choose_category "ABC123" "NBA");
   ("A", On_choose_difficulty "ABC123" "hard" []);
   ("A", On_submit_answer "ABC123" (Some 1) [])].

(** ** Well-formed sessions *)

(** What the handlers keep true of a session: the order and the roster have
    no repetition, every member of the order is a player, every player has a
    pick count, pick counts stay within 0..2, a chosen category is a
    category of the bank, and the round-scoped maps go together (an answer
    slot exists exactly for the players holding a question, each of whom has
    declared a difficulty). *)
Record well_formed (QUESTIONS : bank) (g : game) : Prop := WellFormed {
  wf_roster : NoDup (Dict.keys (players g));
  wf_order_NoDup : NoDup (order g);
  wf_order : ∀ sid, sid ∈ order g → sid ∈ Dict.keys (players g);
  wf_counts : ∀ sid, sid ∈ Dict.keys (players g) → is_Some (picker_counts g !! sid);
  wf_range : ∀ sid c, picker_counts g !! sid = Some c → 0 ≤ c ≤ 2;
  wf_category : ∀ cat, category g = Some cat → is_Some (Dict.get cat QUESTIONS);
  wf_answers : dom (answers g) = dom (questions g);
  wf_difficulties : dom (questions g) ⊆ dom (difficulties g)
}.

Definition all_well_formed (QUESTIONS : bank) (rooms : gmap string game) : Prop :=
  map_Forall (λ _ g, well_formed QUESTIONS g) rooms.

(** The requests of a running game: choosing and answering, as opposed to
    creating, joining and starting. *)
Definition in_game (r : request) : bool :=
  match r.2 with
  | On_choose_category _ _ | On_choose_difficulty _ _ _ | On_submit_answer _ _ _ => true
  | _ => false
  end.

(** The picks [next_round] still owes in a session. *)
Definition owed (g : game) : nat := length (schedule (picker_counts g) (order g)).

(** The session [next_round] leaves when it starts a round for [sid], whose
    pick count was [c]. *)
Definition started (QUESTIONS : bank) (g : game) (sid : string) (c : Z)
    (rnd : Random.tape) : game := {|
  players := players g;
  order := order g;
  round := round g + 1;
  current_picker := Some sid;
  picker_counts := <[sid := c + 1]> (picker_counts g);
  category := None;
  category_options :=
    if (3 <=? length (CATEGORIES QUESTIONS))%nat
    then Random.sample (CATEGORIES QUESTIONS) 3 rnd
    else CATEGORIES QUESTIONS;
  questions := ∅;
  answers := ∅;
  difficulties := ∅;
  phase := phase g
|}.

(** The sessions the other handlers leave: [start_game] after the shuffle,
    [choose] after the assignment of the category, [pick_diff] after the
    difficulty is declared and after a question is assigned,
    [receive_answer] after the answer is stored and after the points are
    added. *)
Definition ordered (g : game) (shuffled : list string) : game := {|
  players := players g;
  order := shuffled;
  round := round g;
  current_picker := current_picker g;
  picker_counts := picker_counts g;
  category := category g;
  category_options := category_options g;
  questions := questions g;
  answers := answers g;
  difficulties := difficulties g;
  phase := phase g
|}.

Definition chosen (g : game) (cat : string) : game := {|
  players := players g;
  order := order g;
  round := round g;
  current_picker := current_picker g;
  picker_counts := picker_counts g;
  category := Some cat;
  category_options := category_options g;
  questions := questions g;
  answers := answers g;
  difficulties := difficulties g;
  phase := phase g
|}.

Definition declared (g : game) (sid difficulty : string) : game := {|
  players := players g;
  order := order g;
  round := round g;
  current_picker := current_picker g;
  picker_counts := picker_counts g;
  category := category g;
  category_options := category_options g;
  questions := questions g;
  answers := answers g;
  difficulties := <[sid := difficulty]> (difficulties g);
  phase := phase g
|}.

Definition assigned (g : game) (sid : string) (qu : question) : game := {|
  players := players g;
  order := order g;
  round := round g;
  current_picker := current_picker g;
  picker_counts := picker_counts g;
  category := category g;
  category_options := category_options g;
  questions := <[sid := qu]> (questions g);
  answers := <[sid := None]> (answers g);
  difficulties := difficulties g;
  phase := phase g
|}.

Definition recorded (g : game) (sid : string) (answer : option Z) : game := {|
  players := players g;
  order := order g;
  round := round g;
  current_picker := current_picker g;
  picker_counts := picker_counts g;
  category := category g;
  category_options := category_options g;
  questions := questions g;
  answers := <[sid := answer]> (answers g);
  difficulties := difficulties g;
  phase := phase g
|}.

Definition scored (g : game) (sid : string) (p : player) (points : Z) : game := {|
  players := Dict.set sid (Player (name p) (score p + points)) (players g);
  order := order g;
  round := round g;
  current_picker := current_picker g;
  picker_counts := picker_counts g;
  category := category g;
  category_options := category_options g;
  questions := questions g;
  answers := answers g;
  difficulties := difficulties g;
  phase := phase g
|}.

(** The points of [receive_answer]'s test [correct and difficulty in POINTS]:
    [None] when the test fails. *)
Definition points_for (g : game) (sid : string) (qu : question) (answer : option Z)
    : option Z :=
  if bool_decide (answer = Some (correct qu))
  then difficulties g !! sid ≫= (λ d, Dict.get d POINTS)
  else None.

(** A game in which [X], who never joined, takes a question: [A] creates
    room [ABC123], joins, starts and chooses NBA, then [X] asks for a hard
    question. *)
Definition outsider_game : list request :=
  [("A", On_create_room "abc123de-0000");
   ("A", On_join_room "ABC123" "Ann");
   ("A", On_start_game "ABC123" []);
   ("A", On_choose_category "ABC123" "NBA");
   ("X", On_choose_difficulty "ABC123" "hard" [])].

(** The room a request names (none for [create_room]). *)
Definition room_of (r : request) : option string :=
  match r.2 with
  | On_create_room _ => None
  | On_join_room room _ => Some room
  | On_start_game room _ => Some room
  | On_choose_category room _ => Some room
  | On_choose_difficulty room _ _ => Some room
  | On_submit_answer room _ _ => Some room
  end.

(** Two states of a session between which the game neither gained nor lost
    a round: same order, same identities in the roster, and the rounds
    started plus the picks still owed add up to the same number. *)
Definition steady (g g' : game) : Prop :=
  order g' = order g ∧
  Dict.keys (players g') = Dict.keys (players g) ∧
  round g' + Z.of_nat (owed g') = round g + Z.of_nat (owed g).

(** ** Loading the question file *)

(** A value as [json.load] returns it.  A float is its IEEE 754 binary64 bit
    pattern; the loader only ever tests one for truth. *)
#[warnings="-register-all"] Inductive json :=
| JNull
| JBool (b : bool)
| JInt (n : Z)
| JFloat (bits : Z)
| JStr (s : string)
| JList (l : list json)
| JObj (o : list (string * json)).

(** Python's truth value of such a value: [None], [False], zero, and the
    empty string, list and dict are false. *)
Definition truthy (v : json) : bool :=
  match v with
  | JNull => false
  | JBool b => b
  | JInt n => negb (n =? 0)
  | JFloat bits => negb (Z.land bits (2 ^ 63 - 1) =? 0)
  | JStr s => negb (String.eqb s "")
  | JList l => match l with [] => false | _ :: _ => true end
  | JObj o => match o with [] => false | _ :: _ => true end
  end.

(** [x or y] for two results of [item.get]: the first if it is there and
    true, else the second, which may be [None]. *)
Definition or_else (x y : option json) : option json :=
  match x with
  | Some v => if truthy v then Some v else y
  | None => y
  end.

(** [isinstance(v, int)], with the integer: [bool] is a subclass of [int],
    and [True] and [False] compare as 1 and 0. *)
Definition as_int (v : json) : option Z :=
  match v with
  | JInt n => Some n
  | JBool b => Some (if b then 1 else 0)
  | _ => None
  end.

(** An item of the file: a JSON object. *)
Definition item := Dict.t json.

(** A converted question [{"q": q_text, "a": a_list, "correct": correct}],
    holding the values of the item as they are. *)
Record entry := Entry {
  e_q : string;
  e_a : list json;
  e_correct : json
}.

(** The body of the loop over the items of one difficulty: [None] for an
    item that is skipped. *)
Definition convert_item (it : item) : option entry :=
  let q_text := or_else (Dict.get "q" it) (Dict.get "question" it) in
  let a_list := or_else (Dict.get "a" it) (Dict.get "answers" it) in
  let correct := Dict.get "correct" it in
  match q_text with
  | Some (JStr s) =>
      match a_list with
      | Some (JList l) =>
          if decide (length l = 4%nat) then
            match correct with
            | Some c =>
                match as_int c with
                | Some n => if (n <? 0) || (3 <? n) then None else Some (Entry s l c)
                | None => None
                end
            | None => None
            end
          else None
      | _ => None
      end
  | _ => None
  end.

(** [converted[cat_name][diff]] for one difficulty. *)
Definition convert_level (levels : Dict.t (list item)) (diff : string) : list entry :=
  match Dict.get diff levels with
  | None => []
  | Some items => omap convert_item items
  end.

(** [converted[cat_name]]: the loop over the three difficulties. *)
Definition convert_levels (levels : Dict.t (list item)) : Dict.t (list entry) :=
  foldl (λ acc diff, Dict.set diff (convert_level levels diff) acc) []
    ["easy"; "medium"; "hard"].

(** [load_questions], from the value read from [static/questions.json] on:
    [raw] has the shape the code expects, category -> difficulty -> items. *)
Definition load_questions (raw : Dict.t (Dict.t (list item)))
    : Dict.t (Dict.t (list entry)) :=
  foldl (λ converted cl, Dict.set cl.1 (convert_levels cl.2) converted) [] raw.

(** A converted question written as the dict the loader builds. *)
Definition entry_item (e : entry) : item :=
  [("q", JStr (e_q e)); ("a", JList (e_a e)); ("correct", e_correct e)].

(** A small file: one good item in each format, and four bad ones. *)
Definition demo_raw : Dict.t (Dict.t (list item)) :=
  [("NBA",
    [("easy",
      [[("question", JStr "Who won in 2016?");
        ("answers", JList [JStr "Cavs"; JStr "Warriors"; JStr "Spurs"; JStr "Heat"]);
        ("correct", JInt 0)];
       [("q", JStr "Old format?");
        ("a", JList [JStr "a"; JStr "b"; JStr "c"; JStr "d"]);
        ("correct", JBool true)];
       [("question", JStr "Three answers?");
        ("answers", JList [JStr "a"; JStr "b"; JStr "c"]);
        ("correct", JInt 0)];
       [("question", JStr "Index 4?");
        ("answers", JList [JStr "a"; JStr "b"; JStr "c"; JStr "d"]);
        ("correct", JInt 4)];
       [("question", JInt 7);
        ("answers", JList [JStr "a"; JStr "b"; JStr "c"; JStr "d"]);
        ("correct", JInt 1)];
       [("question", JStr "Float index?");
        ("answers", JList [JStr "a"; JStr "b"; JStr "c"; JStr "d"]);
        ("correct", JFloat 4607182418800017408)]]);
     ("hard", [])]);
   ("Film", [])].

(** The solo game just started, beside a second room [S]. *)
Definition two_rooms : gmap string game := <["S" := init_game]> solo_started.

(** The game of [created_game] in two parts: up to the start, and the
    choosing and answering of its two rounds. *)
Definition created_lobby : list request :=
  [("A", On_create_room "abc123de-0000");
   ("A", On_join_room "ABC123" "Ann");
   ("A", On_start_game "ABC123" [])].

Definition created_play : list request :=
  [("A", On_choose_category "ABC123" "NBA");
   ("A", On_choose_difficulty "ABC123" "hard" []);
   ("A", On_submit_answer "ABC123" (Some 1) []);
   ("A", On_choose_category "ABC123" "NBA");
   ("A", On_choose_difficulty "ABC123" "hard" []);
   ("A", On_submit_answer "ABC123" (Some 1) [])].

(** The second good item of [demo_raw], converted. *)
Definition old_format_entry : entry :=
  Entry "Old format?" [JStr "a"; JStr "b"; JStr "c"; JStr "d"] (JBool true).

(** No score of the registry is negative. *)
Definition scores_nonneg (rooms : gmap string game) : Prop :=
  ∀ room g sid p,
    rooms !! room = Some g → Dict.get sid (players g) = Some p → 0 ≤ score p.

(** A lower-case ASCII letter. *)
Definition is_lower (c : ascii) : bool :=
  ((97 <=? nat_of_ascii c) && (nat_of_ascii c <=? 122))%nat.

(** ** The rounds of a game driven by its players *)







(** ** Requests as they arrive *)

(** The events the server subscribes to. *)
Inductive event_name :=
| Ev_create_room
| Ev_join_room
| Ev_start_game
| Ev_choose_category
| Ev_choose_difficulty
| Ev_submit_answer.

(** A request as Flask-SocketIO hands it over: [request.sid], the event, the
    arguments the client sent with it (the handler is called with all of
    them), and what [uuid.uuid4()] and [random] yield during the call.  A
    [JObj] is the dict the payload was parsed into, each key once. *)
Record raw_request := Raw {
  rq_sid : string;
  rq_event : event_name;
  rq_args : list json;
  rq_uuid : string;
  rq_rnd : Random.tape
}.

(** [data[key]] for a string [key]: a dict without the key raises
    [KeyError]; a list, a string, a number, a boolean and [None] cannot be
    subscripted by a string and raise [TypeError]. *)
Definition subscript (data : json) (key : string) : exn + json :=
  match data with
  | JObj o =>
      match Dict.get key o with
      | Some v => inr v
      | None => inl KeyError
      end
  | _ => inl TypeError
  end.

(** [room not in rooms] hashes [room]: a list or a dict is unhashable
    ([TypeError]); a string is looked up; a number, a boolean or [None]
    equals none of the identifiers, which are strings. *)
Definition room_key (room : json) : exn + option string :=
  match room with
  | JStr s => inr (Some s)
  | JList _ | JObj _ => inl TypeError
  | _ => inr None
  end.

(** An answer as the session keeps it: null, or an integer ([True] and
    [False] compare as 1 and 0 with the correct index).  Other values are
    not answers of this embedding. *)
Definition as_answer (v : json) : option (option Z) :=
  match v with
  | JNull => Some None
  | _ => Some <$> as_int v
  end.

Section Dispatch.

Variable QUESTIONS : bank.

(** [x = data[key]] at the head of a handler: an exception there leaves the
    registry as it is. *)
Definition reading (rooms : gmap string game) (x : exn + json)
    (k : json → option outcome) : option outcome :=
  match x with
  | inl e => Some (raised rooms [] e)
  | inr v => k v
  end.

(** The handlers, from their first line.  [None]: the payload would put a
    name that is not a string, or an answer that is neither an integer nor
    null, into a session; the typed sessions of this embedding cannot hold
    it. *)
Definition on_join_room (rooms : gmap string game) (sid : string) (data : json)
    : option outcome :=
  reading rooms (subscript data "room") (λ room,
  reading rooms (subscript data "name") (λ name_,
    match room_key room with
    | inl e => Some (raised rooms [] e)
    | inr None =>
        Some (returned rooms [Emit (joined_error "Room not found") (ToSid sid)])
    | inr (Some room) =>
        match name_, rooms !! room with
        | JStr nm, _ => Some (join rooms sid room nm)
        | _, None =>
            Some (returned rooms [Emit (joined_error "Room not found") (ToSid sid)])
        | _, Some _ => None
        end
    end)).

Definition on_start_game (rooms : gmap string game) (data : json)
    (rnd : Random.tape) : option outcome :=
  reading rooms (subscript data "room") (λ room,
    match room_key room with
    | inl e => Some (raised rooms [] e)
    | inr None => Some (returned rooms [])
    | inr (Some room) => Some (start_game QUESTIONS rooms room rnd)
    end).

(** A category that is not a string is none of [g["category_options"]]. *)
Definition on_choose_category (rooms : gmap string game) (sid : string)
    (data : json) : option outcome :=
  reading rooms (subscript data "room") (λ room,
  reading rooms (subscript data "category") (λ cat,
    match room_key room with
    | inl e => Some (raised rooms [] e)
    | inr None => Some (returned rooms [])
    | inr (Some room) =>
        match cat with
        | JStr cat => Some (choose QUESTIONS rooms sid room cat)
        | _ => Some (returned rooms [])
        end
    end)).

(** A difficulty that is not a string is none of "easy", "medium", "hard". *)
Definition on_choose_difficulty (rooms : gmap string game) (sid : string)
    (data : json) (rnd : Random.tape) : option outcome :=
  reading rooms (subscript data "room") (λ room,
  reading rooms (subscript data "difficulty") (λ difficulty,
    match room_key room with
    | inl e => Some (raised rooms [] e)
    | inr None => Some (returned rooms [])
    | inr (Some room) =>
        match difficulty with
        | JStr difficulty => Some (pick_diff QUESTIONS rooms sid room difficulty rnd)
        | _ => Some (returned rooms [])
        end
    end)).

Definition on_submit_answer (rooms : gmap string game) (sid : string)
    (data : json) (rnd : Random.tape) : option outcome :=
  reading rooms (subscript data "room") (λ room,
  reading rooms (subscript data "answer") (λ answer,
    match room_key room with
    | inl e => Some (raised rooms [] e)
    | inr None => Some (returned rooms [])
    | inr (Some room) =>
        match as_answer answer, rooms !! room with
        | Some answer, _ => Some (receive_answer QUESTIONS rooms sid room answer rnd)
        | None, None => Some (returned rooms [])
        | None, Some _ => None
        end
    end)).

(** The call of the handler of an event.  [create_room(data=None)] takes no
    argument or one; the other handlers take exactly one; any other call is
    a [TypeError]. *)
Definition dispatch (rooms : gmap string game) (rq : raw_request) : option outcome :=
  match rq_event rq, rq_args rq with
  | Ev_create_room, ([] | [_]) => Some (create_room rooms (rq_sid rq) (rq_uuid rq))
  | Ev_join_room, [data] => on_join_room rooms (rq_sid rq) data
  | Ev_start_game, [data] => on_start_game rooms data (rq_rnd rq)
  | Ev_choose_category, [data] => on_choose_category rooms (rq_sid rq) data
  | Ev_choose_difficulty, [data] =>
      on_choose_difficulty rooms (rq_sid rq) data (rq_rnd rq)
  | Ev_submit_answer, [data] => on_submit_answer rooms (rq_sid rq) data (rq_rnd rq)
  | _, _ => Some (raised rooms [] TypeError)
  end.

(** The server on requests as they arrive. *)
Fixpoint serve_raw (rooms : gmap string game) (rqs : list raw_request)
    : option (gmap string game * list emission) :=
  match rqs with
  | [] => Some (rooms, [])
  | rq :: rqs' =>
      match dispatch rooms rq with
      | None => None
      | Some o =>
          match serve_raw (o_rooms o) rqs' with
          | None => None
          | Some (rooms', out) => Some (rooms', o_emits o ++ out)
          end
      end
  end.

End Dispatch.

(** The typed request a payload amounts to, when it holds every field its
    handler reads, each of the type of [action]. *)
Definition typed (rq : raw_request) : option request :=
  match rq_event rq, rq_args rq with
  | Ev_create_room, ([] | [_]) => Some (rq_sid rq, On_create_room (rq_uuid rq))
  | Ev_join_room, [data] =>
      match subscript data "room", subscript data "name" with
      | inr (JStr room), inr (JStr nm) => Some (rq_sid rq, On_join_room room nm)
      | _, _ => None
      end
  | Ev_start_game, [data] =>
      match subscript data "room" with
      | inr (JStr room) => Some (rq_sid rq, On_start_game room (rq_rnd rq))
      | _ => None
      end
  | Ev_choose_category, [data] =>
      match subscript data "room", subscript data "category" with
      | inr (JStr room), inr (JStr cat) => Some (rq_sid rq, On_choose_category room cat)
      | _, _ => None
      end
  | Ev_choose_difficulty, [data] =>
      match subscript data "room", subscript data "difficulty" with
      | inr (JStr room), inr (JStr difficulty) =>
          Some (rq_sid rq, On_choose_difficulty room difficulty (rq_rnd rq))
      | _, _ => None
      end
  | Ev_submit_answer, [data] =>
      match subscript data "room", subscript data "answer" with
      | inr (JStr room), inr v =>
          (λ answer, (rq_sid rq, On_submit_answer room answer (rq_rnd rq)))
            <$> as_answer v
      | _, _ => None
      end
  | _, _ => None
  end.

(** The event of a typed request. *)
Definition event_of (a : action) : event_name :=
  match a with
  | On_create_room _ => Ev_create_room
  | On_join_room _ _ => Ev_join_room
  | On_start_game _ _ => Ev_start_game
  | On_choose_category _ _ => Ev_choose_category
  | On_choose_difficulty _ _ _ => Ev_choose_difficulty
  | On_submit_answer _ _ _ => Ev_submit_answer
  end.

(** The keys of the payload a handler reads before it looks at the
    registry. *)
Definition reads (ev : event_name) : list string :=
  match ev with
  | Ev_create_room => []
  | Ev_join_room => ["room"; "name"]
  | Ev_start_game => ["room"]
  | Ev_choose_category => ["room"; "category"]
  | Ev_choose_difficulty => ["room"; "difficulty"]
  | Ev_submit_answer => ["room"; "answer"]
  end.

Definition has_key (o : Dict.t json) (key : string) : bool :=
  match Dict.get key o with
  | Some _ => true
  | None => false
  end.

(** The exception a malformed request ends in: [TypeError] for a call with
    the wrong number of arguments or a payload that is not an object,
    [KeyError] for an object that lacks a key the handler reads,
    [TypeError] for a complete object whose room is a list or an object. *)
Definition payload_exn (ev : event_name) (args : list json) : option exn :=
  match ev, args with
  | Ev_create_room, ([] | [_]) => None
  | Ev_create_room, _ => Some TypeError
  | _, [JObj o] =>
      if forallb (has_key o) (reads ev) then
        match Dict.get "room" o with
        | Some (JList _ | JObj _) => Some TypeError
        | _ => None
        end
      else Some KeyError
  | _, _ => Some TypeError
  end.

(** What a request that reaches no session leaves behind: nothing but, for
    a well-formed [join_room], the error reply to the sender. *)
Definition ignored (rooms : gmap string game) (rq : raw_request) : outcome :=
  Outcome rooms
    (match payload_exn (rq_event rq) (rq_args rq), rq_event rq with
     | None, Ev_join_room =>
         [Emit (joined_error "Room not found") (ToSid (rq_sid rq))]
     | _, _ => []
     end)
    (payload_exn (rq_event rq) (rq_args rq)).

(** The registry holds the room a request names. *)
Definition names_session (rooms : gmap string game) (rq : raw_request) : Prop :=
  ∃ data room,
    rq_args rq = [data] ∧ subscript data "room" = inr (JStr room) ∧
    is_Some (rooms !! room).

(** [outsider_game] as it arrives. *)
Definition room_data (room : string) (fields : Dict.t json) : json :=
  JObj (("room", JStr room) :: fields).

Definition outsider_raw : list raw_request :=
  [Raw "A" Ev_create_room [] "abc123de-0000" [];
   Raw "A" Ev_join_room [room_data "ABC123" [("name", JStr "Ann")]] "" [];
   Raw "A" Ev_start_game [room_data "ABC123" []] "" [];
   Raw "A" Ev_choose_category [room_data "ABC123" [("category", JStr "NBA")]] "" [];
   Raw "X" Ev_choose_difficulty
     [room_data "ABC123" [("difficulty", JStr "hard")]] "" []].

(** [X], who never joined, submits the correct index of the question it was
    sent. *)
Definition outsider_submit : raw_request :=
  Raw "X" Ev_submit_answer [room_data "ABC123" [("answer", JInt 1)]] "" [].

(** A [join_room] without a name, and a [submit_answer] without an answer. *)
Definition join_without_name : raw_request :=
  Raw "B" Ev_join_room [room_data "ABC123" []] "" [].

Definition join_unknown : raw_request :=
  Raw "A" Ev_join_room [room_data "Q" [("name", JStr "Ann")]] "" [].

Definition join_unknown_without_name : raw_request :=
  Raw "A" Ev_join_room [room_data "Q" []] "" [].

(** * Properties *)

(** ** Ordered dicts *)

Module DictFacts.
Import Dict.

Section Facts.
Context {V : Type}.
Implicit Types (d : t V) (k : string) (v : V).

Lemma get_set_eq k v d : get k (set k v d) = Some v.
Proof.
  induction d as [|[k' v'] d IH]; simpl.
  - by rewrite decide_True.
  - destruct (decide (k = k')) as [->|Hne]; simpl.
    + by rewrite decide_True.
    + by rewrite decide_False.
Qed.

Lemma get_set_ne k k' v d : k ≠ k' → get k' (set k v d) = get k' d.
Proof.
  intros Hne. induction d as [|[k0 v0] d IH]; simpl.
  - by rewrite decide_False.
  - destruct (decide (k = k0)) as [->|Hne0]; simpl.
    + by rewrite !decide_False.
    + by rewrite IH.
Qed.

Lemma get_None k d : get k d = None ↔ k ∉ keys d.
Proof.
  induction d as [|[k' v'] d IH]; simpl.
  - split; [intros _; apply not_elem_of_nil | done].
  - rewrite not_elem_of_cons. destruct (decide (k = k')) as [->|Hne].
    + split; [done | by intros [? _]].
    + rewrite IH. tauto.
Qed.

Lemma get_is_Some k d : is_Some (get k d) ↔ k ∈ keys d.
Proof.
  destruct (get k d) eqn:E.
  - split; [intros _ | by eauto].
    destruct (decide (k ∈ keys d)) as [|Hn]; [done|].
    apply get_None in Hn. congruence.
  - split; [by intros [? ?]|]. apply get_None in E. done.
Qed.

Lemma keys_set_in k v d : k ∈ keys d → keys (set k v d) = keys d.
Proof.
  induction d as [|[k' v'] d IH]; simpl.
  - by intros ?%elem_of_nil.
  - intros Hin. destruct (decide (k = k')) as [->|Hne]; simpl; [done|].
    apply elem_of_cons in Hin as [?|Hin]; [done|]. by rewrite IH.
Qed.

Lemma keys_set_notin k v d : k ∉ keys d → keys (set k v d) = keys d ++ [k].
Proof.
  induction d as [|[k' v'] d IH]; simpl; [done|].
  rewrite not_elem_of_cons. intros [Hne Hnin].
  rewrite decide_False by done. simpl. by rewrite IH.
Qed.

Lemma keys_set_NoDup k v d : NoDup (keys d) → NoDup (keys (set k v d)).
Proof.
  intros Hnd. destruct (decide (k ∈ keys d)) as [Hin|Hnin].
  - by rewrite keys_set_in.
  - rewrite keys_set_notin by done. apply NoDup_app. split_and!; [done| |].
    + intros x Hx ->%list_elem_of_singleton. done.
    + apply NoDup_singleton.
Qed.

Lemma elem_of_keys_set k k' v d : k' ∈ keys (set k v d) ↔ k' = k ∨ k' ∈ keys d.
Proof.
  destruct (decide (k ∈ keys d)) as [Hin|Hnin].
  - rewrite keys_set_in by done. split; [by right | by intros [->|?]].
  - rewrite keys_set_notin by done. rewrite elem_of_app, list_elem_of_singleton. tauto.
Qed.

Lemma length_keys d : length (keys d) = length d.
Proof. apply length_map. Qed.

Lemma get_elem_of_keys k v d : get k d = Some v → k ∈ keys d.
Proof. intros Hk. apply get_is_Some. eauto. Qed.

Lemma set_get_id k v d : get k d = Some v → set k v d = d.
Proof.
  induction d as [|[k' v'] d IH]; simpl; [done|].
  destruct (decide (k = k')) as [->|Hne].
  - by intros [= ->].
  - intros Hk. by rewrite IH.
Qed.

End Facts.
End DictFacts.

(** ** The draws *)

Module RandomFacts.
Import Random.

Lemma randbelow_lt n rnd : (0 < n)%nat → ((randbelow n rnd).1 < n)%nat.
Proof.
  intros Hn. destruct rnd as [|r rnd]; simpl; [done|].
  apply Nat.mod_upper_bound. lia.
Qed.

Lemma swap_Permutation {A} (x : list A) i j : swap x i j ≡ₚ x.
Proof.
  unfold swap. destruct (x !! i) as [xi|] eqn:Hi; [|done].
  destruct (x !! j) as [xj|] eqn:Hj; [|done].
  by apply Permutation_insert_swap.
Qed.

Lemma shuffle_down_Permutation {A} i (x : list A) rnd :
  (shuffle_down i x rnd).1 ≡ₚ x.
Proof.
  revert x rnd. induction i as [|i IH]; intros x rnd; simpl; [done|].
  destruct (randbelow (S (S i)) rnd) as [j rnd'].
  rewrite IH. apply swap_Permutation.
Qed.

(** [random.shuffle] rearranges: it neither drops nor repeats an item. *)
Lemma shuffle_Permutation {A} (x : list A) rnd : (shuffle x rnd).1 ≡ₚ x.
Proof. apply shuffle_down_Permutation. Qed.

(** [random.choice] of a non-empty sequence returns one of its items. *)
Lemma choice_elem_of {A} (seq : list A) rnd :
  seq ≠ [] → ∃ x, choice seq rnd = Some x ∧ x ∈ seq.
Proof.
  intros Hne. unfold choice.
  assert (Hlt : ((randbelow (length seq) rnd).1 < length seq)%nat).
  { apply randbelow_lt. destruct seq; simpl; [done | lia]. }
  apply lookup_lt_is_Some in Hlt as [x Hx].
  exists x. split; [done|]. by eapply list_elem_of_lookup_2.
Qed.

End RandomFacts.

(** ** The rotation of [next_round] *)

Section Rotation.

Variable QUESTIONS : bank.

Lemma schedule_cons counts sid l :
  schedule counts (sid :: l) =
    replicate (Z.to_nat (2 - default 2 (counts !! sid))) sid ++ schedule counts l.
Proof. reflexivity. Qed.

Lemma schedule_insert_notin counts l sid c :
  sid ∉ l → schedule (<[sid := c]> counts) l = schedule counts l.
Proof.
  induction l as [|x l IH]; [done|].
  rewrite not_elem_of_cons. intros [Hne Hnin].
  rewrite !schedule_cons, IH by done.
  by rewrite lookup_insert_ne.
Qed.

Lemma schedule_length_fresh counts l :
  (∀ sid, sid ∈ l → counts !! sid = Some 0) →
  length (schedule counts l) = (2 * length l)%nat.
Proof.
  induction l as [|x l IH]; intros Hc; [done|].
  rewrite schedule_cons, length_app, length_replicate, IH.
  - rewrite (Hc x) by apply list_elem_of_here. simpl. lia.
  - intros sid Hin. apply Hc. by apply list_elem_of_further.
Qed.

Lemma end_game_returns rooms room g :
  rooms !! room = Some g →
  ∃ results winner,
    end_game rooms room = returned rooms [Emit (game_over results winner) (ToRoom room)].
Proof. intros Hg. unfold end_game. rewrite Hg. eauto. Qed.

(** Nobody in [l] is owed a pick: the loop falls through to [end_game]. *)
Lemma next_round_from_exhausted rooms room g rnd l :
  (∀ sid, sid ∈ l → is_Some (picker_counts g !! sid)) →
  schedule (picker_counts g) l = [] →
  next_round_from QUESTIONS rooms room g rnd l = end_game rooms room.
Proof.
  induction l as [|x l IH]; intros Hc Hs; [done|].
  rewrite schedule_cons in Hs. apply app_eq_nil in Hs as [Hx Hl].
  destruct (Hc x) as [c Hcx]; [apply list_elem_of_here|].
  simpl. rewrite Hcx in Hx |- *. simpl in Hx.
  destruct (Z.ltb_spec c 2) as [Hlt|Hge].
  - exfalso. assert (Z.to_nat (2 - c) = S (Z.to_nat (1 - c))) as Heq by lia.
    rewrite Heq in Hx. discriminate.
  - apply IH; [|done]. intros sid Hin. apply Hc. by apply list_elem_of_further.
Qed.

(** Somebody in [l] is owed a pick: the first such player becomes the
    picker, the round counter and that player's pick count go up by one,
    and one [round_start] goes to the room. *)
Lemma next_round_from_pick rooms room g rnd l s rest :
  NoDup l →
  (∀ sid, sid ∈ l →
     is_Some (picker_counts g !! sid) ∧ is_Some (Dict.get sid (players g))) →
  schedule (picker_counts g) l = s :: rest →
  ∃ g' c nm opts,
    next_round_from QUESTIONS rooms room g rnd l =
      returned (<[room := g']> rooms)
        [Emit (round_start (round g + 1) nm s opts) (ToRoom room)] ∧
    s ∈ l ∧ picker_counts g !! s = Some c ∧ c < 2 ∧
    picker_counts g' = <[s := c + 1]> (picker_counts g) ∧
    players g' = players g ∧ order g' = order g ∧
    round g' = round g + 1 ∧ phase g' = phase g ∧
    current_picker g' = Some s ∧
    schedule (picker_counts g') l = rest.
Proof.
  revert s rest. induction l as [|x l IH]; intros s rest Hnd Hc Hs; [done|].
  apply NoDup_cons in Hnd as [Hx Hnd].
  destruct (Hc x) as [[c Hcx] [p Hpx]]; [apply list_elem_of_here|].
  rewrite schedule_cons, Hcx in Hs. simpl in Hs.
  simpl. rewrite Hcx.
  destruct (Z.ltb_spec c 2) as [Hlt|Hge].
  - assert (Z.to_nat (2 - c) = S (Z.to_nat (2 - (c + 1)))) as Heq by lia.
    rewrite Heq in Hs. simpl in Hs. injection Hs as <- <-.
    simpl. rewrite Hpx.
    eexists _, c, _, _. split; [reflexivity|]. simpl.
    split_and!; try done; [apply list_elem_of_here|].
    rewrite lookup_insert_eq. simpl.
    by rewrite schedule_insert_notin.
  - assert (Z.to_nat (2 - c) = 0%nat) as Heq by lia.
    rewrite Heq in Hs. simpl in Hs.
    destruct (IH s rest) as (g' & c' & nm & opts & Hrun & Hin & Hcs & Hlt & Hcounts & Hrest);
      [done | | done |].
    { intros sid ?. apply Hc. by apply list_elem_of_further. }
    exists g', c', nm, opts. split; [done|].
    split; [by apply list_elem_of_further|].
    destruct Hrest as (Hp & Ho & Hr & Hph & Hcp & Hsch).
    split_and!; try done.
    rewrite Hsch, Hcounts, lookup_insert_ne, Hcx by (intros ->; done).
    simpl. by rewrite Heq.
Qed.

Lemma rotation_ready_after_pick g g' s c :
  rotation_ready g →
  picker_counts g' = <[s := c]> (picker_counts g) →
  players g' = players g → order g' = order g →
  rotation_ready g'.
Proof.
  intros [Hnd Hin] Hc Hp Ho. split; rewrite Ho; [done|].
  intros sid Hsid. destruct (Hin sid Hsid) as [Hcs Hps].
  rewrite Hc, Hp. split; [|done].
  destruct (decide (s = sid)) as [->|Hne].
  - rewrite lookup_insert_eq. eauto.
  - by rewrite lookup_insert_ne.
Qed.

(** Any number of transitions in a row: the owed picks first, in schedule
    order, and [game_over] at every transition after the last pick. *)
Lemma transitions_milestones room rnds : ∀ rooms g,
  rooms !! room = Some g →
  rotation_ready g →
  let sch := schedule (picker_counts g) (order g) in
  let r := transitions QUESTIONS rooms room rnds in
  ∃ g',
    r.1 !! room = Some g' ∧
    rotation_ready g' ∧
    milestones r.2 =
      (Round <$> take (length rnds) sch) ++
      replicate (length rnds - length sch) GameOver ∧
    schedule (picker_counts g') (order g') = drop (length rnds) sch ∧
    round g' = round g + Z.of_nat (length rnds `min` length sch) ∧
    players g' = players g ∧ order g' = order g.
Proof.
  induction rnds as [|rnd rnds IH]; intros rooms g Hg Hready sch r.
  - exists g. subst r sch. simpl. split_and!; try done. lia.
  - subst r. simpl.
    assert (next_round QUESTIONS rooms room rnd =
            next_round_from QUESTIONS rooms room g rnd (order g)) as ->.
    { unfold next_round. by rewrite Hg. }
    destruct sch as [|s rest] eqn:Hsch; subst sch.
    + rewrite next_round_from_exhausted; [| |done].
      2:{ intros sid Hin. by apply Hready. }
      destruct (end_game_returns rooms room g Hg) as (results & winner & ->).
      simpl. destruct (IH rooms g Hg Hready) as (g' & Hg' & Hr' & Hm & Hs & Hround & Hp & Ho).
      destruct (transitions QUESTIONS rooms room rnds) as [rooms' out].
      simpl in *. exists g'. rewrite Hsch in *. simpl in *.
      rewrite Nat.sub_0_r, take_nil in Hm. simpl in Hm. rewrite Hm.
      rewrite drop_nil in Hs. rewrite Nat.min_0_r in Hround. done.
    + destruct Hready as [Hnd Hin].
      destruct (next_round_from_pick rooms room g rnd (order g) s rest Hnd Hin Hsch)
        as (g1 & c & nm & opts & -> & Hs & Hc & Hlt & Hcounts & Hp1 & Ho1 & Hr1 & _ & _ & Hsch1).
      simpl.
      assert (Hready1 : rotation_ready g1).
      { by eapply (rotation_ready_after_pick g g1). }
      destruct (IH (<[room := g1]> rooms) g1 (lookup_insert_eq _ _ _) Hready1)
        as (g' & Hg' & Hr' & Hm & Hs' & Hround & Hp & Ho).
      destruct (transitions QUESTIONS (<[room := g1]> rooms) room rnds) as [rooms' out].
      simpl in *. exists g'. rewrite Ho1, Hsch1 in *.
      rewrite Hm, Hs', Hround, Hp, Ho, Hr1, Hp1. split_and!; try done. lia.
Qed.

(** [start_game] is the shuffle followed by the first transition. *)
Lemma start_game_unfold rooms room g rnd :
  rooms !! room = Some g →
  ∃ g0,
    start_game QUESTIONS rooms room rnd =
      next_round QUESTIONS (<[room := g0]> rooms) room
        (Random.shuffle (Dict.keys (players g)) rnd).2 ∧
    order g0 = (Random.shuffle (Dict.keys (players g)) rnd).1 ∧
    players g0 = players g ∧ picker_counts g0 = picker_counts g ∧
    round g0 = round g ∧ phase g0 = phase g.
Proof.
  intros Hg. unfold start_game. rewrite Hg.
  destruct (Random.shuffle (Dict.keys (players g)) rnd) as [shuffled rnd'].
  eexists. split; [reflexivity|]. done.
Qed.

(** After the shuffle of a fresh roster the rotation can run. *)
Lemma fresh_roster_ready g g0 :
  fresh_roster g →
  order g0 ≡ₚ Dict.keys (players g) →
  players g0 = players g → picker_counts g0 = picker_counts g →
  rotation_ready g0 ∧
  ∀ sid, sid ∈ order g0 → picker_counts g0 !! sid = Some 0.
Proof.
  intros [Hnd Hzero] Hperm Hp Hc.
  assert (Hcount : ∀ sid, sid ∈ order g0 → picker_counts g0 !! sid = Some 0).
  { intros sid Hin. rewrite Hc. apply Hzero. by rewrite <- Hperm. }
  split; [|done]. split.
  - by rewrite Hperm.
  - intros sid Hin. split; [rewrite Hcount; eauto|].
    rewrite Hp. apply DictFacts.get_is_Some. by rewrite <- Hperm.
Qed.

(** The whole game from [start_game] on, as one run of transitions. *)
Lemma start_then_transitions rooms room g rnd rnds :
  rooms !! room = Some g →
  fresh_roster g →
  let o := start_game QUESTIONS rooms room rnd in
  let r := transitions QUESTIONS (o_rooms o) room rnds in
  ∃ g0 g',
    order g0 = (Random.shuffle (Dict.keys (players g)) rnd).1 ∧
    (∀ sid, sid ∈ order g0 → picker_counts g0 !! sid = Some 0) ∧
    r.1 !! room = Some g' ∧
    milestones (o_emits o ++ r.2) =
      (Round <$> take (S (length rnds)) (schedule (picker_counts g0) (order g0))) ++
      replicate (S (length rnds) - 2 * length (players g)) GameOver ∧
    round g' = round g + Z.of_nat (S (length rnds) `min` (2 * length (players g))) ∧
    players g' = players g.
Proof.
  intros Hg Hfresh o r.
  destruct (start_game_unfold rooms room g rnd Hg)
    as (g0 & Hstart & Ho0 & Hp0 & Hc0 & Hr0 & _).
  assert (Hperm : order g0 ≡ₚ Dict.keys (players g)).
  { rewrite Ho0. apply RandomFacts.shuffle_Permutation. }
  destruct (fresh_roster_ready g g0 Hfresh Hperm Hp0 Hc0) as [Hready Hzero].
  pose proof (transitions_milestones room
    ((Random.shuffle (Dict.keys (players g)) rnd).2 :: rnds)
    (<[room := g0]> rooms) g0 (lookup_insert_eq _ _ _) Hready) as Hrun.
  simpl in Hrun. rewrite <- Hstart in Hrun. fold o in Hrun.
  destruct Hrun as (g' & Hg' & _ & Hm & _ & Hround & Hp & _).
  subst r. destruct (transitions QUESTIONS (o_rooms o) room rnds) as [rooms' out].
  simpl in *. exists g0, g'.
  assert (Hlen : length (schedule (picker_counts g0) (order g0)) =
                 (2 * length (players g))%nat).
  { rewrite schedule_length_fresh by done.
    by rewrite Hperm, DictFacts.length_keys. }
  rewrite Hlen in Hm, Hround. rewrite Hr0, Hp0 in *.
  split_and!; done.
Qed.

End Rotation.

(** ** The lobby *)

Section Lobby.

Variable QUESTIONS : bank.

Lemma serve_cons_rooms rooms r rs :
  (serve QUESTIONS rooms (r :: rs)).1 =
    (serve QUESTIONS (o_rooms (handle QUESTIONS rooms r)) rs).1.
Proof.
  simpl. by destruct (serve QUESTIONS (o_rooms (handle QUESTIONS rooms r)) rs).
Qed.

Lemma serve_cons_emits rooms r rs :
  (serve QUESTIONS rooms (r :: rs)).2 =
    o_emits (handle QUESTIONS rooms r) ++
    (serve QUESTIONS (o_rooms (handle QUESTIONS rooms r)) rs).2.
Proof.
  simpl. by destruct (serve QUESTIONS (o_rooms (handle QUESTIONS rooms r)) rs).
Qed.

(** [join] on an existing room, whatever the state of its session. *)
Lemma join_returns rooms room g sid nm :
  rooms !! room = Some g →
  ∃ g',
    join rooms sid room nm =
      returned (<[room := g']> rooms)
        [Emit (joined room sid) (ToSid sid);
         Emit (player_list (map name (Dict.values (players g')))) (ToRoom room)] ∧
    players g' = Dict.set sid (Player nm 0) (players g) ∧
    picker_counts g' = <[sid := 0]> (picker_counts g) ∧
    order g' = order g ∧ round g' = round g ∧ phase g' = phase g ∧
    current_picker g' = current_picker g ∧ category g' = category g ∧
    questions g' = questions g ∧ answers g' = answers g.
Proof. intros Hg. unfold join. rewrite Hg. eexists. split; [reflexivity|]. done. Qed.




End Lobby.

(** ** Claims on the rotation *)

(** C1, as the code has it: with three players and the order [b, a, c] fixed
    by the shuffle of [start_game], [next_round] takes the first player of
    the order who has picked fewer than two times, so the pickers of the
    rounds are b, b, a, a, c, c; the transition after the sixth round is
    game over. *)
Theorem c1_rotation_first_eligible (QUESTIONS : bank) rooms room g b a c rnd rnds :
  rooms !! room = Some g →
  fresh_roster g →
  (Random.shuffle (Dict.keys (players g)) rnd).1 = [b; a; c] →
  length rnds = 6%nat →
  let o := start_game QUESTIONS rooms room rnd in
  let r := transitions QUESTIONS (o_rooms o) room rnds in
  milestones (o_emits o ++ r.2) =
    [Round b; Round b; Round a; Round a; Round c; Round c; GameOver].
Proof.
  intros Hg Hfresh Hshuffle Hlen o r.
  destruct (start_then_transitions QUESTIONS rooms room g rnd rnds Hg Hfresh)
    as (g0 & g' & Ho0 & Hzero & _ & Hm & _).
  fold o r in Hm. rewrite Hm, Ho0, Hshuffle, Hlen.
  assert (Hn : length (players g) = 3%nat).
  { rewrite <- DictFacts.length_keys,
      <- (RandomFacts.shuffle_Permutation (Dict.keys (players g)) rnd), Hshuffle.
    done. }
  rewrite Hn. rewrite Ho0, Hshuffle in Hzero.
  unfold schedule. simpl.
  rewrite !Hzero by (repeat first [apply list_elem_of_here | apply list_elem_of_further]).
  reflexivity.
Qed.

(** ** What every handler leaves alone *)

Section Frame.

Variable QUESTIONS : bank.

Lemma all_lobby_insert rooms room g :
  all_lobby rooms → phase g = "lobby" → all_lobby (<[room := g]> rooms).
Proof. intros Hall Hg. by apply map_Forall_insert_2. Qed.

Lemma all_lobby_lookup rooms room g :
  all_lobby rooms → rooms !! room = Some g → phase g = "lobby".
Proof. intros Hall Hg. by apply (Hall room g). Qed.

Lemma end_game_rooms rooms room : o_rooms (end_game rooms room) = rooms.
Proof. unfold end_game. by destruct (rooms !! room). Qed.

Lemma end_game_emits rooms room e :
  e ∈ o_emits (end_game rooms room) → is_transition_emit room e.
Proof.
  unfold end_game. destruct (rooms !! room); simpl.
  - by intros ->%list_elem_of_singleton.
  - by intros ?%elem_of_nil.
Qed.

Lemma next_round_from_phase rooms room g rnd l :
  all_lobby rooms → phase g = "lobby" →
  all_lobby (o_rooms (next_round_from QUESTIONS rooms room g rnd l)).
Proof.
  intros Hall Hg. induction l as [|sid l IH]; simpl.
  - by rewrite end_game_rooms.
  - destruct (picker_counts g !! sid) as [c|]; [|done].
    destruct (c <? 2); [|done].
    cbn [players]. destruct (Dict.get sid (players g)); by apply all_lobby_insert.
Qed.

Lemma next_round_from_emits rooms room g rnd l e :
  e ∈ o_emits (next_round_from QUESTIONS rooms room g rnd l) →
  is_transition_emit room e.
Proof.
  induction l as [|sid l IH]; simpl.
  - apply end_game_emits.
  - destruct (picker_counts g !! sid) as [c|]; [|by intros ?%elem_of_nil].
    destruct (c <? 2); [|done].
    cbn [players]. destruct (Dict.get sid (players g)); simpl.
    + by intros ->%list_elem_of_singleton.
    + by intros ?%elem_of_nil.
Qed.

Lemma next_round_phase rooms room rnd :
  all_lobby rooms → all_lobby (o_rooms (next_round QUESTIONS rooms room rnd)).
Proof.
  intros Hall. unfold next_round. destruct (rooms !! room) as [g|] eqn:Hg; [|done].
  apply next_round_from_phase; [done|]. by apply (Hall room).
Qed.

Lemma next_round_emits rooms room rnd e :
  e ∈ o_emits (next_round QUESTIONS rooms room rnd) → is_transition_emit room e.
Proof.
  unfold next_round. destruct (rooms !! room) as [g|].
  - apply next_round_from_emits.
  - by intros ?%elem_of_nil.
Qed.

(** No handler writes [phase]: a registry of lobby sessions stays one. *)
Lemma handle_phase rooms r :
  all_lobby rooms → all_lobby (o_rooms (handle QUESTIONS rooms r)).
Proof.
  intros Hall. destruct r as [sid [uuid|room nm|room rnd|room cat|room d rnd|room ans rnd]];
    unfold handle; simpl.
  - by apply all_lobby_insert.
  - unfold join. destruct (rooms !! room) as [g|] eqn:Hg; simpl; [|done].
    apply all_lobby_insert; [done|]. simpl. by eapply all_lobby_lookup.
  - unfold start_game. destruct (rooms !! room) as [g|] eqn:Hg; simpl; [|done].
    destruct (Random.shuffle _ _) as [shuffled rnd'].
    apply next_round_phase, all_lobby_insert; [done|]. simpl. by eapply all_lobby_lookup.
  - unfold choose. destruct (rooms !! room) as [g|] eqn:Hg; simpl; [|done].
    pose proof (all_lobby_lookup rooms room g Hall Hg) as Hph.
    repeat case_match; simpl; try done. by apply all_lobby_insert.
  - unfold pick_diff. destruct (rooms !! room) as [g|] eqn:Hg; simpl; [|done].
    pose proof (all_lobby_lookup rooms room g Hall Hg) as Hph.
    repeat case_match; simpl; try done; by apply all_lobby_insert.
  - unfold receive_answer. destruct (rooms !! room) as [g|] eqn:Hg; simpl; [|done].
    pose proof (all_lobby_lookup rooms room g Hall Hg) as Hph.
    unfold feedback_and_barrier.
    repeat case_match; simpl; try done;
      first [ by apply all_lobby_insert
            | apply next_round_phase; by apply all_lobby_insert ].
Qed.

Lemma serve_phase rs : ∀ rooms,
  all_lobby rooms → all_lobby (serve QUESTIONS rooms rs).1.
Proof.
  induction rs as [|r rs IH]; intros rooms Hall; [done|].
  rewrite serve_cons_rooms. by apply IH, handle_phase.
Qed.


End Frame.

(** ** Recording an answer *)

Section Answers.

Variable QUESTIONS : bank.

Lemma forallb_has_answered g l :
  forallb (has_answered g) l = true ↔
  ∀ psid, psid ∈ l → ∃ v, answers g !! psid = Some (Some v).
Proof.
  induction l as [|x l IH]; simpl.
  - split; [|done]. by intros _ psid ?%elem_of_nil.
  - rewrite andb_true_iff, IH. unfold has_answered. split.
    + intros [Hx Hl] psid [->|Hin]%elem_of_cons; [|by apply Hl].
      destruct (answers g !! x) as [[v|]|]; [by eauto | done | done].
    + intros Hall. split.
      * destruct (Hall x) as [v ->]; [apply list_elem_of_here | done].
      * intros psid Hin. apply Hall. by apply list_elem_of_further.
Qed.

Lemma barrier_all_answered g :
  forallb (has_answered g) (Dict.keys (players g)) = true ↔ all_answered g.
Proof. apply forallb_has_answered. Qed.

(** The two ways out of [receive_answer]: the barrier holds and the round
    transition runs after [round_end], or only the feedback is sent. *)
Lemma feedback_and_barrier_closed rooms sid room g is_correct correct_index rnd :
  all_answered g →
  feedback_and_barrier QUESTIONS rooms sid room g is_correct correct_index rnd =
    let n := next_round QUESTIONS (<[room := g]> rooms) room rnd in
    Outcome (o_rooms n)
      (Emit (answer_feedback is_correct correct_index) (ToSid sid)
         :: Emit round_end (ToRoom room) :: o_emits n)
      (o_raised n).
Proof.
  intros Hall%barrier_all_answered. unfold feedback_and_barrier. by rewrite Hall.
Qed.

Lemma feedback_and_barrier_open rooms sid room g is_correct correct_index rnd :
  ¬ all_answered g →
  feedback_and_barrier QUESTIONS rooms sid room g is_correct correct_index rnd =
    returned (<[room := g]> rooms)
      [Emit (answer_feedback is_correct correct_index) (ToSid sid)].
Proof.
  intros Hopen. unfold feedback_and_barrier.
  destruct (forallb _ _) eqn:Hb; [|done].
  by apply barrier_all_answered in Hb.
Qed.

(** The first half of [receive_answer] for a joined player who holds a
    question: the answer is stored over whatever the slot held and the
    awarded points are added; nothing else changes before the barrier. *)
Lemma receive_answer_recorded rooms room g sid qu p answer rnd :
  rooms !! room = Some g →
  questions g !! sid = Some qu →
  Dict.get sid (players g) = Some p →
  ∃ g1,
    receive_answer QUESTIONS rooms sid room answer rnd =
      feedback_and_barrier QUESTIONS rooms sid room g1
        (bool_decide (answer = Some (correct qu))) (correct qu) rnd ∧
    answers g1 = <[sid := answer]> (answers g) ∧
    players g1 =
      Dict.set sid (Player (name p) (score p + awarded g sid qu answer)) (players g) ∧
    questions g1 = questions g ∧ difficulties g1 = difficulties g ∧
    order g1 = order g ∧ picker_counts g1 = picker_counts g ∧
    round g1 = round g ∧ category g1 = category g ∧
    current_picker g1 = current_picker g ∧
    category_options g1 = category_options g ∧ phase g1 = phase g.
Proof.
  intros Hg Hq Hp. unfold receive_answer, awarded. rewrite Hg, Hq. cbn [difficulties players].
  destruct (bool_decide (answer = Some (correct qu))) eqn:Hc.
  - destruct (difficulties g !! sid ≫= (λ d, Dict.get d POINTS)) as [points|] eqn:Hpts.
    + rewrite Hp. eexists. split; [reflexivity|]. done.
    + eexists. split; [reflexivity|]. simpl. split_and!; try done.
      rewrite Z.add_0_r. destruct p. by rewrite DictFacts.set_get_id.
  - eexists. split; [reflexivity|]. simpl. split_and!; try done.
    rewrite Z.add_0_r. destruct p. by rewrite DictFacts.set_get_id.
Qed.

Lemma not_all_answered g g' other :
  other ∈ Dict.keys (players g') →
  answers g' !! other = answers g !! other →
  has_answered g other = false →
  ¬ all_answered g'.
Proof.
  intros Hin Heq Hno Hall. destruct (Hall other Hin) as [v Hv].
  unfold has_answered in Hno. rewrite <- Heq, Hv in Hno. done.
Qed.

(** A submission while some other joined player has not answered: the
    handler returns after the feedback, with the answer stored and the
    awarded points added. *)
Lemma receive_answer_open rooms room g sid other qu p answer rnd :
  rooms !! room = Some g →
  questions g !! sid = Some qu →
  Dict.get sid (players g) = Some p →
  other ∈ Dict.keys (players g) → other ≠ sid → has_answered g other = false →
  ∃ g1,
    receive_answer QUESTIONS rooms sid room answer rnd =
      returned (<[room := g1]> rooms)
        [Emit (answer_feedback (bool_decide (answer = Some (correct qu))) (correct qu))
           (ToSid sid)] ∧
    answers g1 = <[sid := answer]> (answers g) ∧
    players g1 =
      Dict.set sid (Player (name p) (score p + awarded g sid qu answer)) (players g) ∧
    questions g1 = questions g ∧ difficulties g1 = difficulties g.
Proof.
  intros Hg Hq Hp Hother Hne Hno.
  destruct (receive_answer_recorded rooms room g sid qu p answer rnd Hg Hq Hp)
    as (g1 & -> & Ha & Hpl & Hqs & Hd & _).
  exists g1. split; [|done].
  apply feedback_and_barrier_open. apply (not_all_answered g g1 other); [| |done].
  - rewrite Hpl, DictFacts.keys_set_in; [done|]. by eapply DictFacts.get_elem_of_keys.
  - by rewrite Ha, lookup_insert_ne.
Qed.

End Answers.

(** ** Claims on the answers *)

(** C2, as the code has it: [receive_answer] has no guard on an answer
    already recorded.  While the round has not advanced (another joined
    player has not answered), a second submission from a player is handled
    like the first: it overwrites the stored answer and is scored again, so
    the player holds the points of both; two correct submissions at hard add
    100. *)
Theorem c2_duplicate_submission_rescored (QUESTIONS : bank)
    rooms room g sid other qu p answer1 answer2 rnd1 rnd2 :
  rooms !! room = Some g →
  questions g !! sid = Some qu →
  Dict.get sid (players g) = Some p →
  other ∈ Dict.keys (players g) → other ≠ sid → has_answered g other = false →
  let o1 := receive_answer QUESTIONS rooms sid room answer1 rnd1 in
  let o2 := receive_answer QUESTIONS (o_rooms o1) sid room answer2 rnd2 in
  ∃ g2,
    o_rooms o2 !! room = Some g2 ∧
    answers g2 !! sid = Some answer2 ∧
    Dict.get sid (players g2) =
      Some (Player (name p)
              (score p + awarded g sid qu answer1 + awarded g sid qu answer2)) ∧
    o_emits o2 =
      [Emit (answer_feedback (bool_decide (answer2 = Some (correct qu))) (correct qu))
         (ToSid sid)] ∧
    (difficulties g !! sid = Some "hard" →
     answer1 = Some (correct qu) → answer2 = Some (correct qu) →
     score_of (o_rooms o2) room sid = Some (score p + 100)).
Proof.
  intros Hg Hq Hp Hother Hne Hno o1 o2.
  destruct (receive_answer_open QUESTIONS rooms room g sid other qu p answer1 rnd1
              Hg Hq Hp Hother Hne Hno) as (g1 & Ho1 & Ha1 & Hp1 & Hq1 & Hd1).
  assert (Hg1 : o_rooms o1 !! room = Some g1).
  { subst o1. rewrite Ho1. apply lookup_insert_eq. }
  assert (Hp1' : Dict.get sid (players g1) =
                 Some (Player (name p) (score p + awarded g sid qu answer1))).
  { rewrite Hp1. apply DictFacts.get_set_eq. }
  assert (Hother1 : other ∈ Dict.keys (players g1)).
  { rewrite Hp1, DictFacts.keys_set_in; [done|]. by eapply DictFacts.get_elem_of_keys. }
  assert (Hno1 : has_answered g1 other = false).
  { unfold has_answered in *. by rewrite Ha1, lookup_insert_ne. }
  destruct (receive_answer_open QUESTIONS (o_rooms o1) room g1 sid other qu _ answer2 rnd2
              Hg1 ltac:(by rewrite Hq1) Hp1' Hother1 Hne Hno1)
    as (g2 & Ho2 & Ha2 & Hp2 & _ & _).
  assert (Haw : awarded g1 sid qu answer2 = awarded g sid qu answer2).
  { unfold awarded. by rewrite Hd1. }
  simpl in Hp2. rewrite Haw in Hp2.
  assert (Hscore : Dict.get sid (players g2) =
            Some (Player (name p)
                    (score p + awarded g sid qu answer1 + awarded g sid qu answer2))).
  { rewrite Hp2. apply DictFacts.get_set_eq. }
  exists g2. subst o2. rewrite Ho2. simpl. split_and!.
  - apply lookup_insert_eq.
  - rewrite Ha2. apply lookup_insert_eq.
  - done.
  - done.
  - intros Hhard -> ->. unfold score_of. rewrite lookup_insert_eq. simpl.
    rewrite Hscore. simpl. unfold awarded.
    rewrite bool_decide_eq_true_2 by done. rewrite Hhard. simpl. f_equal. lia.
Qed.

(** C5: when a joined player who holds a question submits, [round_end] is
    emitted exactly when, with that answer stored, every joined player has a
    non-empty answer slot; in that case the round transition runs after
    [round_end], and otherwise the handler returns after the feedback
    without any transition. *)
Theorem c5_round_end_iff_all_answered (QUESTIONS : bank)
    rooms room g sid qu answer rnd :
  rooms !! room = Some g →
  questions g !! sid = Some qu →
  sid ∈ Dict.keys (players g) →
  let o := receive_answer QUESTIONS rooms sid room answer rnd in
  let fb :=
    Emit (answer_feedback (bool_decide (answer = Some (correct qu))) (correct qu))
      (ToSid sid) in
  ∃ g1,
    answers g1 = <[sid := answer]> (answers g) ∧
    Dict.keys (players g1) = Dict.keys (players g) ∧
    (Emit round_end (ToRoom room) ∈ o_emits o ↔ all_answered g1) ∧
    (all_answered g1 →
       let n := next_round QUESTIONS (<[room := g1]> rooms) room rnd in
       o = Outcome (o_rooms n) (fb :: Emit round_end (ToRoom room) :: o_emits n)
             (o_raised n)) ∧
    (¬ all_answered g1 → o = returned (<[room := g1]> rooms) [fb]).
Proof.
  intros Hg Hq Hin o fb.
  destruct (proj2 (DictFacts.get_is_Some sid (players g)) Hin) as [p Hp].
  destruct (receive_answer_recorded QUESTIONS rooms room g sid qu p answer rnd Hg Hq Hp)
    as (g1 & Ho & Ha & Hpl & _).
  exists g1. split; [done|]. split.
  { by rewrite Hpl, DictFacts.keys_set_in. }
  destruct (forallb (has_answered g1) (Dict.keys (players g1))) eqn:Hb.
  - apply barrier_all_answered in Hb.
    assert (Hclosed := feedback_and_barrier_closed QUESTIONS rooms sid room g1
              (bool_decide (answer = Some (correct qu))) (correct qu) rnd Hb).
    subst o. rewrite Ho, Hclosed. simpl. split_and!; [|done|done].
    split; [done|]. intros _. apply list_elem_of_further, list_elem_of_here.
  - assert (Hopen : ¬ all_answered g1).
    { intros Hall%barrier_all_answered. congruence. }
    assert (Hret := feedback_and_barrier_open QUESTIONS rooms sid room g1
              (bool_decide (answer = Some (correct qu))) (correct qu) rnd Hopen).
    subst o. rewrite Ho, Hret. simpl. split_and!; [|done|done].
    split; [|done]. by intros [=]%list_elem_of_singleton.
Qed.

(** ** Category and difficulty *)

Section Picking.

Variable QUESTIONS : bank.

(** [choose] from the current picker, for an offered category of the bank. *)
Lemma choose_accepted rooms room g sid cat :
  rooms !! room = Some g →
  current_picker g = Some sid →
  cat ∈ category_options g →
  is_Some (Dict.get cat QUESTIONS) →
  ∃ g',
    choose QUESTIONS rooms sid room cat =
      returned (<[room := g']> rooms)
        [Emit (category_chosen cat (round g)) (ToRoom room)] ∧
    category g' = Some cat ∧ players g' = players g ∧ round g' = round g.
Proof.
  intros Hg Hpicker Hcat [levels Hlevels]. unfold choose. rewrite Hg, Hpicker, Hlevels.
  rewrite decide_False by (intros Hne; by apply Hne).
  rewrite decide_False by (intros Hnin; by apply Hnin).
  eexists. split; [reflexivity|]. done.
Qed.

(** [pick_diff] with a category chosen, a valid difficulty and a non-empty
    pool: a question of the pool is stored for the caller, the caller's
    answer slot is reset to "not yet answered", and the question goes to the
    caller alone. *)
Lemma pick_diff_accepted rooms room g sid cat difficulty levels pool rnd :
  rooms !! room = Some g →
  category g = Some cat →
  difficulty ∈ ["easy"; "medium"; "hard"] →
  Dict.get cat QUESTIONS = Some levels →
  Dict.get difficulty levels = Some pool →
  pool ≠ [] →
  ∃ g' qu,
    qu ∈ pool ∧
    pick_diff QUESTIONS rooms sid room difficulty rnd =
      returned (<[room := g']> rooms)
        [Emit (question_sent (q qu) (a qu) (round g)) (ToSid sid)] ∧
    questions g' = <[sid := qu]> (questions g) ∧
    answers g' = <[sid := None]> (answers g) ∧
    difficulties g' = <[sid := difficulty]> (difficulties g) ∧
    players g' = players g.
Proof.
  intros Hg Hcat Hd Hlevels Hpool Hne. unfold pick_diff. rewrite Hg, Hcat.
  rewrite decide_False by (intros Hnin; by apply Hnin).
  rewrite Hlevels, Hpool. simpl.
  destruct (RandomFacts.choice_elem_of pool rnd Hne) as (qu & Hchoice & Hin).
  destruct pool as [|q0 pool]; [done|]. rewrite Hchoice.
  eexists _, qu. split; [done|]. split; [reflexivity|]. done.
Qed.

(** [pick_diff] with a category chosen, a valid difficulty and an empty
    pool: the placeholder goes to the caller and only the declared
    difficulty is recorded. *)
Lemma pick_diff_placeholder rooms room g sid cat difficulty levels rnd :
  rooms !! room = Some g →
  category g = Some cat →
  difficulty ∈ ["easy"; "medium"; "hard"] →
  Dict.get cat QUESTIONS = Some levels →
  default [] (Dict.get difficulty levels) = [] →
  ∃ g',
    pick_diff QUESTIONS rooms sid room difficulty rnd =
      returned (<[room := g']> rooms)
        [Emit (question_sent "No questions available for this category/difficulty."
                 ["OK"; "OK"; "OK"; "OK"] (round g))
           (ToSid sid)] ∧
    difficulties g' = <[sid := difficulty]> (difficulties g) ∧
    questions g' = questions g ∧ answers g' = answers g ∧
    players g' = players g ∧ category g' = category g.
Proof.
  intros Hg Hcat Hd Hlevels Hpool. unfold pick_diff. rewrite Hg, Hcat.
  rewrite decide_False by (intros Hnin; by apply Hnin).
  rewrite Hlevels, Hpool. eexists. split; [reflexivity|]. done.
Qed.

(** A room is never removed by a round transition. *)
Lemma next_round_from_keeps_room rooms room g rnd l room' :
  is_Some (rooms !! room') →
  is_Some (o_rooms (next_round_from QUESTIONS rooms room g rnd l) !! room').
Proof.
  intros Hsome. induction l as [|sid l IH]; simpl.
  - by rewrite end_game_rooms.
  - destruct (picker_counts g !! sid) as [c|]; [|done].
    destruct (c <? 2); [|done].
    cbn [players]. destruct (Dict.get sid (players g)); simpl;
      by rewrite lookup_insert_is_Some'; right.
Qed.

Lemma start_game_keeps_room rooms room rnd room' :
  is_Some (rooms !! room') →
  is_Some (o_rooms (start_game QUESTIONS rooms room rnd) !! room').
Proof.
  intros Hsome. unfold start_game. destruct (rooms !! room) as [g|] eqn:Hg; [|done].
  destruct (Random.shuffle _ _) as [shuffled rnd'].
  unfold next_round. rewrite lookup_insert_eq.
  apply next_round_from_keeps_room. rewrite lookup_insert_is_Some'. by right.
Qed.

End Picking.

(** ** Claims on joining, questions and the end of the game *)

(** C6, as the code has it: with a category chosen, a valid difficulty and
    an empty pool, [pick_diff] sends the placeholder question to the caller
    alone and records the declared difficulty, and returns there: nothing is
    stored in the question map and the answer slot is not initialised, so a
    caller without a question from before still has none and a later
    [submit_answer] from that caller is a no-op. *)
Theorem c6_placeholder_not_stored (QUESTIONS : bank)
    rooms room g sid cat difficulty levels rnd :
  rooms !! room = Some g →
  category g = Some cat →
  difficulty ∈ ["easy"; "medium"; "hard"] →
  Dict.get cat QUESTIONS = Some levels →
  default [] (Dict.get difficulty levels) = [] →
  let o := pick_diff QUESTIONS rooms sid room difficulty rnd in
  ∃ g',
    o = returned (<[room := g']> rooms)
          [Emit (question_sent "No questions available for this category/difficulty."
                   ["OK"; "OK"; "OK"; "OK"] (round g))
             (ToSid sid)] ∧
    difficulties g' = <[sid := difficulty]> (difficulties g) ∧
    questions g' = questions g ∧
    answers g' = answers g ∧
    (questions g !! sid = None →
     ∀ answer rnd',
       receive_answer QUESTIONS (o_rooms o) sid room answer rnd' =
         returned (o_rooms o) []).
Proof.
  intros Hg Hcat Hd Hlevels Hpool o.
  destruct (pick_diff_placeholder QUESTIONS rooms room g sid cat difficulty levels rnd
              Hg Hcat Hd Hlevels Hpool) as (g' & Ho & Hdiff & Hq & Ha & _).
  exists g'. subst o. rewrite Ho. split_and!; try done.
  intros Hnone answer rnd'. simpl. unfold receive_answer.
  by rewrite lookup_insert_eq, Hq, Hnone.
Qed.

(** C9, as the code has it: [join] has no guard on the state of the
    session.  On an existing room it always stores the player with score 0
    and pick count 0, and so it does on a room whose game has started. *)
Theorem c9_join_any_time (QUESTIONS : bank) rooms room g sid nm rnd :
  rooms !! room = Some g →
  (∃ g',
     o_rooms (join rooms sid room nm) !! room = Some g' ∧
     Dict.get sid (players g') = Some (Player nm 0) ∧
     picker_counts g' !! sid = Some 0) ∧
  let started := o_rooms (start_game QUESTIONS rooms room rnd) in
  ∃ g',
    o_rooms (join started sid room nm) !! room = Some g' ∧
    Dict.get sid (players g') = Some (Player nm 0) ∧
    picker_counts g' !! sid = Some 0.
Proof.
  intros Hg.
  assert (Hany : ∀ rs g0, rs !! room = Some g0 →
            ∃ g', o_rooms (join rs sid room nm) !! room = Some g' ∧
                  Dict.get sid (players g') = Some (Player nm 0) ∧
                  picker_counts g' !! sid = Some 0).
  { intros rs g0 Hg0.
    destruct (join_returns rs room g0 sid nm Hg0) as (g' & -> & Hp & Hc & _).
    exists g'. simpl. rewrite lookup_insert_eq, Hp, Hc.
    by rewrite DictFacts.get_set_eq, lookup_insert_eq. }
  split; [by eapply Hany|].
  destruct (start_game_keeps_room QUESTIONS rooms room rnd room) as [g0 Hg0]; [by eauto|].
  by eapply Hany.
Qed.

(** ** The stable sort and the winner *)

Section SortedFacts.

Context {A : Type} (key : A → Z).

Lemma sorted_insert_Permutation x l : sorted_insert key x l ≡ₚ x :: l.
Proof.
  induction l as [|y l IH]; simpl; [done|].
  destruct (key x <=? key y); [done|].
  by rewrite IH, Permutation_swap.
Qed.

(** [sorted] rearranges its input. *)
Lemma sorted_Permutation l : sorted key l ≡ₚ l.
Proof.
  induction l as [|x l IH]; simpl; [done|].
  by rewrite sorted_insert_Permutation, IH.
Qed.

Lemma sorted_insert_head x l :
  head (sorted_insert key x l) =
    match head l with
    | Some y => if key x <=? key y then Some x else Some y
    | None => Some x
    end.
Proof.
  destruct l as [|y l]; simpl; [done|]. by destruct (key x <=? key y).
Qed.

(** The head of the sorted list is the first item of the input with the
    least key: strictly smaller than every item before it, not greater than
    any item after it. *)
Lemma sorted_head l :
  l ≠ [] →
  ∃ l1 r l2,
    l = l1 ++ r :: l2 ∧
    head (sorted key l) = Some r ∧
    Forall (λ x, key r < key x) l1 ∧
    Forall (λ x, key r ≤ key x) l2.
Proof.
  induction l as [|x l IH]; intros Hne; [done|].
  simpl. rewrite sorted_insert_head.
  destruct l as [|y l].
  - exists [], x, []. simpl. split_and!; done.
  - destruct IH as (l1 & r & l2 & Hl & Hhead & Hbefore & Hafter); [done|].
    rewrite Hhead. destruct (Z.leb_spec (key x) (key r)) as [Hle|Hgt].
    + exists [], x, (y :: l). split_and!; [done|done|done|].
      rewrite Hl. apply Forall_app. split.
      * eapply Forall_impl; [exact Hbefore|]. simpl. intros; lia.
      * constructor; [done|]. eapply Forall_impl; [exact Hafter|]. simpl. intros; lia.
    + exists (x :: l1), r, l2. rewrite Hl. split_and!; try done.
      constructor; [lia | done].
Qed.

End SortedFacts.

(** C7, as the code has it: [end_game] broadcasts [game_over] with the
    (name, score) pairs of all players in the iteration order of [players],
    not sorted; the winner is the first player in that order whose score is
    the greatest.  For an empty room the results are empty and the winner is
    "Ingen". *)
Theorem c7_game_over_results_unsorted rooms room g :
  rooms !! room = Some g →
  let results := map (λ p, (name p, score p)) (Dict.values (players g)) in
  ∃ winner,
    end_game rooms room =
      returned rooms [Emit (game_over results winner) (ToRoom room)] ∧
    (players g = [] → results = [] ∧ winner = "Ingen") ∧
    (players g ≠ [] →
     ∃ before top after,
       results = before ++ top :: after ∧
       winner = top.1 ∧
       Forall (λ r, r.2 < top.2) before ∧
       Forall (λ r, r.2 ≤ top.2) after).
Proof.
  intros Hg results. unfold end_game. rewrite Hg. fold results.
  eexists. split; [reflexivity|]. split.
  - intros Hempty. subst results. rewrite Hempty. done.
  - intros Hne.
    assert (Hres : results ≠ []).
    { subst results. destruct (players g); [done | discriminate]. }
    destruct (sorted_head (λ r : string * Z, - r.2) results Hres)
      as (before & top & after & Hsplit & Hhead & Hbefore & Hafter).
    exists before, top, after.
    destruct (sorted _ results) as [|r0 rest]; [done|].
    injection Hhead as ->. split_and!; [done|done| |].
    + eapply Forall_impl; [exact Hbefore|]. simpl. intros; lia.
    + eapply Forall_impl; [exact Hafter|]. simpl. intros; lia.
Qed.

(** ** After game over *)

Section Finished.

Variable QUESTIONS : bank.

Lemma schedule_nil counts l :
  (∀ sid, sid ∈ l → ∃ c, counts !! sid = Some c ∧ 2 ≤ c) →
  schedule counts l = [].
Proof.
  induction l as [|x l IH]; intros Hdone; [done|].
  rewrite schedule_cons, IH.
  - destruct (Hdone x) as (c & -> & Hc); [apply list_elem_of_here|]. simpl.
    by replace (Z.to_nat (2 - c)) with 0%nat by lia.
  - intros sid Hin. apply Hdone. by apply list_elem_of_further.
Qed.

(** Every player of the order has picked twice: the transition is
    [end_game], which broadcasts and changes nothing. *)
Lemma next_round_exhausted rooms room g rnd :
  rooms !! room = Some g →
  (∀ sid, sid ∈ order g → ∃ c, picker_counts g !! sid = Some c ∧ 2 ≤ c) →
  ∃ results winner,
    next_round QUESTIONS rooms room rnd =
      returned rooms [Emit (game_over results winner) (ToRoom room)].
Proof.
  intros Hg Hdone. unfold next_round. rewrite Hg.
  rewrite next_round_from_exhausted.
  - by apply end_game_returns with g.
  - intros sid Hin. destruct (Hdone sid Hin) as (c & -> & _). eauto.
  - by apply schedule_nil.
Qed.

End Finished.

(** C4, as the code has it: the session keeps no record of being finished.
    The transition to game over only broadcasts [game_over] and leaves the
    registry as it was, so the three operations run under the guards they
    have during a round: [choose] from the last picker for an offered
    category sets the category and broadcasts it, [pick_diff] with a
    category set stores and sends a question, and [receive_answer] from a
    player who still holds a question stores the answer, scores it and sends
    the feedback. *)
Theorem c4_no_finished_state (QUESTIONS : bank) rooms room g rnd :
  rooms !! room = Some g →
  (∀ sid, sid ∈ order g → ∃ c, picker_counts g !! sid = Some c ∧ 2 ≤ c) →
  let o := next_round QUESTIONS rooms room rnd in
  (∃ results winner,
     o = returned rooms [Emit (game_over results winner) (ToRoom room)]) ∧
  (∀ sid cat,
     current_picker g = Some sid →
     cat ∈ category_options g →
     is_Some (Dict.get cat QUESTIONS) →
     ∃ g',
       choose QUESTIONS (o_rooms o) sid room cat =
         returned (<[room := g']> rooms)
           [Emit (category_chosen cat (round g)) (ToRoom room)] ∧
       category g' = Some cat) ∧
  (∀ sid cat difficulty levels pool rnd',
     category g = Some cat →
     difficulty ∈ ["easy"; "medium"; "hard"] →
     Dict.get cat QUESTIONS = Some levels →
     Dict.get difficulty levels = Some pool →
     pool ≠ [] →
     ∃ g' qu,
       pick_diff QUESTIONS (o_rooms o) sid room difficulty rnd' =
         returned (<[room := g']> rooms)
           [Emit (question_sent (q qu) (a qu) (round g)) (ToSid sid)] ∧
       questions g' !! sid = Some qu ∧
       answers g' !! sid = Some None) ∧
  (∀ sid qu p answer rnd',
     questions g !! sid = Some qu →
     Dict.get sid (players g) = Some p →
     let o' := receive_answer QUESTIONS (o_rooms o) sid room answer rnd' in
     ∃ g',
       o_rooms o' !! room = Some g' ∧
       answers g' !! sid = Some answer ∧
       Dict.get sid (players g') =
         Some (Player (name p) (score p + awarded g sid qu answer)) ∧
       head (o_emits o') =
         Some (Emit (answer_feedback (bool_decide (answer = Some (correct qu)))
                       (correct qu))
                 (ToSid sid))).
Proof.
  intros Hg Hdone o.
  destruct (next_round_exhausted QUESTIONS rooms room g rnd Hg Hdone)
    as (results & winner & Ho).
  subst o. rewrite Ho. simpl. split_and!.
  - eauto.
  - intros sid cat Hpicker Hcat Hbank.
    destruct (choose_accepted QUESTIONS rooms room g sid cat Hg Hpicker Hcat Hbank)
      as (g' & -> & Hc & _). eauto.
  - intros sid cat difficulty levels pool rnd' Hcat Hd Hlevels Hpool Hne.
    destruct (pick_diff_accepted QUESTIONS rooms room g sid cat difficulty levels pool rnd'
                Hg Hcat Hd Hlevels Hpool Hne) as (g' & qu & _ & -> & Hq & Ha & _).
    exists g', qu. rewrite Hq, Ha, !lookup_insert_eq. done.
  - intros sid qu p answer rnd' Hq Hp.
    destruct (receive_answer_recorded QUESTIONS rooms room g sid qu p answer rnd' Hg Hq Hp)
      as (g1 & -> & Ha & Hpl & _ & _ & Hord & Hcounts & _).
    exists g1.
    assert (Hstate : answers g1 !! sid = Some answer ∧
              Dict.get sid (players g1) =
                Some (Player (name p) (score p + awarded g sid qu answer))).
    { rewrite Ha, Hpl, lookup_insert_eq, DictFacts.get_set_eq. done. }
    destruct (forallb (has_answered g1) (Dict.keys (players g1))) eqn:Hb.
    + apply barrier_all_answered in Hb.
      rewrite (feedback_and_barrier_closed QUESTIONS rooms sid room g1 _ _ rnd' Hb).
      destruct (next_round_exhausted QUESTIONS (<[room := g1]> rooms) room g1 rnd')
        as (results' & winner' & ->).
      { apply lookup_insert_eq. }
      { by rewrite Hord, Hcounts. }
      simpl. rewrite lookup_insert_eq. destruct Hstate. done.
    + rewrite feedback_and_barrier_open.
      * simpl. rewrite lookup_insert_eq. destruct Hstate. done.
      * intros Hall%barrier_all_answered. congruence.
Qed.

(** ** Claims on the notifications and the phase *)


(** C10: [init_game] sets [phase] to "lobby" and no handler assigns it, so
    every session of every registry the server can reach from the empty one
    has [phase] "lobby". *)
Theorem c10_phase_always_lobby (QUESTIONS : bank) rs room g :
  (serve QUESTIONS ∅ rs).1 !! room = Some g →
  phase g = "lobby".
Proof.
  intros Hg. eapply all_lobby_lookup; [|exact Hg].
  apply serve_phase. apply map_Forall_empty.
Qed.

(** * Further properties of the handlers *)

(** ** Well-formed sessions are kept *)

Section WellFormed.

Variable QUESTIONS : bank.

Lemma init_game_well_formed : well_formed QUESTIONS init_game.
Proof.
  split; simpl;
    first [ done | apply NoDup_nil_2 | by intros sid ?%elem_of_nil | by intros sid c ].
Qed.

Lemma all_well_formed_insert rooms room g :
  all_well_formed QUESTIONS rooms → well_formed QUESTIONS g →
  all_well_formed QUESTIONS (<[room := g]> rooms).
Proof. intros Hall Hg. by apply map_Forall_insert_2. Qed.

Lemma all_well_formed_lookup rooms room g :
  all_well_formed QUESTIONS rooms → rooms !! room = Some g → well_formed QUESTIONS g.
Proof. intros Hall Hg. by apply (Hall room g). Qed.

Lemma well_formed_rotation_ready g : well_formed QUESTIONS g → rotation_ready g.
Proof.
  intros Hwf. split; [apply Hwf|]. intros sid Hin.
  apply (wf_order _ _ Hwf) in Hin. split.
  - by apply (wf_counts _ _ Hwf).
  - by apply DictFacts.get_is_Some.
Qed.

Lemma join_well_formed g sid nm :
  well_formed QUESTIONS g →
  well_formed QUESTIONS {|
    players := Dict.set sid (Player nm 0) (players g);
    order := order g;
    round := round g;
    current_picker := current_picker g;
    picker_counts := <[sid := 0]> (picker_counts g);
    category := category g;
    category_options := category_options g;
    questions := questions g;
    answers := answers g;
    difficulties := difficulties g;
    phase := phase g
  |}.
Proof.
  intros Hwf. split; simpl; try apply Hwf.
  - apply DictFacts.keys_set_NoDup, Hwf.
  - intros x Hx. apply DictFacts.elem_of_keys_set. right. by apply Hwf.
  - intros x [->|Hx]%DictFacts.elem_of_keys_set.
    + rewrite lookup_insert_eq. eauto.
    + rewrite lookup_insert_is_Some'. right. by apply Hwf.
  - intros x c. destruct (decide (sid = x)) as [->|Hne].
    + rewrite lookup_insert_eq. intros [= <-]. lia.
    + rewrite lookup_insert_ne by done. apply Hwf.
Qed.

Lemma end_game_raised rooms room g :
  rooms !! room = Some g → o_raised (end_game rooms room) = None.
Proof. intros Hg. unfold end_game. by rewrite Hg. Qed.

(** The three ways out of the loop of [next_round]: nobody is owed a pick
    and [end_game] runs; a member of the order has no pick count and the
    lookup raises; or the first player with fewer than two picks gets the
    round, which raises after the mutation if that player has no record. *)
Lemma next_round_from_cases rooms room g rnd l :
  let o := next_round_from QUESTIONS rooms room g rnd l in
  (o = end_game rooms room ∧
   ∀ sid, sid ∈ l → ∃ c, picker_counts g !! sid = Some c ∧ 2 ≤ c) ∨
  (o = raised rooms [] KeyError ∧ ∃ sid, sid ∈ l ∧ picker_counts g !! sid = None) ∨
  (∃ sid c,
     sid ∈ l ∧ picker_counts g !! sid = Some c ∧ c < 2 ∧
     match Dict.get sid (players g) with
     | Some p =>
         o = returned (<[room := started QUESTIONS g sid c rnd]> rooms)
               [Emit (round_start (round g + 1) (name p) sid
                        (category_options (started QUESTIONS g sid c rnd)))
                  (ToRoom room)]
     | None => o = raised (<[room := started QUESTIONS g sid c rnd]> rooms) [] KeyError
     end).
Proof.
  induction l as [|x l IH]; simpl.
  - left. split; [done|]. by intros sid ?%elem_of_nil.
  - destruct (picker_counts g !! x) as [c|] eqn:Hc.
    + destruct (Z.ltb_spec c 2) as [Hlt|Hge].
      * right. right. exists x, c. split_and!; [apply list_elem_of_here|done|done|].
        cbn [players]. by destruct (Dict.get x (players g)).
      * destruct IH as [[Ho Hall]|[[Ho (sid & Hin & Hnone)]|(sid & c' & Hin & Hrest)]].
        -- left. split; [done|]. intros sid [->|Hin]%elem_of_cons; [eauto|by apply Hall].
        -- right. left. split; [done|]. exists sid. split; [by apply list_elem_of_further|done].
        -- right. right. exists sid, c'. split; [by apply list_elem_of_further|done].
    + right. left. split; [done|]. exists x. split; [apply list_elem_of_here|done].
Qed.

Lemma started_well_formed g sid c rnd :
  well_formed QUESTIONS g →
  picker_counts g !! sid = Some c → c < 2 →
  well_formed QUESTIONS (started QUESTIONS g sid c rnd).
Proof.
  intros Hwf Hc Hlt. split; simpl; try apply Hwf; try done.
  - intros x Hx. rewrite lookup_insert_is_Some'. right. by apply Hwf.
  - intros x c'. destruct (decide (sid = x)) as [->|Hne].
    + rewrite lookup_insert_eq. intros [= <-].
      pose proof (wf_range _ _ Hwf x c Hc). lia.
    + rewrite lookup_insert_ne by done. apply Hwf.
Qed.

(** The round transition on a well-formed session: it does not raise and
    leaves the registry well formed. *)
Lemma next_round_well_formed rooms room rnd g :
  all_well_formed QUESTIONS rooms →
  rooms !! room = Some g →
  let o := next_round QUESTIONS rooms room rnd in
  all_well_formed QUESTIONS (o_rooms o) ∧ o_raised o = None.
Proof.
  intros Hall Hg o. subst o.
  pose proof (all_well_formed_lookup rooms room g Hall Hg) as Hwf.
  destruct (well_formed_rotation_ready g Hwf) as [Hnd Hready].
  unfold next_round. rewrite Hg.
  destruct (next_round_from_cases rooms room g rnd (order g))
    as [[-> _]|[[_ (sid & Hin & Hnone)]|(sid & c & Hin & Hc & Hlt & Hrun)]].
  - rewrite end_game_rooms. split; [done|]. by eapply end_game_raised.
  - destruct (Hready sid Hin) as [[c Hc] _]. congruence.
  - destruct (Hready sid Hin) as [_ [p Hp]]. rewrite Hp in Hrun. rewrite Hrun.
    split; [|done]. simpl. apply all_well_formed_insert; [done|].
    by apply started_well_formed.
Qed.

(** The handlers, case by case, in terms of the sessions they leave. *)

Lemma start_game_cases rooms room rnd :
  start_game QUESTIONS rooms room rnd =
    match rooms !! room with
    | None => returned rooms []
    | Some g =>
        next_round QUESTIONS
          (<[room := ordered g (Random.shuffle (Dict.keys (players g)) rnd).1]> rooms)
          room (Random.shuffle (Dict.keys (players g)) rnd).2
    end.
Proof.
  unfold start_game. destruct (rooms !! room) as [g|]; [|done].
  by destruct (Random.shuffle (Dict.keys (players g)) rnd).
Qed.

Lemma choose_cases rooms sid room cat :
  choose QUESTIONS rooms sid room cat =
    match rooms !! room with
    | None => returned rooms []
    | Some g =>
        if decide (current_picker g = Some sid ∧ cat ∈ category_options g ∧
                   is_Some (Dict.get cat QUESTIONS))
        then returned (<[room := chosen g cat]> rooms)
               [Emit (category_chosen cat (round g)) (ToRoom room)]
        else returned rooms []
    end.
Proof.
  unfold choose. destruct (rooms !! room) as [g|]; [|done].
  destruct (decide (Some sid ≠ current_picker g)) as [Hne|Heq].
  { rewrite decide_False; [done|]. intros (Hp & _). by rewrite Hp in Hne. }
  destruct (decide (cat ∉ category_options g)) as [Hnin|Hin].
  { rewrite decide_False; [done|]. by intros (_ & Hin & _). }
  destruct (Dict.get cat QUESTIONS) as [levels|] eqn:Hlevels.
  - rewrite decide_True; [done|]. split_and!; [|by apply dec_stable|by eauto].
    symmetry. by apply dec_stable.
  - rewrite decide_False; [done|]. by intros (_ & _ & [? ?]).
Qed.

Lemma pick_diff_cases rooms sid room difficulty rnd :
  pick_diff QUESTIONS rooms sid room difficulty rnd =
    match rooms !! room with
    | None => returned rooms []
    | Some g =>
        match category g with
        | None => returned rooms []
        | Some cat =>
            if decide (difficulty ∈ ["easy"; "medium"; "hard"]) then
              match Dict.get cat QUESTIONS with
              | None => raised (<[room := declared g sid difficulty]> rooms) [] KeyError
              | Some levels =>
                  match Random.choice (default [] (Dict.get difficulty levels)) rnd with
                  | None =>
                      returned (<[room := declared g sid difficulty]> rooms)
                        [Emit (question_sent
                                 "No questions available for this category/difficulty."
                                 ["OK"; "OK"; "OK"; "OK"] (round g))
                           (ToSid sid)]
                  | Some qu =>
                      returned
                        (<[room := assigned (declared g sid difficulty) sid qu]> rooms)
                        [Emit (question_sent (q qu) (a qu) (round g)) (ToSid sid)]
                  end
              end
            else returned rooms []
        end
    end.
Proof.
  unfold pick_diff, assigned, declared. destruct (rooms !! room) as [g|]; [|done].
  destruct (category g) as [cat|]; [|done].
  destruct (decide (difficulty ∉ ["easy"; "medium"; "hard"])) as [Hnin|Hin].
  { by rewrite decide_False. }
  rewrite decide_True by (by apply dec_stable).
  destruct (Dict.get cat QUESTIONS) as [levels|]; [|done].
  destruct (default [] (Dict.get difficulty levels)) as [|q0 pool] eqn:Hpool; [done|].
  destruct (RandomFacts.choice_elem_of (q0 :: pool) rnd) as (qu & -> & _); done.
Qed.

Lemma receive_answer_cases rooms sid room answer rnd :
  receive_answer QUESTIONS rooms sid room answer rnd =
    match rooms !! room with
    | None => returned rooms []
    | Some g =>
        match questions g !! sid with
        | None => returned rooms []
        | Some qu =>
            let is_correct := bool_decide (answer = Some (correct qu)) in
            match points_for g sid qu answer with
            | Some points =>
                match Dict.get sid (players g) with
                | None => raised (<[room := recorded g sid answer]> rooms) [] KeyError
                | Some p =>
                    feedback_and_barrier QUESTIONS rooms sid room
                      (scored (recorded g sid answer) sid p points)
                      is_correct (correct qu) rnd
                end
            | None =>
                feedback_and_barrier QUESTIONS rooms sid room (recorded g sid answer)
                  is_correct (correct qu) rnd
            end
        end
    end.
Proof.
  unfold receive_answer, points_for. destruct (rooms !! room) as [g|]; [|done].
  destruct (questions g !! sid) as [qu|]; done.
Qed.

Lemma chosen_well_formed g cat :
  well_formed QUESTIONS g → is_Some (Dict.get cat QUESTIONS) →
  well_formed QUESTIONS (chosen g cat).
Proof.
  intros Hwf Hcat. split; simpl; try apply Hwf. by intros ? [= <-].
Qed.

Lemma ordered_well_formed g shuffled :
  well_formed QUESTIONS g → shuffled ≡ₚ Dict.keys (players g) →
  well_formed QUESTIONS (ordered g shuffled).
Proof.
  intros Hwf Hperm. split; simpl; try apply Hwf.
  - rewrite Hperm. apply Hwf.
  - intros sid Hin. by rewrite <- Hperm.
Qed.

Lemma declared_well_formed g sid difficulty :
  well_formed QUESTIONS g → well_formed QUESTIONS (declared g sid difficulty).
Proof.
  intros Hwf. split; simpl; try apply Hwf.
  rewrite dom_insert_L. pose proof (wf_difficulties _ _ Hwf). set_solver.
Qed.

Lemma assigned_well_formed g sid qu :
  well_formed QUESTIONS g → sid ∈ dom (difficulties g) →
  well_formed QUESTIONS (assigned g sid qu).
Proof.
  intros Hwf Hd. split; simpl; try apply Hwf.
  - rewrite !dom_insert_L. by rewrite (wf_answers _ _ Hwf).
  - rewrite dom_insert_L. pose proof (wf_difficulties _ _ Hwf). set_solver.
Qed.

Lemma recorded_well_formed g sid answer :
  well_formed QUESTIONS g → is_Some (questions g !! sid) →
  well_formed QUESTIONS (recorded g sid answer).
Proof.
  intros Hwf Hq%elem_of_dom. split; simpl; try apply Hwf.
  rewrite dom_insert_L, (wf_answers _ _ Hwf). set_solver.
Qed.

Lemma scored_well_formed g sid p points :
  well_formed QUESTIONS g → Dict.get sid (players g) = Some p →
  well_formed QUESTIONS (scored g sid p points).
Proof.
  intros Hwf Hp%DictFacts.get_elem_of_keys.
  split; simpl; rewrite ?DictFacts.keys_set_in by done; apply Hwf.
Qed.

Lemma feedback_and_barrier_well_formed rooms sid room g is_correct correct_index rnd :
  all_well_formed QUESTIONS rooms → well_formed QUESTIONS g →
  let o := feedback_and_barrier QUESTIONS rooms sid room g is_correct correct_index rnd in
  all_well_formed QUESTIONS (o_rooms o) ∧ o_raised o = None.
Proof.
  intros Hall Hwf o. subst o. unfold feedback_and_barrier.
  destruct (forallb _ _); simpl.
  - apply next_round_well_formed with g.
    + by apply all_well_formed_insert.
    + apply lookup_insert_eq.
  - split; [|done]. by apply all_well_formed_insert.
Qed.

(** Every handler keeps the registry well formed, whether it returns or
    raises; and on a well-formed registry the only exception is the
    [KeyError] of [receive_answer] when it is about to score a sender who
    holds a question but is not a player of the room. *)
Lemma handle_well_formed rooms r :
  all_well_formed QUESTIONS rooms →
  let o := handle QUESTIONS rooms r in
  all_well_formed QUESTIONS (o_rooms o) ∧
  (∀ e, o_raised o = Some e →
     e = KeyError ∧
     ∃ room answer rnd g qu,
       r.2 = On_submit_answer room answer rnd ∧
       rooms !! room = Some g ∧
       questions g !! r.1 = Some qu ∧
       is_Some (points_for g r.1 qu answer) ∧
       r.1 ∉ Dict.keys (players g)).
Proof.
  intros Hall o. subst o.
  destruct r as [sid [uuid|room nm|room rnd|room cat|room d rnd|room ans rnd]];
    unfold handle; cbn [fst snd].
  - split; [|done]. apply all_well_formed_insert; [done|]. apply init_game_well_formed.
  - unfold join. destruct (rooms !! room) as [g|] eqn:Hg; simpl; [|done].
    split; [|done]. apply all_well_formed_insert; [done|].
    apply join_well_formed. by eapply all_well_formed_lookup.
  - rewrite start_game_cases. destruct (rooms !! room) as [g|] eqn:Hg; [|done].
    destruct (next_round_well_formed
                (<[room := ordered g (Random.shuffle (Dict.keys (players g)) rnd).1]> rooms)
                room (Random.shuffle (Dict.keys (players g)) rnd).2
                (ordered g (Random.shuffle (Dict.keys (players g)) rnd).1))
      as [Hwf Hraised].
    + apply all_well_formed_insert; [done|]. apply ordered_well_formed.
      * by eapply all_well_formed_lookup.
      * apply RandomFacts.shuffle_Permutation.
    + apply lookup_insert_eq.
    + split; [done|]. intros e. rewrite Hraised. done.
  - rewrite choose_cases. destruct (rooms !! room) as [g|] eqn:Hg; [|done].
    destruct (decide _) as [(_ & _ & Hcat)|]; [|done].
    split; [|done]. apply all_well_formed_insert; [done|].
    apply chosen_well_formed; [|done]. by eapply all_well_formed_lookup.
  - rewrite pick_diff_cases. destruct (rooms !! room) as [g|] eqn:Hg; [|done].
    pose proof (all_well_formed_lookup rooms room g Hall Hg) as Hwf.
    destruct (category g) as [cat|] eqn:Hcat; [|done].
    destruct (decide _); [|done].
    destruct (wf_category _ _ Hwf cat Hcat) as [levels ->].
    destruct (Random.choice _ _) as [qu|]; simpl.
    + split; [|done]. apply all_well_formed_insert; [done|].
      apply assigned_well_formed; [by apply declared_well_formed|].
      simpl. rewrite dom_insert_L. set_solver.
    + split; [|done]. apply all_well_formed_insert; [done|].
      by apply declared_well_formed.
  - rewrite receive_answer_cases. destruct (rooms !! room) as [g|] eqn:Hg; [|done].
    pose proof (all_well_formed_lookup rooms room g Hall Hg) as Hwf.
    destruct (questions g !! sid) as [qu|] eqn:Hq; [|done].
    assert (Hrec : well_formed QUESTIONS (recorded g sid ans)).
    { apply recorded_well_formed; [done|]. eauto. }
    cbv zeta. destruct (points_for g sid qu ans) as [points|] eqn:Hpoints.
    + destruct (Dict.get sid (players g)) as [p|] eqn:Hp.
      * destruct (feedback_and_barrier_well_formed rooms sid room
                    (scored (recorded g sid ans) sid p points)
                    (bool_decide (ans = Some (correct qu))) (correct qu) rnd Hall)
          as [Hwf' Hraised].
        { by apply scored_well_formed. }
        split; [done|]. intros e. by rewrite Hraised.
      * simpl. split; [by apply all_well_formed_insert|].
        intros e [= <-]. split; [done|].
        exists room, ans, rnd, g, qu. split_and!; try done.
        by apply DictFacts.get_None.
    + destruct (feedback_and_barrier_well_formed rooms sid room (recorded g sid ans)
                  (bool_decide (ans = Some (correct qu))) (correct qu) rnd Hall Hrec)
        as [Hwf' Hraised].
      split; [done|]. intros e. by rewrite Hraised.
Qed.

Lemma serve_well_formed rs : ∀ rooms,
  all_well_formed QUESTIONS rooms →
  all_well_formed QUESTIONS (serve QUESTIONS rooms rs).1.
Proof.
  induction rs as [|r rs IH]; intros rooms Hall; [done|].
  rewrite serve_cons_rooms. apply IH. by apply handle_well_formed.
Qed.

End WellFormed.

(** ** Invariants of the reachable sessions *)

Lemma reachable_well_formed (QUESTIONS : bank) rs room g :
  (serve QUESTIONS ∅ rs).1 !! room = Some g → well_formed QUESTIONS g.
Proof.
  intros Hg. eapply all_well_formed_lookup; [|exact Hg].
  apply serve_well_formed. apply map_Forall_empty.
Qed.

(** In every session the server can reach, a pick count is 0, 1 or 2: [join]
    sets it to 0 and [next_round] adds one only below 2. *)
Theorem reachable_pick_counts_bounded (QUESTIONS : bank) rs room g sid c :
  (serve QUESTIONS ∅ rs).1 !! room = Some g →
  picker_counts g !! sid = Some c →
  0 ≤ c ≤ 2.
Proof.
  intros Hg Hc. by apply (wf_range _ _ (reachable_well_formed QUESTIONS rs room g Hg) sid).
Qed.

(** In every session the server can reach, the order lists players of the
    room without repetition, each with a pick count and a record, so the
    lookups of [next_round] cannot fail. *)
Theorem reachable_order_of_players (QUESTIONS : bank) rs room g :
  (serve QUESTIONS ∅ rs).1 !! room = Some g →
  NoDup (order g) ∧
  ∀ sid, sid ∈ order g →
    is_Some (Dict.get sid (players g)) ∧ is_Some (picker_counts g !! sid).
Proof.
  intros Hg. pose proof (reachable_well_formed QUESTIONS rs room g Hg) as Hwf.
  split; [apply Hwf|]. intros sid Hin%(wf_order _ _ Hwf). split.
  - by apply DictFacts.get_is_Some.
  - by apply (wf_counts _ _ Hwf).
Qed.

(** In every session the server can reach, an answer slot exists exactly for
    the players who hold a question this round, and each of them has a
    declared difficulty. *)
Theorem reachable_round_maps_aligned (QUESTIONS : bank) rs room g sid :
  (serve QUESTIONS ∅ rs).1 !! room = Some g →
  (is_Some (answers g !! sid) ↔ is_Some (questions g !! sid)) ∧
  (is_Some (questions g !! sid) → is_Some (difficulties g !! sid)).
Proof.
  intros Hg. pose proof (reachable_well_formed QUESTIONS rs room g Hg) as Hwf.
  rewrite <- !elem_of_dom. rewrite (wf_answers _ _ Hwf). split; [done|].
  intros Hq. by apply (wf_difficulties _ _ Hwf).
Qed.

(** In every session the server can reach, the chosen category is a
    category of the bank, so [QUESTIONS[g["category"]]] in [pick_diff]
    cannot fail. *)
Theorem reachable_category_in_bank (QUESTIONS : bank) rs room g cat :
  (serve QUESTIONS ∅ rs).1 !! room = Some g →
  category g = Some cat →
  is_Some (Dict.get cat QUESTIONS).
Proof.
  intros Hg Hcat. by apply (wf_category _ _ (reachable_well_formed QUESTIONS rs room g Hg)).
Qed.

(** ** The handlers one by one *)

Section Handlers.

Variable QUESTIONS : bank.

(** The session a round transition leaves: the one it found, or the one of
    a round started for a member of the order with fewer than two picks. *)
Lemma next_round_session rooms room rnd g :
  rooms !! room = Some g →
  let o := next_round QUESTIONS rooms room rnd in
  (o_rooms o = rooms ∧ ∀ e, e ∈ o_emits o → is_round_start e = false) ∨
  (∃ sid c,
     sid ∈ order g ∧ picker_counts g !! sid = Some c ∧ c < 2 ∧
     o_rooms o = <[room := started QUESTIONS g sid c rnd]> rooms ∧
     ∀ e, e ∈ o_emits o →
       ∃ p, Dict.get sid (players g) = Some p ∧
            e = Emit (round_start (round g + 1) (name p) sid
                        (category_options (started QUESTIONS g sid c rnd)))
                  (ToRoom room)).
Proof.
  intros Hg o. subst o. unfold next_round. rewrite Hg.
  destruct (next_round_from_cases QUESTIONS rooms room g rnd (order g))
    as [[-> _]|[[-> _]|(sid & c & Hin & Hc & Hlt & Hrun)]].
  - left. rewrite end_game_rooms. split; [done|].
    unfold end_game. rewrite Hg. simpl. by intros e ->%list_elem_of_singleton.
  - left. split; [done|]. by intros e ?%elem_of_nil.
  - right. exists sid, c. split_and!; try done.
    + destruct (Dict.get sid (players g)); by rewrite Hrun.
    + destruct (Dict.get sid (players g)) as [p|]; rewrite Hrun; simpl.
      * intros e ->%list_elem_of_singleton. eauto.
      * by intros e ?%elem_of_nil.
Qed.

(** A typed request for a room the registry does not have: [join] answers
    the sender with its error, the other handlers emit nothing; the registry
    stays as it is. *)
Lemma handle_unknown_room rooms r room :
  room_of r = Some room →
  rooms !! room = None →
  let o := handle QUESTIONS rooms r in
  o_rooms o = rooms ∧ o_raised o = None ∧
  o_emits o =
    match r.2 with
    | On_join_room _ _ => [Emit (joined_error "Room not found") (ToSid r.1)]
    | _ => []
    end.
Proof.
  intros Hroom Hnone.
  destruct r as [sid [uuid|room' nm|room' rnd|room' cat|room' d rnd|room' ans rnd]];
    simpl in Hroom; [discriminate|..]; injection Hroom as ->; unfold handle; simpl.
  - unfold join. by rewrite Hnone.
  - unfold start_game. by rewrite Hnone.
  - unfold choose. by rewrite Hnone.
  - unfold pick_diff. by rewrite Hnone.
  - unfold receive_answer. by rewrite Hnone.
Qed.

(** [choose] acts only for the current picker, on a category that is offered
    this round and exists in the bank: then it sets the category, keeps the
    rest of the session and tells the room; in every other case it changes
    nothing and emits nothing. *)
Theorem choose_only_by_picker rooms sid room cat g :
  rooms !! room = Some g →
  (current_picker g ≠ Some sid ∨ cat ∉ category_options g ∨
     Dict.get cat QUESTIONS = None →
   choose QUESTIONS rooms sid room cat = returned rooms []) ∧
  (current_picker g = Some sid → cat ∈ category_options g →
   is_Some (Dict.get cat QUESTIONS) →
   choose QUESTIONS rooms sid room cat =
     returned (<[room := chosen g cat]> rooms)
       [Emit (category_chosen cat (round g)) (ToRoom room)]).
Proof.
  intros Hg. rewrite choose_cases, Hg. split.
  - intros Hno. rewrite decide_False; [done|]. intros (Hp & Hin & [levels Hl]).
    destruct Hno as [?|[?|?]]; [done|done|congruence].
  - intros Hp Hin Hbank. by rewrite decide_True.
Qed.

(** [pick_diff] touches the caller's entries only: whatever it does, the
    roster, the scores, the order, the round, the picker, the category and
    every other player's question, answer slot and difficulty stay as they
    were, and whatever it emits goes to the caller. *)
Theorem pick_diff_touches_caller_only rooms sid room difficulty rnd g :
  rooms !! room = Some g →
  let o := pick_diff QUESTIONS rooms sid room difficulty rnd in
  ∃ g',
    o_rooms o = <[room := g']> rooms ∧
    players g' = players g ∧ order g' = order g ∧ round g' = round g ∧
    picker_counts g' = picker_counts g ∧ current_picker g' = current_picker g ∧
    category g' = category g ∧ category_options g' = category_options g ∧
    (∀ other, other ≠ sid →
       questions g' !! other = questions g !! other ∧
       answers g' !! other = answers g !! other ∧
       difficulties g' !! other = difficulties g !! other) ∧
    (∀ e, e ∈ o_emits o → to e = ToSid sid).
Proof.
  intros Hg o. subst o. rewrite pick_diff_cases, Hg.
  assert (Hsame : ∃ g', rooms = <[room := g']> rooms ∧
    players g' = players g ∧ order g' = order g ∧ round g' = round g ∧
    picker_counts g' = picker_counts g ∧ current_picker g' = current_picker g ∧
    category g' = category g ∧ category_options g' = category_options g ∧
    (∀ other, other ≠ sid →
       questions g' !! other = questions g !! other ∧
       answers g' !! other = answers g !! other ∧
       difficulties g' !! other = difficulties g !! other) ∧
    (∀ e : emission, e ∈ [] → to e = ToSid sid)).
  { exists g. rewrite insert_id by done. split_and!; try done.
    by intros e ?%elem_of_nil. }
  destruct (category g) as [cat|] eqn:Hcat; [|done].
  destruct (decide _) as [Hd|Hd]; [|done].
  destruct (Dict.get cat QUESTIONS) as [levels|].
  - destruct (Random.choice _ _) as [qu|]; simpl.
    + eexists. split; [reflexivity|]. simpl. split_and!; try done.
      * intros other Hne. by rewrite !lookup_insert_ne.
      * by intros e ->%list_elem_of_singleton.
    + eexists. split; [reflexivity|]. simpl. split_and!; try done.
      * intros other Hne. by rewrite !lookup_insert_ne.
      * by intros e ->%list_elem_of_singleton.
  - simpl. eexists. split; [reflexivity|]. simpl. split_and!; try done.
    + intros other Hne. by rewrite !lookup_insert_ne.
    + by intros e ?%elem_of_nil.
Qed.


Lemma awarded_values g sid qu answer :
  awarded g sid qu answer ∈ [0; 10; 25; 50] ∧
  (awarded g sid qu answer ≠ 0 → answer = Some (correct qu)).
Proof.
  unfold awarded. destruct (bool_decide_reflect (answer = Some (correct qu))) as [Heq|Hne].
  - split; [|done]. destruct (difficulties g !! sid) as [d|]; simpl.
    + unfold POINTS. simpl. repeat case_decide; simpl; set_solver.
    + set_solver.
  - split; [set_solver | done].
Qed.

Lemma points_for_awarded g sid qu answer :
  awarded g sid qu answer = default 0 (points_for g sid qu answer).
Proof. unfold awarded, points_for. by destruct (bool_decide _). Qed.

(** A submission of a player who holds a question changes that player's
    score only, by the points of the declared difficulty (10, 25 or 50) when
    the answer is the correct index and by 0 otherwise; the roster and every
    other player's record are as before, also when the submission closes the
    round. *)
Theorem receive_answer_scores_caller_only rooms sid room answer rnd g qu p :
  rooms !! room = Some g →
  questions g !! sid = Some qu →
  Dict.get sid (players g) = Some p →
  let o := receive_answer QUESTIONS rooms sid room answer rnd in
  ∃ g',
    o_rooms o !! room = Some g' ∧
    Dict.keys (players g') = Dict.keys (players g) ∧
    Dict.get sid (players g') =
      Some (Player (name p) (score p + awarded g sid qu answer)) ∧
    awarded g sid qu answer ∈ [0; 10; 25; 50] ∧
    (awarded g sid qu answer ≠ 0 → answer = Some (correct qu)) ∧
    ∀ other, other ≠ sid → Dict.get other (players g') = Dict.get other (players g).
Proof.
  intros Hg Hq Hp o. subst o.
  destruct (receive_answer_recorded QUESTIONS rooms room g sid qu p answer rnd Hg Hq Hp)
    as (g1 & -> & _ & Hpl & _).
  destruct (awarded_values g sid qu answer) as [Hvalues Hcorrect].
  assert (Hfinal : ∃ g', o_rooms (feedback_and_barrier QUESTIONS rooms sid room g1
              (bool_decide (answer = Some (correct qu))) (correct qu) rnd) !! room = Some g' ∧
            players g' = players g1).
  { unfold feedback_and_barrier. destruct (forallb _ _); simpl.
    - destruct (next_round_session (<[room := g1]> rooms) room rnd g1
                  (lookup_insert_eq _ _ _))
        as [[-> _]|(s & c & _ & _ & _ & -> & _)].
      + exists g1. by rewrite lookup_insert_eq.
      + eexists. by rewrite lookup_insert_eq.
    - exists g1. by rewrite lookup_insert_eq. }
  destruct Hfinal as (g' & Hg' & Hplayers). exists g'.
  rewrite Hplayers, Hpl. split_and!; try done.
  - apply DictFacts.keys_set_in. by eapply DictFacts.get_elem_of_keys.
  - apply DictFacts.get_set_eq.
  - intros other Hne. by apply DictFacts.get_set_ne.
Qed.

(** A submission of JSON null by a player who holds a question is stored as
    "not yet answered": the player gets the feedback "incorrect", no points,
    and the round stays open whatever the others have answered. *)
Theorem null_answer_leaves_round_open rooms sid room rnd g qu :
  rooms !! room = Some g →
  questions g !! sid = Some qu →
  sid ∈ Dict.keys (players g) →
  receive_answer QUESTIONS rooms sid room None rnd =
    returned (<[room := recorded g sid None]> rooms)
      [Emit (answer_feedback false (correct qu)) (ToSid sid)].
Proof.
  intros Hg Hq Hin. rewrite receive_answer_cases, Hg, Hq. cbv zeta.
  unfold points_for. rewrite bool_decide_eq_false_2 by done.
  apply feedback_and_barrier_open.
  intros Hall. destruct (Hall sid Hin) as [v Hv]. simpl in Hv.
  rewrite lookup_insert_eq in Hv. done.
Qed.

(** [start_game] on a room nobody has joined ends the game at once: the
    order is empty, no round starts, and [game_over] goes out with no
    results and the winner "Ingen". *)
Theorem start_game_without_players rooms room rnd g :
  rooms !! room = Some g →
  players g = [] →
  start_game QUESTIONS rooms room rnd =
    returned (<[room := ordered g []]> rooms)
      [Emit (game_over [] "Ingen") (ToRoom room)].
Proof.
  intros Hg Hempty. rewrite start_game_cases, Hg, Hempty. simpl.
  unfold next_round. rewrite lookup_insert_eq. simpl.
  unfold end_game. rewrite lookup_insert_eq. simpl. by rewrite Hempty.
Qed.

(** [start_game] fixes as order a rearrangement of the identities of the
    players: everyone who has joined is in it once; the roster itself is not
    changed. *)
Theorem start_game_order_is_permutation rooms room rnd g :
  rooms !! room = Some g →
  ∃ g',
    o_rooms (start_game QUESTIONS rooms room rnd) !! room = Some g' ∧
    order g' ≡ₚ Dict.keys (players g) ∧
    players g' = players g.
Proof.
  intros Hg. rewrite start_game_cases, Hg.
  set (g0 := ordered g (Random.shuffle (Dict.keys (players g)) rnd).1).
  destruct (next_round_session (<[room := g0]> rooms) room
              (Random.shuffle (Dict.keys (players g)) rnd).2 g0 (lookup_insert_eq _ _ _))
    as [[-> _]|(s & c & _ & _ & _ & -> & _)].
  - exists g0. rewrite lookup_insert_eq. split_and!; [done| |done].
    apply RandomFacts.shuffle_Permutation.
  - eexists. rewrite lookup_insert_eq. split_and!; [done| |done].
    apply RandomFacts.shuffle_Permutation.
Qed.

(** What a [round_start] says is what the session holds: it goes to the
    room, its round number is the old counter plus one and the new counter,
    its picker is a member of the order who had picked fewer than two times,
    named as in the roster, and its categories are the options of the new
    round; the new round has no category, questions, answers or difficulties
    yet. *)
Theorem round_start_announces_new_round rooms room rnd g rid nm sid opts dst :
  rooms !! room = Some g →
  Emit (round_start rid nm sid opts) dst ∈ o_emits (next_round QUESTIONS rooms room rnd) →
  dst = ToRoom room ∧ rid = round g + 1 ∧ sid ∈ order g ∧
  (∃ c, picker_counts g !! sid = Some c ∧ c < 2) ∧
  (∃ p, Dict.get sid (players g) = Some p ∧ name p = nm) ∧
  ∃ g',
    o_rooms (next_round QUESTIONS rooms room rnd) !! room = Some g' ∧
    round g' = rid ∧ current_picker g' = Some sid ∧ category_options g' = opts ∧
    category g' = None ∧ questions g' = ∅ ∧ answers g' = ∅ ∧ difficulties g' = ∅.
Proof.
  intros Hg Hin.
  destruct (next_round_session rooms room rnd g Hg)
    as [[_ Hnone]|(s & c & Hs & Hc & Hlt & Hrooms & Hemits)].
  - by apply Hnone in Hin.
  - destruct (Hemits _ Hin) as (p & Hp & [= -> -> -> -> ->]).
    split_and!; try done; [by eauto|by eauto|].
    eexists. rewrite Hrooms, lookup_insert_eq. done.
Qed.

(** [join] keeps the roster in join order: a new identity goes to the end,
    a returning identity keeps its place; in both cases the record of that
    identity is the given name with score 0 and pick count 0, and the other
    players keep their records and pick counts. *)
Theorem join_appends_or_resets rooms sid room nm g :
  rooms !! room = Some g →
  ∃ g',
    o_rooms (join rooms sid room nm) !! room = Some g' ∧
    Dict.keys (players g') =
      (if decide (sid ∈ Dict.keys (players g))
       then Dict.keys (players g)
       else Dict.keys (players g) ++ [sid]) ∧
    Dict.get sid (players g') = Some (Player nm 0) ∧
    picker_counts g' !! sid = Some 0 ∧
    ∀ other, other ≠ sid →
      Dict.get other (players g') = Dict.get other (players g) ∧
      picker_counts g' !! other = picker_counts g !! other.
Proof.
  intros Hg. destruct (join_returns rooms room g sid nm Hg) as (g' & -> & Hp & Hc & _).
  exists g'. simpl. rewrite lookup_insert_eq, Hp, Hc. split_and!; [done| | | |].
  - destruct (decide _) as [Hin|Hnin].
    + by apply DictFacts.keys_set_in.
    + by apply DictFacts.keys_set_notin.
  - apply DictFacts.get_set_eq.
  - apply lookup_insert_eq.
  - intros other Hne. split.
    + by apply DictFacts.get_set_ne.
    + by apply lookup_insert_ne.
Qed.

End Handlers.

(** ** The category options *)

Section Sample.

Context {A : Type}.
Implicit Types (pool : list A) (rnd : Random.tape).

Lemma insert_last_take (l : list A) n x :
  length l = S n → <[n := x]> l = take n l ++ [x].
Proof.
  revert n. induction l as [|y l IH]; intros n Hlen; [done|].
  destruct n as [|n]; simpl in *.
  - by destruct l.
  - f_equal. apply IH. lia.
Qed.

(** One draw of [random.sample]: the item drawn and the remaining pool make
    up the pool. *)
Lemma sample_step pool j x y :
  pool !! j = Some x → last pool = Some y →
  pool ≡ₚ x :: take (length pool - 1) (<[j := y]> pool).
Proof.
  intros Hj Hlast.
  assert (Hlen : length pool = S (length pool - 1)).
  { apply lookup_lt_Some in Hj. lia. }
  assert (Hn : pool !! (length pool - 1)%nat = Some y).
  { rewrite last_lookup in Hlast.
    by replace (length pool - 1)%nat with (pred (length pool)) by lia. }
  rewrite <- (Permutation_insert_swap pool j (length pool - 1) x y Hj Hn) at 1.
  rewrite insert_last_take by (by rewrite length_insert).
  by rewrite Permutation_app_comm.
Qed.

Lemma sample_submseteq pool k rnd : Random.sample pool k rnd ⊆+ pool.
Proof.
  revert pool rnd. induction k as [|k IH]; intros pool rnd; simpl.
  - apply submseteq_nil_l.
  - destruct (Random.randbelow (length pool) rnd) as [j rnd'].
    destruct (pool !! j) as [x|] eqn:Hj; [|apply submseteq_nil_l].
    destruct (last pool) as [y|] eqn:Hlast; [|apply submseteq_nil_l].
    transitivity (x :: take (length pool - 1) (<[j := y]> pool)).
    + apply submseteq_skip, IH.
    + apply Permutation_submseteq. symmetry. by apply sample_step.
Qed.

Lemma NoDup_of_submseteq (l k : list A) : l ⊆+ k → NoDup k → NoDup l.
Proof.
  intros [k' Hk]%submseteq_Permutation Hnd. rewrite Hk in Hnd.
  by apply NoDup_app in Hnd as [? _].
Qed.

Lemma sample_length pool k rnd :
  (k ≤ length pool)%nat → length (Random.sample pool k rnd) = k.
Proof.
  revert pool rnd. induction k as [|k IH]; intros pool rnd Hk; simpl; [done|].
  pose proof (RandomFacts.randbelow_lt (length pool) rnd ltac:(lia)) as Hlt.
  destruct (Random.randbelow (length pool) rnd) as [j rnd']. simpl in Hlt.
  destruct (lookup_lt_is_Some_2 pool j Hlt) as [x ->].
  destruct (last pool) as [y|] eqn:Hlast.
  - simpl. f_equal. apply IH. rewrite length_take, length_insert. lia.
  - apply last_None in Hlast. subst pool. simpl in Hk. lia.
Qed.

End Sample.

(** The categories a [round_start] offers are drawn from the bank without
    repetition of a position: three of them when the bank has at least three
    categories, else all of them as they stand; so they are distinct when
    the categories of the bank are. *)
Theorem round_start_category_options (QUESTIONS : bank)
    rooms room rnd g rid nm sid opts dst :
  rooms !! room = Some g →
  Emit (round_start rid nm sid opts) dst ∈ o_emits (next_round QUESTIONS rooms room rnd) →
  opts ⊆+ CATEGORIES QUESTIONS ∧
  length opts = (length (CATEGORIES QUESTIONS) `min` 3)%nat ∧
  ((length (CATEGORIES QUESTIONS) < 3)%nat → opts = CATEGORIES QUESTIONS) ∧
  (NoDup (CATEGORIES QUESTIONS) → NoDup opts).
Proof.
  intros Hg Hin.
  assert (Hopts : opts =
            if (3 <=? length (CATEGORIES QUESTIONS))%nat
            then Random.sample (CATEGORIES QUESTIONS) 3 rnd
            else CATEGORIES QUESTIONS).
  { destruct (next_round_session QUESTIONS rooms room rnd g Hg)
      as [[_ Hnone]|(s & c & _ & _ & _ & _ & Hemits)].
    - by apply Hnone in Hin.
    - by destruct (Hemits _ Hin) as (p & _ & [= _ _ _ ->]). }
  assert (Hsub : opts ⊆+ CATEGORIES QUESTIONS).
  { rewrite Hopts. destruct (3 <=? _)%nat; [apply sample_submseteq | done]. }
  split_and!; [done| | |].
  - rewrite Hopts. destruct (Nat.leb_spec 3 (length (CATEGORIES QUESTIONS))) as [Hge|Hlt].
    + rewrite sample_length by done. lia.
    + lia.
  - intros Hlt. rewrite Hopts.
    destruct (Nat.leb_spec 3 (length (CATEGORIES QUESTIONS))); [lia | done].
  - intros Hnd. by eapply NoDup_of_submseteq.
Qed.

(** ** Rooms are independent *)

Section Frame.

Variable QUESTIONS : bank.

Lemma next_round_frame rooms room' rnd room :
  room ≠ room' →
  o_rooms (next_round QUESTIONS rooms room' rnd) !! room = rooms !! room.
Proof.
  intros Hne. unfold next_round. destruct (rooms !! room') as [g|] eqn:Hg; [|done].
  destruct (next_round_from_cases QUESTIONS rooms room' g rnd (order g))
    as [[-> _]|[[-> _]|(sid & c & _ & _ & _ & Hrun)]].
  - by rewrite end_game_rooms.
  - done.
  - destruct (Dict.get sid (players g)); rewrite Hrun; simpl; by rewrite lookup_insert_ne.
Qed.

Lemma feedback_and_barrier_frame rooms sid room' g is_correct correct_index rnd room :
  room ≠ room' →
  o_rooms (feedback_and_barrier QUESTIONS rooms sid room' g is_correct correct_index rnd)
    !! room = rooms !! room.
Proof.
  intros Hne. unfold feedback_and_barrier. destruct (forallb _ _); simpl.
  - by rewrite next_round_frame, lookup_insert_ne.
  - by rewrite lookup_insert_ne.
Qed.

Lemma handle_frame rooms r room' room :
  room_of r = Some room' → room ≠ room' →
  o_rooms (handle QUESTIONS rooms r) !! room = rooms !! room.
Proof.
  intros Hroom Hne.
  destruct r as [sid [uuid|room0 nm|room0 rnd|room0 cat|room0 d rnd|room0 ans rnd]];
    simpl in Hroom; [discriminate|..]; injection Hroom as ->; unfold handle; cbn [fst snd].
  - unfold join. destruct (rooms !! room') as [g|]; simpl; [|done].
    by rewrite lookup_insert_ne.
  - rewrite start_game_cases. destruct (rooms !! room') as [g|]; [|done].
    by rewrite next_round_frame, lookup_insert_ne.
  - rewrite choose_cases. destruct (rooms !! room') as [g|]; [|done].
    destruct (decide _) as [Hd|Hd]; simpl; [|done]. by rewrite lookup_insert_ne.
  - rewrite pick_diff_cases. destruct (rooms !! room') as [g|]; [|done].
    destruct (category g) as [cat|]; [|done].
    destruct (decide _) as [Hd|Hd]; [|done].
    destruct (Dict.get cat QUESTIONS) as [levels|].
    + destruct (Random.choice _ _); simpl; by rewrite lookup_insert_ne.
    + simpl. by rewrite lookup_insert_ne.
  - rewrite receive_answer_cases. destruct (rooms !! room') as [g|]; [|done].
    destruct (questions g !! sid) as [qu|]; [|done]. cbv zeta.
    destruct (points_for g sid qu ans) as [points|].
    + destruct (Dict.get sid (players g)) as [p|].
      * by apply feedback_and_barrier_frame.
      * simpl. by rewrite lookup_insert_ne.
    + by apply feedback_and_barrier_frame.
Qed.

Lemma handle_emits_dest rooms r room' e :
  room_of r = Some room' →
  e ∈ o_emits (handle QUESTIONS rooms r) →
  to e = ToSid r.1 ∨ to e = ToRoom room'.
Proof.
  intros Hroom.
  destruct r as [sid [uuid|room0 nm|room0 rnd|room0 cat|room0 d rnd|room0 ans rnd]];
    simpl in Hroom; [discriminate|..]; injection Hroom as ->; unfold handle; cbn [fst snd].
  - unfold join. destruct (rooms !! room') as [g|]; simpl.
    + intros [->| ->%list_elem_of_singleton]%elem_of_cons; simpl; eauto.
    + intros ->%list_elem_of_singleton. simpl. eauto.
  - rewrite start_game_cases. destruct (rooms !! room') as [g|].
    + intros [Hto _]%next_round_emits. eauto.
    + by intros ?%elem_of_nil.
  - rewrite choose_cases. destruct (rooms !! room') as [g|]; [|by intros ?%elem_of_nil].
    destruct (decide _) as [Hd|Hd]; simpl.
    + intros ->%list_elem_of_singleton. simpl. eauto.
    + by intros ?%elem_of_nil.
  - rewrite pick_diff_cases. destruct (rooms !! room') as [g|]; [|by intros ?%elem_of_nil].
    destruct (category g) as [cat|]; [|by intros ?%elem_of_nil].
    destruct (decide _) as [Hd|Hd]; [|by intros ?%elem_of_nil].
    destruct (Dict.get cat QUESTIONS) as [levels|]; [|by intros ?%elem_of_nil].
    destruct (Random.choice _ _); simpl; intros ->%list_elem_of_singleton; simpl; eauto.
  - rewrite receive_answer_cases. destruct (rooms !! room') as [g|]; [|by intros ?%elem_of_nil].
    destruct (questions g !! sid) as [qu|]; [|by intros ?%elem_of_nil]. cbv zeta.
    assert (Hfb : ∀ g1 c ci,
              e ∈ o_emits (feedback_and_barrier QUESTIONS rooms sid room' g1 c ci rnd) →
              to e = ToSid sid ∨ to e = ToRoom room').
    { intros g1 c ci. unfold feedback_and_barrier. destruct (forallb _ _); simpl.
      - intros [->|[->|[Hto _]%next_round_emits]%elem_of_cons]%elem_of_cons; simpl; eauto.
      - intros ->%list_elem_of_singleton. simpl. eauto. }
    destruct (points_for g sid qu ans) as [points|].
    + destruct (Dict.get sid (players g)) as [p|]; [apply Hfb|].
      by intros ?%elem_of_nil.
    + apply Hfb.
Qed.

End Frame.

(** A request that names a room leaves every other room of the registry as
    it was, and none of its notifications is broadcast to another room. *)
Theorem rooms_are_independent (QUESTIONS : bank) rooms r room' room :
  room_of r = Some room' →
  room ≠ room' →
  let o := handle QUESTIONS rooms r in
  o_rooms o !! room = rooms !! room ∧
  ∀ e, e ∈ o_emits o → to e ≠ ToRoom room.
Proof.
  intros Hroom Hne o. subst o. split.
  - by apply handle_frame with room'.
  - intros e Hin. destruct (handle_emits_dest QUESTIONS rooms r room' e Hroom Hin) as [->| ->].
    + done.
    + by intros [= ->].
Qed.

(** ** A running game neither gains nor loses a round *)

Section Steady.

Variable QUESTIONS : bank.

Lemma steady_refl g : steady g g.
Proof. done. Qed.

Lemma steady_trans g1 g2 g3 : steady g1 g2 → steady g2 g3 → steady g1 g3.
Proof.
  intros (Ho1 & Hk1 & Hr1) (Ho2 & Hk2 & Hr2). unfold steady.
  rewrite Ho2, Ho1, Hk2, Hk1, Hr2, Hr1. done.
Qed.

Lemma schedule_length_insert counts l sid c :
  NoDup l → sid ∈ l → counts !! sid = Some c → c < 2 →
  S (length (schedule (<[sid := c + 1]> counts) l)) = length (schedule counts l).
Proof.
  induction l as [|x l IH]; intros Hnd Hin Hc Hlt; [by apply elem_of_nil in Hin|].
  apply NoDup_cons in Hnd as [Hx Hnd]. rewrite !schedule_cons, !length_app, !length_replicate.
  destruct (decide (x = sid)) as [->|Hne].
  - rewrite lookup_insert_eq, Hc, schedule_insert_notin by done. simpl. lia.
  - apply elem_of_cons in Hin as [->|Hin]; [done|].
    rewrite lookup_insert_ne by done. rewrite <- (IH Hnd Hin Hc Hlt). lia.
Qed.

Lemma steady_started g sid c rnd :
  NoDup (order g) → sid ∈ order g → picker_counts g !! sid = Some c → c < 2 →
  steady g (started QUESTIONS g sid c rnd).
Proof.
  intros Hnd Hin Hc Hlt. unfold steady, owed. simpl. split_and!; [done|done|].
  rewrite <- (schedule_length_insert (picker_counts g) (order g) sid c) by done. lia.
Qed.

Lemma next_round_steady rooms room rnd g :
  rooms !! room = Some g → NoDup (order g) →
  ∃ g', o_rooms (next_round QUESTIONS rooms room rnd) !! room = Some g' ∧ steady g g'.
Proof.
  intros Hg Hnd.
  destruct (next_round_session QUESTIONS rooms room rnd g Hg)
    as [[-> _]|(sid & c & Hin & Hc & Hlt & -> & _)].
  - exists g. split; [done | apply steady_refl].
  - eexists. rewrite lookup_insert_eq. split; [done|]. by apply steady_started.
Qed.

Lemma feedback_and_barrier_steady rooms sid room g is_correct correct_index rnd :
  NoDup (order g) →
  ∃ g',
    o_rooms (feedback_and_barrier QUESTIONS rooms sid room g is_correct correct_index rnd)
      !! room = Some g' ∧
    steady g g'.
Proof.
  intros Hnd. unfold feedback_and_barrier. destruct (forallb _ _); simpl.
  - apply next_round_steady; [apply lookup_insert_eq | done].
  - exists g. rewrite lookup_insert_eq. split; [done | apply steady_refl].
Qed.

(** One request of a running game, seen from any room. *)
Lemma in_game_handle_steady rooms r room g :
  rooms !! room = Some g → NoDup (order g) → in_game r = true →
  ∃ g', o_rooms (handle QUESTIONS rooms r) !! room = Some g' ∧ steady g g'.
Proof.
  intros Hg Hnd Hin.
  destruct (room_of r) as [room'|] eqn:Hroom.
  2:{ destruct r as [sid []]; done. }
  destruct (decide (room = room')) as [<-|Hne].
  2:{ exists g. rewrite (handle_frame QUESTIONS rooms r room' room Hroom Hne).
      split; [done | apply steady_refl]. }
  destruct r as [sid [uuid|room0 nm|room0 rnd|room0 cat|room0 d rnd|room0 ans rnd]];
    try done; simpl in Hroom; injection Hroom as ->; unfold handle; cbn [fst snd].
  - rewrite choose_cases, Hg. destruct (decide _) as [Hd|Hd]; simpl.
    + eexists. rewrite lookup_insert_eq. split; [done|]. done.
    + exists g. split; [done | apply steady_refl].
  - rewrite pick_diff_cases, Hg. destruct (category g) as [cat|];
      [|exists g; split; [done | apply steady_refl]].
    destruct (decide _) as [Hd|Hd]; [|exists g; split; [done | apply steady_refl]].
    destruct (Dict.get cat QUESTIONS) as [levels|].
    + destruct (Random.choice _ _); simpl; eexists; rewrite lookup_insert_eq; done.
    + simpl. eexists. rewrite lookup_insert_eq. done.
  - rewrite receive_answer_cases, Hg. destruct (questions g !! sid) as [qu|];
      [|exists g; split; [done | apply steady_refl]].
    cbv zeta. destruct (points_for g sid qu ans) as [points|].
    + destruct (Dict.get sid (players g)) as [p|] eqn:Hp.
      * destruct (feedback_and_barrier_steady rooms sid room
                    (scored (recorded g sid ans) sid p points)
                    (bool_decide (ans = Some (correct qu))) (correct qu) rnd Hnd)
          as (g' & Hg' & Hs).
        exists g'. split; [done|]. eapply steady_trans; [|exact Hs].
        unfold steady, owed. simpl. split_and!; [done| |done].
        apply DictFacts.keys_set_in. by eapply DictFacts.get_elem_of_keys.
      * simpl. eexists. rewrite lookup_insert_eq. done.
    + destruct (feedback_and_barrier_steady rooms sid room (recorded g sid ans)
                  (bool_decide (ans = Some (correct qu))) (correct qu) rnd Hnd)
        as (g' & Hg' & Hs).
      exists g'. split; [done|]. eapply steady_trans; [|exact Hs]. done.
Qed.

Lemma in_game_serve_steady rs : ∀ rooms room g,
  rooms !! room = Some g → NoDup (order g) → forallb in_game rs = true →
  ∃ g', (serve QUESTIONS rooms rs).1 !! room = Some g' ∧ steady g g'.
Proof.
  induction rs as [|r rs IH]; intros rooms room g Hg Hnd Hin.
  - exists g. split; [done | apply steady_refl].
  - simpl in Hin. apply andb_true_iff in Hin as [Hr Hrs].
    destruct (in_game_handle_steady rooms r room g Hg Hnd Hr) as (g1 & Hg1 & Hs1).
    destruct (IH (o_rooms (handle QUESTIONS rooms r)) room g1 Hg1) as (g' & Hg' & Hs');
      [by rewrite (proj1 Hs1) | done |].
    exists g'. rewrite serve_cons_rooms. split; [done|]. by eapply steady_trans.
Qed.

Lemma serve_app_rooms rs1 rs2 : ∀ rooms,
  (serve QUESTIONS rooms (rs1 ++ rs2)).1 =
    (serve QUESTIONS (serve QUESTIONS rooms rs1).1 rs2).1.
Proof.
  induction rs1 as [|r rs1 IH]; intros rooms; [done|].
  rewrite <- app_comm_cons, !serve_cons_rooms. apply IH.
Qed.

End Steady.

(** After any history of the server, the choosing and answering of a
    running game neither gains nor loses a round, whoever sends what in
    whichever room: the order and the identities of the roster stay, and the
    rounds started plus the picks still owed add up to the same number; so a
    game started with every pick count at 0 never runs more than twice as
    many rounds as its order has players. *)
Theorem in_game_requests_conserve_rounds (QUESTIONS : bank) history rs room g :
  (serve QUESTIONS ∅ history).1 !! room = Some g →
  forallb in_game rs = true →
  ∃ g',
    (serve QUESTIONS ∅ (history ++ rs)).1 !! room = Some g' ∧
    order g' = order g ∧
    Dict.keys (players g') = Dict.keys (players g) ∧
    round g' + Z.of_nat (owed g') = round g + Z.of_nat (owed g) ∧
    round g' ≤ round g + Z.of_nat (owed g).
Proof.
  intros Hg Hin.
  pose proof (reachable_well_formed QUESTIONS history room g Hg) as Hwf.
  destruct (in_game_serve_steady QUESTIONS rs _ room g Hg (wf_order_NoDup _ _ Hwf) Hin)
    as (g' & Hg' & Ho & Hk & Hr).
  exists g'. rewrite serve_app_rooms. split_and!; try done. lia.
Qed.

(** ** The loader *)

Section Loader.

Implicit Types (raw : Dict.t (Dict.t (list item))) (levels : Dict.t (list item)).

Lemma convert_levels_unfold levels :
  convert_levels levels =
    [("easy", convert_level levels "easy");
     ("medium", convert_level levels "medium");
     ("hard", convert_level levels "hard")].
Proof. reflexivity. Qed.

Lemma convert_level_omap levels diff :
  convert_level levels diff = omap convert_item (default [] (Dict.get diff levels)).
Proof. unfold convert_level. by destruct (Dict.get diff levels). Qed.

(** What the checks of the loop body leave through. *)
Lemma convert_item_Some it e :
  convert_item it = Some e →
  or_else (Dict.get "q" it) (Dict.get "question" it) = Some (JStr (e_q e)) ∧
  or_else (Dict.get "a" it) (Dict.get "answers" it) = Some (JList (e_a e)) ∧
  Dict.get "correct" it = Some (e_correct e) ∧
  length (e_a e) = 4%nat ∧
  ∃ n, as_int (e_correct e) = Some n ∧ 0 ≤ n ≤ 3.
Proof.
  unfold convert_item.
  destruct (or_else (Dict.get "q" it) (Dict.get "question" it)) as [[| | | |s| |]|]; try done.
  destruct (or_else (Dict.get "a" it) (Dict.get "answers" it)) as [[| | | | |l|]|]; try done.
  destruct (decide (length l = 4%nat)) as [Hlen|]; [|done].
  destruct (Dict.get "correct" it) as [c|]; [|done].
  destruct (as_int c) as [n|] eqn:Hn; [|done].
  destruct (Z.ltb_spec n 0); [done|]. destruct (Z.ltb_spec 3 n); [done|].
  intros [= <-]. simpl. split_and!; try done. exists n. split; [done | lia].
Qed.

(** The categories converted so far, along the loop over the file. *)
Lemma load_fold_get raw : ∀ acc cat converted,
  Dict.get cat
    (foldl (λ converted cl, Dict.set cl.1 (convert_levels cl.2) converted) acc raw)
    = Some converted →
  Dict.get cat acc = Some converted ∨ ∃ levels, converted = convert_levels levels.
Proof.
  induction raw as [|[c lv] raw IH]; intros acc cat converted; simpl; [by left|].
  intros [Hacc|Hnew]%IH; [|by right].
  destruct (decide (c = cat)) as [->|Hne].
  - rewrite DictFacts.get_set_eq in Hacc. injection Hacc as <-. right. eauto.
  - rewrite DictFacts.get_set_ne in Hacc by done. by left.
Qed.

Lemma load_fold_keys raw : ∀ acc,
  NoDup (Dict.keys acc ++ Dict.keys raw) →
  Dict.keys (foldl (λ converted cl, Dict.set cl.1 (convert_levels cl.2) converted) acc raw)
    = Dict.keys acc ++ Dict.keys raw ∧
  ∀ cat levels, Dict.get cat raw = Some levels →
    Dict.get cat
      (foldl (λ converted cl, Dict.set cl.1 (convert_levels cl.2) converted) acc raw)
      = Some (convert_levels levels).
Proof.
  induction raw as [|[c lv] raw IH]; intros acc Hnd; simpl.
  - by rewrite app_nil_r.
  - simpl in Hnd.
    assert (Hc : c ∉ Dict.keys acc).
    { apply NoDup_app in Hnd as (_ & Hdisj & _). intros Hin.
      apply (Hdisj c Hin). apply list_elem_of_here. }
    assert (Hkeys : Dict.keys (Dict.set c (convert_levels lv) acc) = Dict.keys acc ++ [c]).
    { by apply DictFacts.keys_set_notin. }
    destruct (IH (Dict.set c (convert_levels lv) acc)) as [IHk IHg].
    { rewrite Hkeys, <- app_assoc. done. }
    split.
    + rewrite IHk, Hkeys, <- app_assoc. done.
    + intros cat levels. destruct (decide (cat = c)) as [->|Hne].
      * intros [= ->].
        assert (Hraw : c ∉ Dict.keys raw).
        { apply NoDup_app in Hnd as (_ & _ & Hnd'). by apply NoDup_cons in Hnd' as [? _]. }
        apply DictFacts.get_None in Hraw.
        clear IH IHk IHg Hnd Hkeys Hc.
        assert (Hkeep : ∀ acc', Dict.get c acc' = Some (convert_levels levels) →
                  Dict.get c (foldl (λ converted cl,
                                Dict.set cl.1 (convert_levels cl.2) converted) acc' raw)
                  = Some (convert_levels levels)).
        { induction raw as [|[c' lv'] raw IH]; intros acc' Hacc'; simpl; [done|].
          simpl in Hraw. destruct (decide (c = c')) as [->|Hne']; [done|].
          apply IH; [done|]. by rewrite DictFacts.get_set_ne. }
        apply Hkeep, DictFacts.get_set_eq.
      * apply IHg.
Qed.

End Loader.

(** For a file whose categories are distinct, [load_questions] keeps the
    categories in file order, and gives each exactly the difficulties easy,
    medium and hard, in that order: the items of the file that pass the
    checks, in file order, and the empty list for a difficulty the file does
    not have. *)
Theorem load_questions_shape (raw : Dict.t (Dict.t (list item))) :
  NoDup (Dict.keys raw) →
  Dict.keys (load_questions raw) = Dict.keys raw ∧
  ∀ cat levels, Dict.get cat raw = Some levels →
    ∃ converted,
      Dict.get cat (load_questions raw) = Some converted ∧
      Dict.keys converted = ["easy"; "medium"; "hard"] ∧
      ∀ diff, diff ∈ ["easy"; "medium"; "hard"] →
        Dict.get diff converted =
          Some (omap convert_item (default [] (Dict.get diff levels))).
Proof.
  intros Hnd. destruct (load_fold_keys raw [] Hnd) as [Hkeys Hget].
  split; [done|]. intros cat levels Hcat.
  exists (convert_levels levels). split; [by apply Hget|]. split; [done|].
  intros diff Hdiff. rewrite convert_levels_unfold, <- convert_level_omap.
  repeat (apply elem_of_cons in Hdiff as [->|Hdiff]; [done|]).
  by apply elem_of_nil in Hdiff.
Qed.

(** Every question [load_questions] keeps has exactly four answers and a
    correct index that is an integer (or a JSON boolean, which Python takes
    for the integer 1 or 0) between 0 and 3. *)
Theorem load_questions_entries_valid (raw : Dict.t (Dict.t (list item)))
    cat converted diff es e :
  Dict.get cat (load_questions raw) = Some converted →
  Dict.get diff converted = Some es →
  e ∈ es →
  length (e_a e) = 4%nat ∧ ∃ n, as_int (e_correct e) = Some n ∧ 0 ≤ n ≤ 3.
Proof.
  intros Hcat Hdiff He.
  apply load_fold_get in Hcat as [Hnil|[levels ->]]; [done|].
  assert (Hes : ∃ d, es = convert_level levels d).
  { rewrite convert_levels_unfold in Hdiff. simpl in Hdiff.
    repeat case_decide; simplify_eq; eauto. }
  destruct Hes as [d ->]. rewrite convert_level_omap in He.
  apply list_elem_of_omap in He as (it & _ & Hit).
  by apply convert_item_Some in Hit as (_ & _ & _ & Hlen & Hn).
Qed.

(** A kept question, written back as the dict [{"q", "a", "correct"}] the
    loader builds, is read again as itself when its text is not empty; a
    kept question with an empty text (accepted under the key "question") is
    dropped when read again under the key "q". *)
Theorem convert_item_rereads_own_output it e :
  convert_item it = Some e →
  convert_item (entry_item e) = (if decide (e_q e = "") then None else Some e).
Proof.
  intros (_ & _ & _ & Hlen & n & Hn & Hrange)%convert_item_Some.
  destruct e as [s l c]. simpl in *.
  destruct l as [|x l]; [done|].
  unfold convert_item, entry_item. simpl.
  destruct (decide (s = "")) as [->|Hne]; [done|].
  assert (String.eqb s "" = false) as -> by (by apply String.eqb_neq). simpl.
  rewrite decide_True by done. rewrite Hn.
  destruct (Z.ltb_spec n 0); [lia|]. by destruct (Z.ltb_spec 3 n); [lia|].
Qed.

(** ** The end of the game, the answer key, the scores, and new rooms *)

(** [next_round] broadcasts [game_over] only when every member of the order
    has picked at least twice; it then lists every player of the roster with
    name and score, in roster order, and leaves the registry as it was. *)
Theorem game_over_only_when_all_picked (QUESTIONS : bank)
    rooms room rnd g results winner dst :
  rooms !! room = Some g →
  Emit (game_over results winner) dst
    ∈ o_emits (next_round QUESTIONS rooms room rnd) →
  (∀ sid, sid ∈ order g → ∃ c, picker_counts g !! sid = Some c ∧ 2 ≤ c) ∧
  o_rooms (next_round QUESTIONS rooms room rnd) = rooms ∧
  dst = ToRoom room ∧
  results = map (λ p, (name p, score p)) (Dict.values (players g)).
Proof.
  intros Hg. unfold next_round. rewrite Hg.
  destruct (next_round_from_cases QUESTIONS rooms room g rnd (order g))
    as [[-> Hall]|[[-> _]|(sid & c & _ & _ & _ & Hrun)]].
  - rewrite end_game_rooms. unfold end_game. rewrite Hg. simpl.
    by intros [= -> -> ->]%list_elem_of_singleton.
  - by intros ?%elem_of_nil.
  - destruct (Dict.get sid (players g)); rewrite Hrun; simpl.
    + by intros [=]%list_elem_of_singleton.
    + by intros ?%elem_of_nil.
Qed.

Section Feedback.

Variable QUESTIONS : bank.

Lemma next_round_emits_kind rooms room rnd e :
  e ∈ o_emits (next_round QUESTIONS rooms room rnd) →
  is_round_start e = true ∨ is_game_over e = true.
Proof.
  unfold next_round. destruct (rooms !! room) as [g|] eqn:Hg; [|by intros ?%elem_of_nil].
  destruct (next_round_from_cases QUESTIONS rooms room g rnd (order g))
    as [[-> _]|[[-> _]|(sid & c & _ & _ & _ & Hrun)]].
  - unfold end_game. rewrite Hg. simpl. intros ->%list_elem_of_singleton. by right.
  - by intros ?%elem_of_nil.
  - destruct (Dict.get sid (players g)); rewrite Hrun; simpl.
    + intros ->%list_elem_of_singleton. by left.
    + by intros ?%elem_of_nil.
Qed.

Lemma handle_feedback_private rooms r e c ci :
  e ∈ o_emits (handle QUESTIONS rooms r) →
  event e = answer_feedback c ci →
  to e = ToSid r.1 ∧
  ∃ room answer rnd,
    r.2 = On_submit_answer room answer rnd ∧ c = bool_decide (answer = Some ci).
Proof.
  destruct r as [sid [uuid|room nm|room rnd|room cat|room d rnd|room ans rnd]];
    unfold handle; cbn [fst snd].
  - by intros ->%list_elem_of_singleton.
  - unfold join. destruct (rooms !! room) as [g|]; simpl.
    + intros [->| ->%list_elem_of_singleton]%elem_of_cons; done.
    + by intros ->%list_elem_of_singleton.
  - rewrite start_game_cases. destruct (rooms !! room) as [g|].
    + intros Hin Hev. apply next_round_emits_kind in Hin.
      unfold is_round_start, is_game_over in Hin. rewrite Hev in Hin. by destruct Hin.
    + by intros ?%elem_of_nil.
  - rewrite choose_cases. destruct (rooms !! room) as [g|]; [|by intros ?%elem_of_nil].
    destruct (decide _) as [Hd|Hd]; simpl.
    + by intros ->%list_elem_of_singleton.
    + by intros ?%elem_of_nil.
  - rewrite pick_diff_cases. destruct (rooms !! room) as [g|]; [|by intros ?%elem_of_nil].
    destruct (category g) as [cat|]; [|by intros ?%elem_of_nil].
    destruct (decide _) as [Hd|Hd]; [|by intros ?%elem_of_nil].
    destruct (Dict.get cat QUESTIONS) as [levels|]; [|by intros ?%elem_of_nil].
    destruct (Random.choice _ _); simpl; by intros ->%list_elem_of_singleton.
  - rewrite receive_answer_cases. destruct (rooms !! room) as [g|]; [|by intros ?%elem_of_nil].
    destruct (questions g !! sid) as [qu|]; [|by intros ?%elem_of_nil]. cbv zeta.
    assert (Hfb : ∀ g1,
              e ∈ o_emits (feedback_and_barrier QUESTIONS rooms sid room g1
                             (bool_decide (ans = Some (correct qu))) (correct qu) rnd) →
              event e = answer_feedback c ci →
              to e = ToSid sid ∧
              ∃ room0 answer rnd0,
                On_submit_answer room ans rnd = On_submit_answer room0 answer rnd0 ∧
                c = bool_decide (answer = Some ci)).
    { intros g1. unfold feedback_and_barrier. destruct (forallb _ _); simpl.
      - intros [->|[->|Hin]%elem_of_cons]%elem_of_cons; simpl.
        + intros [= <- <-]. eauto 10.
        + done.
        + intros Hev. apply next_round_emits_kind in Hin.
          unfold is_round_start, is_game_over in Hin. rewrite Hev in Hin. by destruct Hin.
      - intros ->%list_elem_of_singleton. simpl. intros [= <- <-]. eauto 10. }
    destruct (points_for g sid qu ans) as [points|].
    + destruct (Dict.get sid (players g)) as [p|]; [apply Hfb|].
      by intros ?%elem_of_nil.
    + apply Hfb.
Qed.

Lemma points_for_nonneg g sid qu answer points :
  points_for g sid qu answer = Some points → 0 ≤ points.
Proof.
  unfold points_for. destruct (bool_decide _); [|done].
  destruct (difficulties g !! sid) as [d|]; [|done]. simpl.
  unfold POINTS. simpl. repeat case_decide; intros [= <-]; lia.
Qed.

Lemma scores_nonneg_insert rooms room g g' :
  scores_nonneg rooms → rooms !! room = Some g →
  (∀ sid p', Dict.get sid (players g') = Some p' →
     0 ≤ score p' ∨ Dict.get sid (players g) = Some p') →
  scores_nonneg (<[room := g']> rooms).
Proof.
  intros Hall Hg Hstep room0 g0 sid p. destruct (decide (room = room0)) as [<-|Hne].
  - rewrite lookup_insert_eq. intros [= <-] Hp.
    destruct (Hstep sid p Hp) as [?|Hold]; [done|]. by eapply Hall.
  - rewrite lookup_insert_ne by done. apply Hall.
Qed.

Lemma next_round_scores rooms room rnd :
  scores_nonneg rooms → scores_nonneg (o_rooms (next_round QUESTIONS rooms room rnd)).
Proof.
  intros Hall. destruct (rooms !! room) as [g|] eqn:Hg.
  - destruct (next_round_session QUESTIONS rooms room rnd g Hg)
      as [[-> _]|(sid & c & _ & _ & _ & -> & _)]; [done|].
    apply scores_nonneg_insert with g; [done|done|]. intros s p' Hp. by right.
  - unfold next_round. by rewrite Hg.
Qed.

Lemma feedback_and_barrier_scores rooms sid room g is_correct correct_index rnd :
  scores_nonneg (<[room := g]> rooms) →
  scores_nonneg
    (o_rooms (feedback_and_barrier QUESTIONS rooms sid room g is_correct correct_index rnd)).
Proof.
  intros Hall. unfold feedback_and_barrier. destruct (forallb _ _); simpl; [|done].
  by apply next_round_scores.
Qed.

Lemma handle_scores rooms r :
  scores_nonneg rooms → scores_nonneg (o_rooms (handle QUESTIONS rooms r)).
Proof.
  intros Hall.
  destruct r as [sid [uuid|room nm|room rnd|room cat|room d rnd|room ans rnd]];
    unfold handle; cbn [fst snd].
  - simpl. intros room0 g0 s p. destruct (decide (upper (substring 0 6 uuid) = room0)) as [<-|Hne].
    + rewrite lookup_insert_eq. by intros [= <-].
    + rewrite lookup_insert_ne by done. apply Hall.
  - unfold join. destruct (rooms !! room) as [g|] eqn:Hg; simpl; [|done].
    apply scores_nonneg_insert with g; [done|done|]. simpl. intros s p'.
    destruct (decide (sid = s)) as [->|Hne].
    + rewrite DictFacts.get_set_eq. intros [= <-]. by left.
    + rewrite DictFacts.get_set_ne by done. by right.
  - rewrite start_game_cases. destruct (rooms !! room) as [g|] eqn:Hg; [|done].
    apply next_round_scores. apply scores_nonneg_insert with g; [done|done|].
    intros s p' Hp. by right.
  - rewrite choose_cases. destruct (rooms !! room) as [g|] eqn:Hg; [|done].
    destruct (decide _) as [Hd|Hd]; simpl; [|done].
    apply scores_nonneg_insert with g; [done|done|]. intros s p' Hp. by right.
  - rewrite pick_diff_cases. destruct (rooms !! room) as [g|] eqn:Hg; [|done].
    destruct (category g) as [cat|]; [|done].
    destruct (decide _) as [Hd|Hd]; [|done].
    destruct (Dict.get cat QUESTIONS) as [levels|].
    + destruct (Random.choice _ _); simpl;
        (apply scores_nonneg_insert with g; [done|done|]; intros s p' Hp; by right).
    + simpl. apply scores_nonneg_insert with g; [done|done|]. intros s p' Hp. by right.
  - rewrite receive_answer_cases. destruct (rooms !! room) as [g|] eqn:Hg; [|done].
    destruct (questions g !! sid) as [qu|]; [|done]. cbv zeta.
    destruct (points_for g sid qu ans) as [points|] eqn:Hpoints.
    + destruct (Dict.get sid (players g)) as [p|] eqn:Hp.
      * apply feedback_and_barrier_scores.
        apply scores_nonneg_insert with g; [done|done|]. simpl. intros s p'.
        destruct (decide (sid = s)) as [->|Hne].
        -- rewrite DictFacts.get_set_eq. intros [= <-]. left. simpl.
           pose proof (Hall room g s p Hg Hp).
           pose proof (points_for_nonneg g s qu ans points Hpoints). lia.
        -- rewrite DictFacts.get_set_ne by done. by right.
      * simpl. apply scores_nonneg_insert with g; [done|done|]. intros s p' Hp'. by right.
    + apply feedback_and_barrier_scores.
      apply scores_nonneg_insert with g; [done|done|]. intros s p' Hp'. by right.
Qed.

Lemma serve_scores rs : ∀ rooms,
  scores_nonneg rooms → scores_nonneg (serve QUESTIONS rooms rs).1.
Proof.
  induction rs as [|r rs IH]; intros rooms Hall; [done|].
  rewrite serve_cons_rooms. by apply IH, handle_scores.
Qed.

End Feedback.

(** In any run of the server, an [answer_feedback], which discloses the
    correct index, was emitted for a [submit_answer] request and is
    addressed to the sender of that request alone; its flag says whether the
    submitted answer is the disclosed index. *)
Theorem answer_key_private (QUESTIONS : bank) rooms rs e c ci :
  e ∈ (serve QUESTIONS rooms rs).2 →
  event e = answer_feedback c ci →
  ∃ sid room answer rnd,
    (sid, On_submit_answer room answer rnd) ∈ rs ∧
    to e = ToSid sid ∧
    c = bool_decide (answer = Some ci).
Proof.
  revert rooms. induction rs as [|r rs IH]; intros rooms Hin Hev.
  - by apply elem_of_nil in Hin.
  - rewrite serve_cons_emits in Hin. apply elem_of_app in Hin as [Hin|Hin].
    + destruct (handle_feedback_private QUESTIONS rooms r e c ci Hin Hev)
        as (Hto & room & answer & rnd & Hr & Hc).
      destruct r as [sid act]. simpl in *. subst act.
      exists sid, room, answer, rnd. split_and!; [apply list_elem_of_here|done|done].
    + destruct (IH _ Hin Hev) as (sid & room & answer & rnd & Hrs & Hto & Hc).
      exists sid, room, answer, rnd. split_and!; [|done|done].
      by apply list_elem_of_further.
Qed.

(** No score the server can reach is negative: [join] starts a player at 0
    and [receive_answer] only adds 10, 25 or 50. *)
Theorem reachable_scores_nonneg (QUESTIONS : bank) rs room g sid p :
  (serve QUESTIONS ∅ rs).1 !! room = Some g →
  Dict.get sid (players g) = Some p →
  0 ≤ score p.
Proof.
  intros Hg Hp.
  assert (Hempty : scores_nonneg ∅).
  { intros room0 g0 s p0 Hnone. by rewrite lookup_empty in Hnone. }
  exact (serve_scores QUESTIONS rs ∅ Hempty room g sid p Hg Hp).
Qed.

Lemma upper_ascii_not_lower c : is_lower (upper_ascii c) = false.
Proof.
  unfold upper_ascii, is_lower.
  destruct ((97 <=? nat_of_ascii c)%nat && (nat_of_ascii c <=? 122)%nat) eqn:Hc.
  - apply andb_true_iff in Hc as [H1%Nat.leb_le H2%Nat.leb_le].
    rewrite nat_ascii_embedding by lia.
    apply andb_false_iff. left. apply Nat.leb_gt. lia.
  - done.
Qed.

Lemma upper_get s n : String.get n (upper s) = upper_ascii <$> String.get n s.
Proof.
  revert n. induction s as [|c s IH]; intros n; simpl; [done|].
  destruct n as [|n]; [done|]. apply IH.
Qed.

Lemma upper_length s : String.length (upper s) = String.length s.
Proof. induction s as [|c s IH]; simpl; [done|]. by rewrite IH. Qed.

Lemma substring_length_le s n : (String.length (substring 0 n s) ≤ n)%nat.
Proof.
  revert s. induction n as [|n IH]; intros s; destruct s as [|c s]; simpl; try lia.
  specialize (IH s). lia.
Qed.

(** [create_room] stores a fresh session under an identifier of at most six
    characters without lower-case letters, replacing whatever session the
    registry held under it, answers the creator alone, and leaves the other
    rooms as they were. *)
Theorem create_room_fresh_session rooms sid uuid :
  let room := upper (substring 0 6 uuid) in
  let o := create_room rooms sid uuid in
  o_rooms o !! room = Some init_game ∧
  (∀ room', room' ≠ room → o_rooms o !! room' = rooms !! room') ∧
  o_emits o = [Emit (room_created room) (ToSid sid)] ∧
  o_raised o = None ∧
  (String.length room ≤ 6)%nat ∧
  ∀ n c, String.get n room = Some c → is_lower c = false.
Proof.
  intros room o. subst o. unfold create_room. fold room. simpl. split_and!; try done.
  - apply lookup_insert_eq.
  - intros room' Hne. by apply lookup_insert_ne.
  - subst room. rewrite upper_length. apply substring_length_le.
  - intros n c. subst room. rewrite upper_get.
    destruct (String.get n (substring 0 6 uuid)) as [c0|]; [|done].
    intros [= <-]. apply upper_ascii_not_lower.
Qed.

(** ** The rounds of a game driven by its players *)

Section Played.

Variable QUESTIONS : bank.














End Played.


(** ** Requests as they arrive *)

Section DispatchFacts.

Variable QUESTIONS : bank.

Ltac payload_cases rq :=
  destruct rq as [? ev args ? ?];
  unfold typed, dispatch, ignored, payload_exn, on_join_room, on_start_game,
    on_choose_category, on_choose_difficulty, on_submit_answer, reading, subscript,
    room_key, has_key, as_answer, as_int;
  cbn [rq_sid rq_event rq_args rq_uuid rq_rnd];
  destruct ev; cbn [reads forallb];
  destruct args as [|[] [|? ?]].

Ltac crunch :=
  repeat (first [case_match | progress cbn [fmap option_fmap option_map andb fst snd] in *];
          simplify_eq);
  try done.

(** On a payload that holds every field, each of its type, the first lines
    of a handler raise nothing and hand the fields to the typed handler. *)
Lemma dispatch_typed rooms rq r :
  typed rq = Some r →
  dispatch QUESTIONS rooms rq = Some (handle QUESTIONS rooms r) ∧
  payload_exn (rq_event rq) (rq_args rq) = None.
Proof.
  payload_cases rq; intros Ht; simplify_eq; try done.
  all: crunch.
Qed.

(** On any other payload the handler returns or raises before it touches a
    session. *)
Lemma dispatch_untyped rooms rq o :
  typed rq = None → dispatch QUESTIONS rooms rq = Some o → o = ignored rooms rq.
Proof.
  payload_cases rq; intros Ht Hd; simplify_eq; try done.
  all: crunch.
Qed.

Lemma dispatch_untyped_total rooms rq :
  typed rq = None → ¬ names_session rooms rq → is_Some (dispatch QUESTIONS rooms rq).
Proof.
  unfold names_session.
  payload_cases rq; intros Ht Hn; simplify_eq; try done.
  all: crunch.
  all: exfalso; apply Hn; eexists _, _; split; [done|]; simpl;
         repeat case_match; simplify_eq; eauto.
Qed.

Lemma typed_room rq r :
  typed rq = Some r → rq_event rq ≠ Ev_create_room →
  ∃ data room,
    rq_args rq = [data] ∧ subscript data "room" = inr (JStr room) ∧
    room_of r = Some room ∧ r.1 = rq_sid rq ∧ event_of r.2 = rq_event rq.
Proof.
  payload_cases rq; intros Ht Hev; simplify_eq; try done.
  all: crunch.
  all: eexists _, _; split; [done|]; cbn [subscript room_of fst snd];
         split_and!; try done; try (by case_match; simplify_eq).
Qed.

Lemma typed_submit rq r room answer rnd :
  typed rq = Some r → r.2 = On_submit_answer room answer rnd →
  rq_event rq = Ev_submit_answer ∧ r.1 = rq_sid rq ∧
  ∃ data v,
    rq_args rq = [data] ∧ subscript data "room" = inr (JStr room) ∧
    subscript data "answer" = inr v ∧ as_answer v = Some answer.
Proof.
  payload_cases rq; intros Ht Hr; simplify_eq; try done.
  all: crunch.
  all: split; [done|]; split; [done|]; eexists _, _; split; [done|];
         cbn [subscript]; rewrite ?H0, ?H1; done.
Qed.

Lemma dispatch_well_formed rooms rq o :
  all_well_formed QUESTIONS rooms →
  dispatch QUESTIONS rooms rq = Some o →
  all_well_formed QUESTIONS (o_rooms o).
Proof.
  intros Hall Hd. destruct (typed rq) as [r|] eqn:Ht.
  - destruct (dispatch_typed rooms rq r Ht) as [Hd' _].
    rewrite Hd' in Hd. injection Hd as <-. by apply handle_well_formed.
  - by rewrite (dispatch_untyped rooms rq o Ht Hd).
Qed.

Lemma serve_raw_well_formed rqs : ∀ rooms rooms' out,
  all_well_formed QUESTIONS rooms →
  serve_raw QUESTIONS rooms rqs = Some (rooms', out) →
  all_well_formed QUESTIONS rooms'.
Proof.
  induction rqs as [|rq rqs IH]; intros rooms rooms' out Hall Hs; simpl in Hs.
  - by injection Hs as <- <-.
  - destruct (dispatch QUESTIONS rooms rq) as [o|] eqn:Hd; [|done].
    destruct (serve_raw QUESTIONS (o_rooms o) rqs) as [[rooms1 out1]|] eqn:Hrest; [|done].
    injection Hs as <- <-. eapply IH; [|exact Hrest].
    by eapply dispatch_well_formed.
Qed.

(** [receive_answer] for a sender who holds a question, is owed points and
    is not a player: the answer is stored, then [g["players"][sid]] raises. *)
Lemma receive_answer_outsider rooms sid room answer rnd g qu :
  rooms !! room = Some g → questions g !! sid = Some qu →
  is_Some (points_for g sid qu answer) → sid ∉ Dict.keys (players g) →
  receive_answer QUESTIONS rooms sid room answer rnd =
    raised (<[room := recorded g sid answer]> rooms) [] KeyError.
Proof.
  intros Hg Hq [points Hpoints] Hnot%DictFacts.get_None.
  rewrite receive_answer_cases, Hg, Hq. cbv zeta. by rewrite Hpoints, Hnot.
Qed.

End DispatchFacts.

(** A request, other than [create_room], that names no session of the
    registry: its room is missing from the payload, is not a string, or is a
    string the registry does not have.  The registry stays as it is.  The
    handler raises exactly when the request is malformed, and then emits
    nothing: [TypeError] when it is not called with one argument, when the
    payload is not an object, or when the payload has every key the handler
    reads and the room is a list or an object; [KeyError] when the payload
    is an object that lacks a key the handler reads.  Otherwise [join]
    answers the sender with its error and the other handlers emit
    nothing. *)
Theorem unknown_room_ignored (QUESTIONS : bank) rooms rq :
  rq_event rq ≠ Ev_create_room →
  ¬ names_session rooms rq →
  ∃ o,
    dispatch QUESTIONS rooms rq = Some o ∧
    o_rooms o = rooms ∧
    o_raised o = payload_exn (rq_event rq) (rq_args rq) ∧
    o_emits o =
      match payload_exn (rq_event rq) (rq_args rq), rq_event rq with
      | None, Ev_join_room => [Emit (joined_error "Room not found") (ToSid (rq_sid rq))]
      | _, _ => []
      end.
Proof.
  intros Hev Hnone. destruct (typed rq) as [r|] eqn:Ht.
  - destruct (dispatch_typed QUESTIONS rooms rq r Ht) as [Hd ->].
    destruct (typed_room rq r Ht Hev) as (data & room & Hargs & Hsub & Hroom & Hsid & Hevent).
    assert (Habsent : rooms !! room = None).
    { destruct (rooms !! room) as [g|] eqn:Hg; [|done].
      exfalso. apply Hnone. exists data, room. rewrite Hg. eauto. }
    destruct (handle_unknown_room QUESTIONS rooms r room Hroom Habsent)
      as (Hrooms & Hraised & Hemits).
    exists (handle QUESTIONS rooms r). split_and!; [done|done|done|].
    rewrite Hemits, <- Hevent, <- Hsid. by destruct (r.2).
  - destruct (dispatch_untyped_total QUESTIONS rooms rq Ht Hnone) as [o Hd].
    pose proof (dispatch_untyped QUESTIONS rooms rq o Ht Hd) as ->.
    by exists (ignored rooms rq).
Qed.

(** On a registry the server can reach, a handler raises in two situations
    only.  Either the request is malformed (a call without its one argument,
    a payload that is not an object or lacks a key the handler reads, a room
    that is a list or an object): the exception comes from the first lines
    of the handler, nothing is changed and nothing emitted.  Or
    [receive_answer] is about to add points for a sender who holds a
    question of the room without being one of its players: the exception is
    the [KeyError] of [g["players"][sid]], raised after the answer is stored
    and before anything is emitted. *)
Theorem reachable_only_exception (QUESTIONS : bank) history rooms out rq o e :
  serve_raw QUESTIONS ∅ history = Some (rooms, out) →
  dispatch QUESTIONS rooms rq = Some o →
  o_raised o = Some e →
  (payload_exn (rq_event rq) (rq_args rq) = Some e ∧
   o_rooms o = rooms ∧ o_emits o = []) ∨
  (payload_exn (rq_event rq) (rq_args rq) = None ∧
   e = KeyError ∧ rq_event rq = Ev_submit_answer ∧
   ∃ data room v answer g qu,
     rq_args rq = [data] ∧
     subscript data "room" = inr (JStr room) ∧
     subscript data "answer" = inr v ∧ as_answer v = Some answer ∧
     rooms !! room = Some g ∧
     questions g !! rq_sid rq = Some qu ∧
     is_Some (points_for g (rq_sid rq) qu answer) ∧
     (rq_sid rq ∉ Dict.keys (players g)) ∧
     o_rooms o = <[room := recorded g (rq_sid rq) answer]> rooms ∧
     o_emits o = []).
Proof.
  intros Hreach Hd Hraised.
  assert (Hall : all_well_formed QUESTIONS rooms).
  { eapply serve_raw_well_formed; [|exact Hreach]. apply map_Forall_empty. }
  destruct (typed rq) as [r|] eqn:Ht.
  - right. destruct (dispatch_typed QUESTIONS rooms rq r Ht) as [Hd' Hexn].
    rewrite Hd' in Hd. injection Hd as <-.
    destruct (handle_well_formed QUESTIONS rooms r Hall) as [_ Honly].
    destruct (Honly e Hraised)
      as (-> & room & answer & rnd & g & qu & Hr & Hg & Hq & Hpoints & Hnot).
    destruct (typed_submit rq r room answer rnd Ht Hr)
      as (Hev & Hsid & data & v & Hargs & Hroom & Hanswer & Hv).
    split; [done|]. split; [done|]. split; [done|].
    exists data, room, v, answer, g, qu. rewrite <- Hsid.
    split_and!; try done.
    + unfold handle. rewrite Hr.
      by rewrite (receive_answer_outsider QUESTIONS rooms r.1 room answer rnd g qu).
    + unfold handle. rewrite Hr.
      by rewrite (receive_answer_outsider QUESTIONS rooms r.1 room answer rnd g qu).
  - left. pose proof (dispatch_untyped QUESTIONS rooms rq o Ht Hd) as ->.
    unfold ignored in *. cbn [o_raised o_rooms o_emits] in *. by rewrite Hraised.
Qed.

(** * Concrete runs *)

(** Closes a goal about a closed term by evaluation. *)
Ltac by_eval := vm_compute; first [reflexivity | exact I | done].

(** [fresh_roster] of a concrete lobby. *)
Ltac fresh_roster_eval :=
  split;
  [ compute_done
  | apply Forall_forall; repeat constructor; by_eval ].

(** C1 at the room of Ann, Bob and Cyd: the draws [2; 0] shuffle the join
    order [A, B, C] into [B, A, C]. *)
Lemma c1_rotation_first_eligible_witness :
  let o := start_game demo_bank lobby_ABC "ABC123" [2; 0]%nat in
  let r := transitions demo_bank (o_rooms o) "ABC123" [[]; []; []; []; []; []] in
  milestones (o_emits o ++ r.2) =
    [Round "B"; Round "B"; Round "A"; Round "A"; Round "C"; Round "C"; GameOver].
Proof.
  eapply (c1_rotation_first_eligible demo_bank lobby_ABC "ABC123" _ "B" "A" "C").
  - by_eval.
  - fresh_roster_eval.
  - by_eval.
  - reflexivity.
Defined.

(** C1 as stated fails: in that room, with the order [B, A, C], the rounds
    are not picked B, A, C, B, A, C. *)
Lemma c1_counterexample :
  let o := start_game demo_bank lobby_ABC "ABC123" [2; 0]%nat in
  let r := transitions demo_bank (o_rooms o) "ABC123" [[]; []; []; []; []; []] in
  (order <$> o_rooms o !! "ABC123") = Some ["B"; "A"; "C"] ∧
  milestones (o_emits o ++ r.2) ≠
    [Round "B"; Round "A"; Round "C"; Round "B"; Round "A"; Round "C"; GameOver].
Proof.
  split; [by_eval|]. vm_compute. discriminate.
Qed.



(** C2 at Ann and Bob's first round: Ann holds a hard question, Bob has not
    answered; Ann submits the correct index twice and holds 100 points. *)
Lemma c2_duplicate_submission_rescored_witness :
  let o1 := receive_answer demo_bank duo_hard "A" "R" (Some 1) [] in
  let o2 := receive_answer demo_bank (o_rooms o1) "A" "R" (Some 1) [] in
  score_of duo_hard "R" "A" = Some 0 ∧
  score_of (o_rooms o1) "R" "A" = Some 50 ∧
  score_of (o_rooms o2) "R" "A" = Some 100.
Proof.
  destruct (c2_duplicate_submission_rescored demo_bank duo_hard "R"
              (session_of duo_hard "R") "A" "B" nba_hard (Player "Ann" 0)
              (Some 1) (Some 1) [] [])
    as (g2 & _ & _ & _ & _ & Hhard).
  - by_eval.
  - by_eval.
  - by_eval.
  - compute_done.
  - discriminate.
  - by_eval.
  - split_and!; [by_eval | by_eval |].
    apply Hhard; by_eval.
Defined.

(** C2 as stated fails: Ann's answer is on record, yet her second submission
    is not a no-op.  It is scored again (100 points, not 50), and a second
    submission with another index overwrites the stored answer. *)
Lemma c2_counterexample :
  let o1 := receive_answer demo_bank duo_hard "A" "R" (Some 1) [] in
  let o2 := receive_answer demo_bank (o_rooms o1) "A" "R" (Some 1) [] in
  let o2' := receive_answer demo_bank (o_rooms o1) "A" "R" (Some 2) [] in
  (o_rooms o1 !! "R" ≫= λ g, answers g !! "A") = Some (Some 1) ∧
  score_of (o_rooms o1) "R" "A" = Some 50 ∧
  score_of (o_rooms o2) "R" "A" = Some 100 ∧
  ¬ (100 - 0 ≤ 50) ∧
  (o_rooms o2' !! "R" ≫= λ g, answers g !! "A") = Some (Some 2).
Proof.
  split_and!; [by_eval | by_eval | by_eval | lia | by_eval].
Qed.

(** C4 at the finished solo game: after [game_over], Ann chooses Geo, takes
    an easy question and submits once more, and each is carried out. *)
Lemma c4_no_finished_state_witness :
  let o := next_round demo_bank solo_finished "R" [] in
  (∃ results winner,
     o = returned solo_finished [Emit (game_over results winner) (ToRoom "R")]) ∧
  (∃ g',
     choose demo_bank (o_rooms o) "A" "R" "Geo" =
       returned (<["R" := g']> solo_finished)
         [Emit (category_chosen "Geo" 2) (ToRoom "R")] ∧
     category g' = Some "Geo") ∧
  (∃ g' qu,
     pick_diff demo_bank (o_rooms o) "A" "R" "easy" [] =
       returned (<["R" := g']> solo_finished)
         [Emit (question_sent (q qu) (a qu) 2) (ToSid "A")] ∧
     questions g' !! "A" = Some qu ∧
     answers g' !! "A" = Some None) ∧
  (∃ g',
     o_rooms (receive_answer demo_bank (o_rooms o) "A" "R" (Some 1) []) !! "R" = Some g' ∧
     answers g' !! "A" = Some (Some 1) ∧
     Dict.get "A" (players g') = Some (Player "Ann" 150)).
Proof.
  assert (Hround : round (session_of solo_finished "R") = 2) by by_eval.
  assert (Hpoints : awarded (session_of solo_finished "R") "A" nba_hard (Some 1) = 50)
    by by_eval.
  assert (Horder : order (session_of solo_finished "R") = ["A"]) by by_eval.
  destruct (c4_no_finished_state demo_bank solo_finished "R"
              (session_of solo_finished "R") [])
    as (Hover & Hchoose & Hpick & Hanswer).
  - by_eval.
  - rewrite Horder. intros sid ->%list_elem_of_singleton.
    exists 2. split; [by_eval | lia].
  - split_and!.
    + exact Hover.
    + destruct (Hchoose "A" "Geo") as (g' & Hrun & Hcat);
        [by_eval | compute_done | by eexists |].
      rewrite Hround in Hrun. exists g'. split; [exact Hrun | exact Hcat].
    + destruct (Hpick "A" "NBA" "easy"
                  [("easy", [nba_easy]); ("medium", []); ("hard", [nba_hard])]
                  [nba_easy] [])
        as (g' & qu & Hrun & Hq & Ha);
        [by_eval | compute_done | by_eval | by_eval | discriminate |].
      rewrite Hround in Hrun.
      exists g', qu. split_and!; [exact Hrun | exact Hq | exact Ha].
    + destruct (Hanswer "A" nba_hard (Player "Ann" 100) (Some 1) [])
        as (g' & Hg' & Ha & Hp & _); [by_eval | by_eval |].
      rewrite Hpoints in Hp.
      exists g'. split_and!; [exact Hg' | exact Ha | exact Hp].
Defined.

(** C4 as stated fails: the solo game is over ([game_over] was its last
    notification), yet each of the three operations changes the session and
    emits. *)
Lemma c4_counterexample :
  (is_game_over <$> last (serve demo_bank room_R solo_game).2) = Some true ∧
  (let o := choose demo_bank solo_finished "A" "R" "Geo" in
   (category <$> solo_finished !! "R") = Some (Some "NBA") ∧
   (category <$> o_rooms o !! "R") = Some (Some "Geo") ∧
   o_emits o = [Emit (category_chosen "Geo" 2) (ToRoom "R")]) ∧
  (let o := pick_diff demo_bank solo_finished "A" "R" "easy" [] in
   (solo_finished !! "R" ≫= λ g, questions g !! "A") = Some nba_hard ∧
   (o_rooms o !! "R" ≫= λ g, questions g !! "A") = Some nba_easy ∧
   o_emits o = [Emit (question_sent (q nba_easy) (a nba_easy) 2) (ToSid "A")]) ∧
  (let o := receive_answer demo_bank solo_finished "A" "R" (Some 1) [] in
   score_of solo_finished "R" "A" = Some 100 ∧
   score_of (o_rooms o) "R" "A" = Some 150 ∧
   o_emits o =
     [Emit (answer_feedback true 1) (ToSid "A");
      Emit round_end (ToRoom "R");
      Emit (game_over [("Ann", 150)] "Ann") (ToRoom "R")]).
Proof.
  split_and!; by_eval.
Qed.

(** C5 at Ann and Bob's first round, Ann's answer in: Bob's submission
    closes the barrier, so [round_end] goes out and round 2 starts. *)
Lemma c5_round_end_iff_all_answered_witness :
  let o := receive_answer demo_bank duo_one_left "B" "R" (Some 0) [] in
  let fb := Emit (answer_feedback (bool_decide (Some 0 = Some (correct nba_easy)))
                    (correct nba_easy)) (ToSid "B") in
  ∃ g1,
    answers g1 = <["B" := Some 0]> (answers (session_of duo_one_left "R")) ∧
    Dict.keys (players g1) = Dict.keys (players (session_of duo_one_left "R")) ∧
    (Emit round_end (ToRoom "R") ∈ o_emits o ↔ all_answered g1) ∧
    (all_answered g1 →
       let n := next_round demo_bank (<["R" := g1]> duo_one_left) "R" [] in
       o = Outcome (o_rooms n) (fb :: Emit round_end (ToRoom "R") :: o_emits n)
             (o_raised n)) ∧
    (¬ all_answered g1 → o = returned (<["R" := g1]> duo_one_left) [fb]).
Proof.
  apply (c5_round_end_iff_all_answered demo_bank duo_one_left "R"
           (session_of duo_one_left "R") "B" nba_easy (Some 0) []).
  - by_eval.
  - by_eval.
  - compute_done.
Defined.

(** C6 at the solo game with Film chosen: Film has no hard questions. *)
Lemma c6_placeholder_not_stored_witness :
  let o := pick_diff demo_bank solo_film "A" "R" "hard" [] in
  ∃ g',
    o = returned (<["R" := g']> solo_film)
          [Emit (question_sent "No questions available for this category/difficulty."
                   ["OK"; "OK"; "OK"; "OK"] (round (session_of solo_film "R")))
             (ToSid "A")] ∧
    difficulties g' = <["A" := "hard"]> (difficulties (session_of solo_film "R")) ∧
    questions g' = questions (session_of solo_film "R") ∧
    answers g' = answers (session_of solo_film "R") ∧
    (questions (session_of solo_film "R") !! "A" = None →
     ∀ answer rnd',
       receive_answer demo_bank (o_rooms o) "A" "R" answer rnd' =
         returned (o_rooms o) []).
Proof.
  apply (c6_placeholder_not_stored demo_bank solo_film "R" (session_of solo_film "R")
           "A" "Film" "hard" [("easy", [nba_easy]); ("medium", []); ("hard", [])] []).
  - by_eval.
  - by_eval.
  - compute_done.
  - by_eval.
  - by_eval.
Defined.

(** C6 as stated fails: Ann is sent the placeholder, but the question map
    has no entry for her and her answer slot does not exist, and her answer
    is ignored, so she cannot pass the barrier. *)
Lemma c6_counterexample :
  let o := pick_diff demo_bank solo_film "A" "R" "hard" [] in
  o_emits o =
    [Emit (question_sent "No questions available for this category/difficulty."
             ["OK"; "OK"; "OK"; "OK"] 1) (ToSid "A")] ∧
  (o_rooms o !! "R" ≫= λ g, questions g !! "A") = None ∧
  (o_rooms o !! "R" ≫= λ g, answers g !! "A") = None ∧
  receive_answer demo_bank (o_rooms o) "A" "R" (Some 0) [] = returned (o_rooms o) [].
Proof.
  split_and!; by_eval.
Qed.

(** C7 at the end of Ann and Bob's game. *)
Lemma c7_game_over_results_unsorted_witness :
  let results :=
    map (λ p, (name p, score p)) (Dict.values (players (session_of duo_finished "R"))) in
  ∃ winner,
    end_game duo_finished "R" =
      returned duo_finished [Emit (game_over results winner) (ToRoom "R")] ∧
    (players (session_of duo_finished "R") = [] → results = [] ∧ winner = "Ingen") ∧
    (players (session_of duo_finished "R") ≠ [] →
     ∃ before top after,
       results = before ++ top :: after ∧
       winner = top.1 ∧
       Forall (λ r, r.2 < top.2) before ∧
       Forall (λ r, r.2 ≤ top.2) after).
Proof.
  apply (c7_game_over_results_unsorted duo_finished "R" (session_of duo_finished "R")).
  by_eval.
Defined.

(** C7 as stated fails: the [game_over] that ends Ann and Bob's game lists
    Ann with 0 before Bob with 10. *)
Lemma c7_counterexample :
  last (serve demo_bank room_R duo_game).2 =
    Some (Emit (game_over [("Ann", 0); ("Bob", 10)] "Bob") (ToRoom "R")) ∧
  end_game duo_finished "R" =
    returned duo_finished [Emit (game_over [("Ann", 0); ("Bob", 10)] "Bob") (ToRoom "R")] ∧
  descending [("Ann", 0); ("Bob", 10)] = false.
Proof.
  split_and!; by_eval.
Qed.


(** C9 at the room Ann has joined: Bob joins, before or after the start. *)
Lemma c9_join_any_time_witness :
  (∃ g',
     o_rooms (join (serve demo_bank room_R [("A", On_join_room "R" "Ann")]).1
                "B" "R" "Bob") !! "R" = Some g' ∧
     Dict.get "B" (players g') = Some (Player "Bob" 0) ∧
     picker_counts g' !! "B" = Some 0) ∧
  let started :=
    o_rooms (start_game demo_bank
               (serve demo_bank room_R [("A", On_join_room "R" "Ann")]).1 "R" []) in
  ∃ g',
    o_rooms (join started "B" "R" "Bob") !! "R" = Some g' ∧
    Dict.get "B" (players g') = Some (Player "Bob" 0) ∧
    picker_counts g' !! "B" = Some 0.
Proof.
  apply (c9_join_any_time demo_bank
           (serve demo_bank room_R [("A", On_join_room "R" "Ann")]).1 "R" game_A).
  by_eval.
Defined.

(** C9 as stated fails: the solo game has started (round 1 is running
    with Ann as the only player), and Bob's [join_room] adds him. *)
Lemma c9_counterexample :
  (round <$> solo_started !! "R") = Some 1 ∧
  (current_picker <$> solo_started !! "R") = Some (Some "A") ∧
  (Dict.keys ∘ players <$> solo_started !! "R") = Some ["A"] ∧
  let o := join solo_started "B" "R" "Bob" in
  (Dict.keys ∘ players <$> o_rooms o !! "R") = Some ["A"; "B"] ∧
  (o_rooms o !! "R" ≫= λ g, Dict.get "B" (players g)) = Some (Player "Bob" 0) ∧
  o_emits o =
    [Emit (joined "R" "B") (ToSid "B"); Emit (player_list ["Ann"; "Bob"]) (ToRoom "R")].
Proof.
  split_and!; by_eval.
Qed.

(** C10 at a game played to the end in a created room: [game_over] was
    broadcast, and [phase] still reads "lobby". *)
Lemma c10_phase_always_lobby_witness :
  (is_game_over <$> last (serve demo_bank ∅ created_game).2) = Some true ∧
  phase (session_of (serve demo_bank ∅ created_game).1 "ABC123") = "lobby".
Proof.
  split; [by_eval|].
  apply (c10_phase_always_lobby demo_bank created_game "ABC123").
  by_eval.
Defined.

(** * Concrete runs of the further properties *)

Lemma reachable_pick_counts_bounded_witness : 0 ≤ 2 ≤ 2.
Proof.
  apply (reachable_pick_counts_bounded demo_bank created_game "ABC123"
           (session_of (serve demo_bank ∅ created_game).1 "ABC123") "A" 2);
    by_eval.
Defined.

Lemma reachable_order_of_players_witness :
  let g := session_of (serve demo_bank ∅ created_game).1 "ABC123" in
  NoDup (order g) ∧
  ∀ sid, sid ∈ order g →
    is_Some (Dict.get sid (players g)) ∧ is_Some (picker_counts g !! sid).
Proof.
  apply (reachable_order_of_players demo_bank created_game "ABC123"). by_eval.
Defined.

Lemma reachable_round_maps_aligned_witness :
  let g := session_of (serve demo_bank ∅ outsider_game).1 "ABC123" in
  (is_Some (answers g !! "X") ↔ is_Some (questions g !! "X")) ∧
  (is_Some (questions g !! "X") → is_Some (difficulties g !! "X")).
Proof.
  apply (reachable_round_maps_aligned demo_bank outsider_game "ABC123"). by_eval.
Defined.

Lemma reachable_category_in_bank_witness : is_Some (Dict.get "NBA" demo_bank).
Proof.
  apply (reachable_category_in_bank demo_bank outsider_game "ABC123"
           (session_of (serve demo_bank ∅ outsider_game).1 "ABC123") "NBA");
    by_eval.
Defined.

(** The outsider [X] submits the correct index of the question it was sent:
    the handler raises after it has stored the answer.  [B] asks to join
    without a name: the handler raises before it looks at the room. *)
Lemma reachable_only_exception_witness :
  let rooms := (serve demo_bank ∅ outsider_game).1 in
  let o := receive_answer demo_bank rooms "X" "ABC123" (Some 1) [] in
  let o' := raised rooms [] KeyError in
  (dispatch demo_bank rooms outsider_submit = Some o ∧
   o_raised o = Some KeyError ∧
   o_rooms o = <["ABC123" := recorded (session_of rooms "ABC123") "X" (Some 1)]> rooms ∧
   o_emits o = []) ∧
  (dispatch demo_bank rooms join_without_name = Some o' ∧
   payload_exn Ev_join_room (rq_args join_without_name) = Some KeyError).
Proof.
  intros rooms o o'.
  assert (Hreach : serve_raw demo_bank ∅ outsider_raw = Some (rooms, (serve demo_bank ∅ outsider_game).2))
    by by_eval.
  assert (Hd : dispatch demo_bank rooms outsider_submit = Some o) by by_eval.
  assert (Hraised : o_raised o = Some KeyError) by by_eval.
  assert (Hd' : dispatch demo_bank rooms join_without_name = Some o') by by_eval.
  assert (Hraised' : o_raised o' = Some KeyError) by done.
  clearbody rooms o o'.
  split.
  - split; [done|]. split; [done|].
    destruct (reachable_only_exception demo_bank outsider_raw rooms _
                outsider_submit o KeyError Hreach Hd Hraised)
      as [(Hexn & _)|(_ & _ & _ & data & room & v & answer & g & qu & Hargs & Hroom &
                      Hv & Ha & Hg & _ & _ & _ & Hrooms & Hemits)].
    + by vm_compute in Hexn.
    + injection Hargs as <-. vm_compute in Hroom. injection Hroom as <-.
      vm_compute in Hv. injection Hv as <-. vm_compute in Ha. injection Ha as <-.
      unfold session_of. rewrite Hg. exact (conj Hrooms Hemits).
  - split; [done|].
    destruct (reachable_only_exception demo_bank outsider_raw rooms _
                join_without_name o' KeyError Hreach Hd' Hraised')
      as [(Hexn & _)|(_ & _ & Hev & _)]; [exact Hexn | discriminate].
Defined.

(** [A] asks to join the room Q, which the registry does not have: with a
    name she gets the error reply, without one the handler raises. *)
Lemma unknown_room_ignored_witness :
  (∃ o, dispatch demo_bank room_R join_unknown = Some o ∧
        o_rooms o = room_R ∧ o_raised o = None ∧
        o_emits o = [Emit (joined_error "Room not found") (ToSid "A")]) ∧
  (∃ o, dispatch demo_bank room_R join_unknown_without_name = Some o ∧
        o_rooms o = room_R ∧ o_raised o = Some KeyError ∧ o_emits o = []).
Proof.
  assert (Habsent : ∀ rq,
            rq_args rq = [room_data "Q" [("name", JStr "Ann")]] ∨
            rq_args rq = [room_data "Q" []] →
            ¬ names_session room_R rq).
  { intros rq Hargs (data & room & Hdata & Hroom & Hsome).
    rewrite Hdata in Hargs.
    destruct Hargs as [[= ->]|[= ->]]; vm_compute in Hroom; injection Hroom as <-;
      vm_compute in Hsome; by destruct Hsome. }
  split.
  - apply (unknown_room_ignored demo_bank room_R join_unknown);
      [discriminate | apply Habsent; by left].
  - apply (unknown_room_ignored demo_bank room_R join_unknown_without_name);
      [discriminate | apply Habsent; by right].
Defined.

Lemma choose_only_by_picker_witness :
  let g := session_of solo_started "R" in
  (current_picker g ≠ Some "A" ∨ "NBA" ∉ category_options g ∨
     Dict.get "NBA" demo_bank = None →
   choose demo_bank solo_started "A" "R" "NBA" = returned solo_started []) ∧
  (current_picker g = Some "A" → "NBA" ∈ category_options g →
   is_Some (Dict.get "NBA" demo_bank) →
   choose demo_bank solo_started "A" "R" "NBA" =
     returned (<["R" := chosen g "NBA"]> solo_started)
       [Emit (category_chosen "NBA" (round g)) (ToRoom "R")]).
Proof.
  apply (choose_only_by_picker demo_bank solo_started "A" "R" "NBA"
           (session_of solo_started "R")).
  by_eval.
Defined.

Lemma pick_diff_touches_caller_only_witness :
  let g := session_of duo_hard "R" in
  let o := pick_diff demo_bank duo_hard "B" "R" "easy" [] in
  ∃ g',
    o_rooms o = <["R" := g']> duo_hard ∧
    players g' = players g ∧ order g' = order g ∧ round g' = round g ∧
    picker_counts g' = picker_counts g ∧ current_picker g' = current_picker g ∧
    category g' = category g ∧ category_options g' = category_options g ∧
    (∀ other, other ≠ "B" →
       questions g' !! other = questions g !! other ∧
       answers g' !! other = answers g !! other ∧
       difficulties g' !! other = difficulties g !! other) ∧
    (∀ e, e ∈ o_emits o → to e = ToSid "B").
Proof.
  apply (pick_diff_touches_caller_only demo_bank duo_hard "B" "R" "easy" []
           (session_of duo_hard "R")).
  by_eval.
Defined.


Lemma receive_answer_scores_caller_only_witness :
  let g := session_of duo_hard "R" in
  let o := receive_answer demo_bank duo_hard "A" "R" (Some 1) [] in
  ∃ g',
    o_rooms o !! "R" = Some g' ∧
    Dict.keys (players g') = Dict.keys (players g) ∧
    Dict.get "A" (players g') =
      Some (Player (name (Player "Ann" 0))
              (score (Player "Ann" 0) + awarded g "A" nba_hard (Some 1))) ∧
    awarded g "A" nba_hard (Some 1) ∈ [0; 10; 25; 50] ∧
    (awarded g "A" nba_hard (Some 1) ≠ 0 → Some 1 = Some (correct nba_hard)) ∧
    ∀ other, other ≠ "A" → Dict.get other (players g') = Dict.get other (players g).
Proof.
  apply (receive_answer_scores_caller_only demo_bank duo_hard "A" "R" (Some 1) []
           (session_of duo_hard "R") nba_hard (Player "Ann" 0)); by_eval.
Defined.

Lemma null_answer_leaves_round_open_witness :
  receive_answer demo_bank duo_hard "A" "R" None [] =
    returned (<["R" := recorded (session_of duo_hard "R") "A" None]> duo_hard)
      [Emit (answer_feedback false (correct nba_hard)) (ToSid "A")].
Proof.
  apply (null_answer_leaves_round_open demo_bank duo_hard "A" "R" []
           (session_of duo_hard "R") nba_hard).
  - by_eval.
  - by_eval.
  - compute_done.
Defined.

Lemma start_game_without_players_witness :
  start_game demo_bank room_R "R" [] =
    returned (<["R" := ordered init_game []]> room_R)
      [Emit (game_over [] "Ingen") (ToRoom "R")].
Proof.
  apply (start_game_without_players demo_bank room_R "R" [] init_game).
  - by_eval.
  - reflexivity.
Defined.

Lemma start_game_order_is_permutation_witness :
  ∃ g',
    o_rooms (start_game demo_bank lobby_ABC "ABC123" [2; 0]%nat) !! "ABC123" = Some g' ∧
    order g' ≡ₚ Dict.keys (players (session_of lobby_ABC "ABC123")) ∧
    players g' = players (session_of lobby_ABC "ABC123").
Proof.
  apply (start_game_order_is_permutation demo_bank lobby_ABC "ABC123" [2; 0]%nat
           (session_of lobby_ABC "ABC123")).
  by_eval.
Defined.

(** The transition out of round 1 of the solo game. *)
Lemma round_start_announces_new_round_witness :
  let g := session_of solo_started "R" in
  ToRoom "R" = ToRoom "R" ∧ 2 = round g + 1 ∧ "A" ∈ order g ∧
  (∃ c, picker_counts g !! "A" = Some c ∧ c < 2) ∧
  (∃ p, Dict.get "A" (players g) = Some p ∧ name p = "Ann") ∧
  ∃ g',
    o_rooms (next_round demo_bank solo_started "R" []) !! "R" = Some g' ∧
    round g' = 2 ∧ current_picker g' = Some "A" ∧
    category_options g' = ["NBA"; "Geo"; "Film"] ∧
    category g' = None ∧ questions g' = ∅ ∧ answers g' = ∅ ∧ difficulties g' = ∅.
Proof.
  apply (round_start_announces_new_round demo_bank solo_started "R" []
           (session_of solo_started "R") 2 "Ann" "A" ["NBA"; "Geo"; "Film"] (ToRoom "R")).
  - by_eval.
  - apply (list_elem_of_lookup_2 _ 0%nat). by_eval.
Defined.

Lemma join_appends_or_resets_witness :
  let g := session_of solo_started "R" in
  ∃ g',
    o_rooms (join solo_started "B" "R" "Bob") !! "R" = Some g' ∧
    Dict.keys (players g') =
      (if decide ("B" ∈ Dict.keys (players g))
       then Dict.keys (players g)
       else Dict.keys (players g) ++ ["B"]) ∧
    Dict.get "B" (players g') = Some (Player "Bob" 0) ∧
    picker_counts g' !! "B" = Some 0 ∧
    ∀ other, other ≠ "B" →
      Dict.get other (players g') = Dict.get other (players g) ∧
      picker_counts g' !! other = picker_counts g !! other.
Proof.
  apply (join_appends_or_resets solo_started "B" "R" "Bob" (session_of solo_started "R")).
  by_eval.
Defined.

Lemma round_start_category_options_witness :
  ["NBA"; "Geo"; "Film"] ⊆+ CATEGORIES demo_bank ∧
  length ["NBA"; "Geo"; "Film"] = (length (CATEGORIES demo_bank) `min` 3)%nat ∧
  ((length (CATEGORIES demo_bank) < 3)%nat → ["NBA"; "Geo"; "Film"] = CATEGORIES demo_bank) ∧
  (NoDup (CATEGORIES demo_bank) → NoDup ["NBA"; "Geo"; "Film"]).
Proof.
  apply (round_start_category_options demo_bank solo_started "R" []
           (session_of solo_started "R") 2 "Ann" "A" ["NBA"; "Geo"; "Film"] (ToRoom "R")).
  - by_eval.
  - apply (list_elem_of_lookup_2 _ 0%nat). by_eval.
Defined.

Lemma rooms_are_independent_witness :
  let o := handle demo_bank two_rooms ("A", On_start_game "R" []) in
  o_rooms o !! "S" = two_rooms !! "S" ∧
  ∀ e, e ∈ o_emits o → to e ≠ ToRoom "S".
Proof.
  apply (rooms_are_independent demo_bank two_rooms ("A", On_start_game "R" []) "R" "S").
  - reflexivity.
  - discriminate.
Defined.

(** The two rounds of the game in room [ABC123]: one player, two picks owed
    after the start, none at the end. *)
Lemma in_game_requests_conserve_rounds_witness :
  let g := session_of (serve demo_bank ∅ created_lobby).1 "ABC123" in
  (round g = 1 ∧ owed g = 1%nat) ∧
  ∃ g',
    (serve demo_bank ∅ (created_lobby ++ created_play)).1 !! "ABC123" = Some g' ∧
    order g' = order g ∧
    Dict.keys (players g') = Dict.keys (players g) ∧
    round g' + Z.of_nat (owed g') = round g + Z.of_nat (owed g) ∧
    round g' ≤ round g + Z.of_nat (owed g).
Proof.
  split; [split; by_eval|].
  apply (in_game_requests_conserve_rounds demo_bank created_lobby created_play "ABC123").
  - by_eval.
  - reflexivity.
Defined.

Lemma load_questions_shape_witness :
  Dict.keys (load_questions demo_raw) = Dict.keys demo_raw ∧
  ∀ cat levels, Dict.get cat demo_raw = Some levels →
    ∃ converted,
      Dict.get cat (load_questions demo_raw) = Some converted ∧
      Dict.keys converted = ["easy"; "medium"; "hard"] ∧
      ∀ diff, diff ∈ ["easy"; "medium"; "hard"] →
        Dict.get diff converted =
          Some (omap convert_item (default [] (Dict.get diff levels))).
Proof.
  apply (load_questions_shape demo_raw). compute_done.
Defined.

(** Of the six easy NBA items of the small file the two good ones are kept;
    the one in the old format has the boolean [true] as its index. *)
Lemma load_questions_entries_valid_witness :
  (Dict.get "NBA" (load_questions demo_raw) ≫= Dict.get "easy") =
    Some [Entry "Who won in 2016?"
            [JStr "Cavs"; JStr "Warriors"; JStr "Spurs"; JStr "Heat"] (JInt 0);
          old_format_entry] ∧
  length (e_a old_format_entry) = 4%nat ∧
  ∃ n, as_int (e_correct old_format_entry) = Some n ∧ 0 ≤ n ≤ 3.
Proof.
  split; [by_eval|].
  apply (load_questions_entries_valid demo_raw "NBA"
           [("easy", [Entry "Who won in 2016?"
                        [JStr "Cavs"; JStr "Warriors"; JStr "Spurs"; JStr "Heat"] (JInt 0);
                      old_format_entry]);
            ("medium", []); ("hard", [])]
           "easy"
           [Entry "Who won in 2016?"
              [JStr "Cavs"; JStr "Warriors"; JStr "Spurs"; JStr "Heat"] (JInt 0);
            old_format_entry]).
  - by_eval.
  - by_eval.
  - apply list_elem_of_further, list_elem_of_here.
Defined.

Lemma convert_item_rereads_own_output_witness :
  convert_item (entry_item old_format_entry) =
    (if decide (e_q old_format_entry = "") then None else Some old_format_entry).
Proof.
  apply (convert_item_rereads_own_output
           [("q", JStr "Old format?");
            ("a", JList [JStr "a"; JStr "b"; JStr "c"; JStr "d"]);
            ("correct", JBool true)]).
  by_eval.
Defined.

(** The transition that ends the solo game. *)
Lemma game_over_only_when_all_picked_witness :
  let g := session_of solo_finished "R" in
  (∀ sid, sid ∈ order g → ∃ c, picker_counts g !! sid = Some c ∧ 2 ≤ c) ∧
  o_rooms (next_round demo_bank solo_finished "R" []) = solo_finished ∧
  ToRoom "R" = ToRoom "R" ∧
  [("Ann", 100)] = map (λ p, (name p, score p)) (Dict.values (players g)).
Proof.
  apply (game_over_only_when_all_picked demo_bank solo_finished "R" []
           (session_of solo_finished "R") [("Ann", 100)] "Ann" (ToRoom "R")).
  - by_eval.
  - apply (list_elem_of_lookup_2 _ 0%nat). by_eval.
Defined.

(** The first feedback of the solo game. *)
Lemma answer_key_private_witness :
  ∃ sid room answer rnd,
    (sid, On_submit_answer room answer rnd) ∈ solo_game ∧
    to (Emit (answer_feedback true 1) (ToSid "A")) = ToSid sid ∧
    true = bool_decide (answer = Some 1).
Proof.
  apply (answer_key_private demo_bank room_R solo_game).
  - apply (list_elem_of_lookup_2 _ 5%nat). by_eval.
  - reflexivity.
Defined.

Lemma reachable_scores_nonneg_witness : 0 ≤ score (Player "Ann" 100).
Proof.
  apply (reachable_scores_nonneg demo_bank created_game "ABC123"
           (session_of (serve demo_bank ∅ created_game).1 "ABC123") "A");
    by_eval.
Defined.
